(** * dist-scheduler: a shallow embedding of the distributed decision pipeline

    The development follows the Go packages of the repository:
    - [GoStr]          byte strings as Go sees them (indexing, prefix, compare)
    - [Sampling]       the name-based log sampling check of the pod entry points
    - [SchedulerSet]   pkg/schedulerset  (membership, sort order, scoring target,
                       relay sub-members)
    - [ScoreEvaluator] pkg/scoreevaluator and the CollectScore handler
    - [Latch]          pkg/util          (count-down latch)
    - [Partitioner]    updateNodeLabels  (leader-side node partition)
    - [DistPermit]     pkg/distpermit    (SendScore)
    - [ConcurrentCounter] scheduler_metrics.go (the index allocator)
    - [Stack]          pkg/util          (the stack of idle schedulers)
    - [ScoreEvaluatorInv] further invariants of the score evaluator
    - [NodeTool]       the node-creation tool (createNode)
    - [PermitPlugin]   pkg/distpermit    (Permit)
    - [FailureHandler] scheduler.go      (podScheduleFailure)
    - [Relay]          relay.go          (framing, request ids, RelayPod)
    - [Informer]       pkg/schedulerset  (cache and update handlers)
    Concrete inputs for the examples come next, then the theorems.

    A Go panic is an explicit [None]; Go's [int] is [Z]; lengths and slice
    positions are [nat]. *)

From Stdlib Require Import ZArith QArith Qround Lia Ascii String List OrdersEx.
From Stdlib Require Import Floats.SpecFloat.
From stdpp Require Import base option list strings gmap sorting pretty.

Local Open Scope string_scope.
Local Open Scope Z_scope.
Local Open Scope list_scope.

(* ===================================================================== *)
(** ** Go strings                                                         *)
(* ===================================================================== *)

Module GoStr.

(** [s[i]] for an [int] index: a run-time panic outside [0, len(s)). *)
Definition index (s : string) (i : Z) : option ascii :=
  if i <? 0 then None else String.get (Z.to_nat i) s.

(** [len(s)] as an [int]. *)
Definition len (s : string) : Z := Z.of_nat (String.length s).

(** [strings.HasPrefix(s, prefix)]. *)
Definition HasPrefix (s pre : string) : bool := String.prefix pre s.

(** [strings.Compare(a, b)]: -1, 0 or 1, bytewise lexicographic. *)
Definition Compare (a b : string) : Z :=
  match String.compare a b with
  | Lt => -1
  | Eq => 0
  | Gt => 1
  end.

End GoStr.

(* ===================================================================== *)
(** ** Name-based log sampling (webhook, dispatch, receive side)          *)
(* ===================================================================== *)

Module Sampling.

Record Pod := mkPod {
  Name : string;
  Namespace : string;
  SchedulerName : string
}.

(** [pod.Name[len(pod.Name)-1] == '0' && pod.Name[len(pod.Name)-2] == '0'].
    The right operand of [&&] is evaluated only when the left one is true. *)
Definition sampled (name : string) : option bool :=
  c1 ← GoStr.index name (GoStr.len name - 1);
  if Ascii.eqb c1 "0"%char
  then c2 ← GoStr.index name (GoStr.len name - 2); Some (Ascii.eqb c2 "0"%char)
  else Some false.

(** [WebhookServer.handleWebhook], from the parsed pod on: the sampling
    check guards a log line, then the pod is queued when it names this
    scheduler.  The result is the pod queue. *)
Definition handleWebhook (podQueue : list Pod) (pod : Pod) : option (list Pod) :=
  _ ← sampled (Name pod);
  Some (if String.eqb (SchedulerName pod) "dist-scheduler"
        then podQueue ++ [pod] else podQueue).

(** [DistScheduler.ProcessOne]: [doLog] is computed before any other work
    (scheduler.go:493).  Everything after it (the relay to the
    sub-schedulers, the wait for an idle scheduler, the scheduling cycle)
    is [rest], which is given [doLog] and may itself panic ([None]). *)
Definition ProcessOne {R : Type} (rest : bool → option R) (pod : Pod)
  : option R :=
  doLog ← sampled (Name pod);
  rest doLog.

(** [podServiceServer.UnmarshalPodRaw], after decoding: the check before
    the dispatch, the dispatch, and the check after it.  [dispatch] is
    what lies between the two checks: [cc.Get()], the call of
    [ProcessOne] (whose error is dropped) and the deferred [cc.Free(idx)];
    it may panic ([None]).  The function itself returns nil. *)
Definition UnmarshalPodRaw {R : Type} (dispatch : Pod → option R) (pod : Pod)
  : option unit :=
  _ ← sampled (Name pod);
  _ ← dispatch pod;
  _ ← sampled (Name pod);
  Some tt.

End Sampling.

(* ===================================================================== *)
(** ** pkg/schedulerset                                                   *)
(* ===================================================================== *)

Module SchedulerSet.

Record EndpointItem := mkEndpointItem {
  PodName : string;
  Addresses : list string
}.

#[global] Instance EndpointItem_eq_dec : EqDecision EndpointItem.
Proof. solve_decision. Defined.

Definition RelayPrefix : string := "dist-scheduler-relay".
Definition SchedulerPrefix : string := "dist-scheduler".

(** [EndpointSliceCache]: endpoint slices keyed by slice name; of each
    endpoint only the target pod name and the addresses are read. *)
Definition EndpointSliceCache := gmap string (list EndpointItem).

(** [EndpointSliceCache.GetMemberCount]: [count += len(slice.Endpoints)]
    over the map. *)
Definition cache_GetMemberCount (esc : gmap string (list EndpointItem)) : Z :=
  foldr (λ kv count, count + Z.of_nat (length kv.2)) 0 (map_to_list esc).

(** [EndpointSliceCache.GetMembers]: every endpoint of every slice, in the
    iteration order of the map. *)
Definition cache_GetMembers (esc : gmap string (list EndpointItem))
  : list EndpointItem :=
  foldr (λ kv members, kv.2 ++ members) [] (map_to_list esc).

Record t := mkSchedulerSet {
  endpointSliceCache : gmap string (list EndpointItem);
  podName : string;
  fanOut : Z;                          (* uint32 *)
  subMembersCache : list EndpointItem;
  leader : string;
  dirty : bool;
  allowSolo : bool
}.

(** Conversion of a Go [int] to [uint32]. *)
Definition uint32 (z : Z) : Z := z mod 2 ^ 32.

Definition GetMemberCount (s : t) : Z :=
  let memberCount := uint32 (cache_GetMemberCount (endpointSliceCache s)) in
  if (memberCount =? 0) && allowSolo s then 1 else memberCount.

Definition GetMemberCountNoRelays (s : t) : Z :=
  let members := cache_GetMembers (endpointSliceCache s) in
  let count :=
    fold_left (λ count member,
                 if negb (GoStr.HasPrefix (PodName member) RelayPrefix)
                 then count + 1 else count) members 0 in
  uint32 count.

Definition GetMembers (s : t) : list EndpointItem :=
  let members := cache_GetMembers (endpointSliceCache s) in
  if (Nat.eqb (length members) 0) && allowSolo s
  then [ {| PodName := podName s; Addresses := ["127.0.0.1"] |} ]
  else members.

(** [podNameSort]: the leader first; otherwise byte order of the names,
    a relay pod's name taken with an extra "a" in front ([sortKey]) so that
    relays come before the "dist-scheduler" pods. *)
Definition sortKey (name : string) : string :=
  if GoStr.HasPrefix name RelayPrefix then String.append "a" name else name.

Definition podNameSort (ldr : string) (a b : string) : Z :=
  if String.eqb a ldr then -1
  else if String.eqb b ldr then 1
  else
    let a := sortKey a in
    let b := sortKey b in
    GoStr.Compare a b.

(** The order [slices.SortFunc] sorts by: [a] may stand before [b]. *)
Definition before (ldr : string) (a b : EndpointItem) : Prop :=
  podNameSort ldr (PodName a) (PodName b) ≤ 0.

#[global] Instance before_dec ldr a b : Decision (before ldr a b).
Proof. unfold before. apply _. Defined.

(** [sortMembers]: [slices.SortFunc] with [podNameSort] on the pod names.
    The library sort is taken as a comparison sort by that comparator
    (stdpp's merge sort); pod names in a snapshot are unique, so every
    such sort yields the same order. *)
Definition sortMembers (s : t) (members : list EndpointItem)
  : list EndpointItem :=
  merge_sort (before (leader s)) members.

(** [hash/fnv], 32 bit.  [fnv.New32()] is the FNV-1 variant: multiply by
    the prime, then xor the byte in. *)
Definition offset32 : Z := 2166136261.
Definition prime32 : Z := 16777619.

Definition byte_val (c : ascii) : Z := Z.of_N (N_of_ascii c).

Definition fnv1_32 (key : string) : Z :=
  fold_left (λ hash c, Z.lxor ((hash * prime32) mod 2 ^ 32) (byte_val c))
            (list_ascii_of_string key) offset32.

(** FNV-1a, the variant [fnv.New32a()] computes and the one the written
    specification names: xor the byte in, then multiply. *)
Definition fnv1a_32 (key : string) : Z :=
  fold_left (λ hash c, (Z.lxor hash (byte_val c) * prime32) mod 2 ^ 32)
            (list_ascii_of_string key) offset32.

(** [GetTargetForScoring]; [None] is the run-time panic of [% 0]. *)
Definition GetTargetForScoring (s : t) (key : string) : option EndpointItem :=
  let members := GetMembers s in
  if Nat.eqb (length members) 1 then members !! 0%nat
  else
    let members := sortMembers s members in
    let n := uint32 (Z.of_nat (length members)) in
    if n =? 0 then None
    else
      let hashValue := fnv1_32 key mod n in
      members !! Z.to_nat hashValue.

(** [sort.Search(n, f)]: binary search for the least index in [0, n) at
    which [f] holds ([n] when there is none), as the Go library writes it. *)
Fixpoint search_loop (fuel : nat) (f : Z → bool) (i j : Z) : Z :=
  match fuel with
  | O => i
  | S fuel' =>
      if i <? j then
        let h := Z.shiftr (i + j) 1 in
        if negb (f h) then search_loop fuel' f (h + 1) j
        else search_loop fuel' f i h
      else i
  end.

Definition Search (n : Z) (f : Z → bool) : Z :=
  search_loop (S (Z.to_nat n)) f 0 n.

(** [members[start:end]]. *)
Definition slice (members : list EndpointItem) (start end_ : Z)
  : list EndpointItem :=
  take (Z.to_nat (end_ - start)) (drop (Z.to_nat start) members).

(** The tail of [GetSubMembers] once this peer's [index] is known:
    [start := index*10 + 1], [end := start + int(s.fanOut)] capped at
    [len(members)]. *)
Definition subMembersAt (fan : Z) (members : list EndpointItem) (index : Z)
  : list EndpointItem :=
  let start := index * 10 + 1 in
  if start >=? Z.of_nat (length members) then []
  else
    let end_ := start + fan in
    let end_ := if end_ >? Z.of_nat (length members)
                then Z.of_nat (length members) else end_ in
    slice members start end_.

(** This peer's position: 0 for the leader, otherwise a binary search in
    [members[1:]]. *)
Definition selfIndex (s : t) (members : list EndpointItem) : Z :=
  if String.eqb (leader s) (podName s) then 0
  else
    Search (Z.of_nat (length members) - 1)
      (λ i, match members !! Z.to_nat (i + 1) with
            | Some m => podNameSort (leader s) (PodName m) (podName s) >=? 0
            | None => false
            end) + 1.

Definition set_cache (s : t) (sub : list EndpointItem) : t :=
  {| endpointSliceCache := endpointSliceCache s; podName := podName s;
     fanOut := fanOut s; subMembersCache := sub; leader := leader s;
     dirty := false; allowSolo := allowSolo s |}.

(** [GetSubMembers]: the cached list unless the dirty flag is set. *)
Definition GetSubMembers (s : t) : list EndpointItem * t :=
  if negb (dirty s) then (subMembersCache s, s)
  else
    let members := cache_GetMembers (endpointSliceCache s) in
    if (length members <=? 1)%nat then ([], set_cache s [])
    else
      let members := sortMembers s members in
      let sub := subMembersAt (fanOut s) members (selfIndex s members) in
      (sub, set_cache s sub).

Definition SetLeader (s : t) (ldr : string) : t :=
  {| endpointSliceCache := endpointSliceCache s; podName := podName s;
     fanOut := fanOut s; subMembersCache := subMembersCache s; leader := ldr;
     dirty := true; allowSolo := allowSolo s |}.

(** [NewSchedulerSet], given the synced cache. *)
Definition NewSchedulerSet (esc : gmap string (list EndpointItem))
           (name : string) (fan : Z) (solo : bool) : t :=
  {| endpointSliceCache := esc; podName := name; fanOut := fan;
     subMembersCache := []; leader := ""; dirty := true; allowSolo := solo |}.

(** The scheduler set of the peer [name], as the program builds it
    (fan-out 10), after the election of [ldr]. *)
Definition peerSet (esc : gmap string (list EndpointItem)) (ldr : string)
           (solo : bool) (name : string) : t :=
  SetLeader (NewSchedulerSet esc name 10 solo) ldr.

End SchedulerSet.

(* ===================================================================== *)
(** ** pkg/scoreevaluator and the CollectScore handler                    *)
(* ===================================================================== *)

Module ScoreEvaluator.

Record Score := mkScore {
  NodeName : string;
  ScoreVal : Z                        (* field [Score] of the Go struct *)
}.

#[global] Instance Score_eq_dec : EqDecision Score.
Proof. solve_decision. Defined.

(** [oneEvaluator].  The condition variable is represented by the callers
    blocked in [cond.Wait] (each with the score it reported); [evKey] is the
    key captured by the deadline goroutine and [ticked] records that this
    goroutine has run. *)
Record oneEvaluator := mkEval {
  evKey : string;
  limit : Z;                          (* uint32 *)
  scores : list Score;
  highestScore : Score;
  waiters : list Score;
  ticked : bool
}.

(** A [RecordAndWait] call between its two critical sections: it holds
    the pointer [o] it read from the table. *)
Record Call := mkCall {
  callEval : nat;
  callKey : string;
  callScore : Score
}.

(** One answered [CollectScore] call: the evaluator that served it, the
    score the caller reported and the score [RecordAndWait] returned. *)
Record Reply := mkReply {
  reqKey : string;
  evalId : nat;
  reported : Score;
  returned : Score
}.

(** [ScheduleResponse.Permit] as [CollectScore] computes it. *)
Definition permit (r : Reply) : bool :=
  String.eqb (NodeName (returned r)) (NodeName (reported r)).

(** [ScoreEvaluator]: the table [evaluators] maps a key to a pointer (an
    index into [heap]); [pending] are the calls between their critical
    sections and [replies] logs the answers sent so far. *)
Record t := mkState {
  schedulerSet : SchedulerSet.t;
  evaluators : gmap string nat;
  heap : list oneEvaluator;
  pending : list Call;
  replies : list Reply
}.

Definition New (ss : SchedulerSet.t) : t :=
  {| schedulerSet := ss; evaluators := ∅; heap := []; pending := [];
     replies := [] |}.

Definition startOneEvaluator (key : string) (e : t) : oneEvaluator :=
  {| evKey := key;
     limit := SchedulerSet.GetMemberCountNoRelays (schedulerSet e);
     scores := [];
     highestScore := {| NodeName := ""; ScoreVal := -1 |};
     waiters := [];
     ticked := false |}.

(** The selection loop of [fire]: the running maximum (from -1) and the
    scores that tie for it, at most 100 of them. *)
Definition pick_step (acc : Z * list Score) (sc : Score) : Z * list Score :=
  let '(maxScore, candidates) := acc in
  if ScoreVal sc >? maxScore then (ScoreVal sc, [sc])
  else if ScoreVal sc =? maxScore then
    (maxScore, if (length candidates <? 100)%nat
               then candidates ++ [sc] else candidates)
  else (maxScore, candidates).

Definition pick (scs : list Score) : Z * list Score :=
  fold_left pick_step scs (-1, []).

Definition candidates_of (scs : list Score) : list Score := (pick scs).2.

(** [rand.Intn(n)] on the raw draw [r]: panics unless [n > 0]. *)
Definition Intn (n : Z) (r : Z) : option Z :=
  if n <=? 0 then None else Some (r mod n).

Definition set_heap (e : t) (h : list oneEvaluator) : t :=
  {| schedulerSet := schedulerSet e; evaluators := evaluators e;
     heap := h; pending := pending e; replies := replies e |}.

Definition set_pending (e : t) (p : list Call) : t :=
  {| schedulerSet := schedulerSet e; evaluators := evaluators e;
     heap := heap e; pending := p; replies := replies e |}.

Definition add_reply (e : t) (rp : Reply) : t :=
  {| schedulerSet := schedulerSet e; evaluators := evaluators e;
     heap := heap e; pending := pending e; replies := replies e ++ [rp] |}.

(** The state [fire] leaves when it selects [w] for evaluator [id]: the
    winner is stored, the table entry of [key] is deleted, and every
    waiter wakes up and returns the winner to its caller. *)
Definition fired (e : t) (id : nat) (o : oneEvaluator) (key : string)
           (w : Score) : t :=
  {| schedulerSet := schedulerSet e;
     evaluators := delete key (evaluators e);
     heap := <[id := {| evKey := evKey o; limit := limit o; scores := scores o;
                        highestScore := w; waiters := [];
                        ticked := ticked o |}]> (heap e);
     pending := pending e;
     replies := replies e ++
                ((λ sc, {| reqKey := evKey o; evalId := id;
                           reported := sc; returned := w |})
                   <$> waiters o) |}.

(** [oneEvaluator.fire]: nothing when a winner is already set; otherwise
    the winner is [candidates[rand.Intn(len(candidates))]]. *)
Definition fire (e : t) (id : nat) (key : string) (r : Z) : option t :=
  o ← heap e !! id;
  if negb (ScoreVal (highestScore o) =? -1) then Some e
  else
    let candidates := candidates_of (scores o) in
    i ← Intn (Z.of_nat (length candidates)) r;
    w ← candidates !! Z.to_nat i;
    Some (fired e id o key w).

(** First critical section of [RecordAndWait] (under the table lock):
    look the evaluator up, or start one and enter it in the table. *)
Definition getOrCreate (e : t) (key : string) : nat * t :=
  match evaluators e !! key with
  | Some id => (id, e)
  | None =>
      let id := length (heap e) in
      (id, {| schedulerSet := schedulerSet e;
              evaluators := <[key := id]> (evaluators e);
              heap := heap e ++ [startOneEvaluator key e];
              pending := pending e;
              replies := replies e |})
  end.

(** Second critical section (under the evaluator's lock): append the
    score; with [limit] scores fire and return the winner, otherwise wait. *)
Definition recordScore (e1 : t) (id : nat) (key : string) (score : Score)
           (r : Z) : option t :=
  o ← heap e1 !! id;
  let scores' := scores o ++ [score] in
  if Z.of_nat (length scores') >=? limit o then
    let o1 := {| evKey := evKey o; limit := limit o; scores := scores';
                 highestScore := highestScore o; waiters := waiters o;
                 ticked := ticked o |} in
    e2 ← fire (set_heap e1 (<[id := o1]> (heap e1))) id key r;
    o2 ← heap e2 !! id;
    Some (add_reply e2 {| reqKey := key; evalId := id; reported := score;
                          returned := highestScore o2 |})
  else
    let o1 := {| evKey := evKey o; limit := limit o; scores := scores';
                 highestScore := highestScore o;
                 waiters := waiters o ++ [score]; ticked := ticked o |} in
    Some (set_heap e1 (<[id := o1]> (heap e1))).

(** [RecordAndWait], both critical sections back to back, up to its
    return or up to [cond.Wait]. *)
Definition RecordAndWait (e : t) (key : string) (score : Score) (r : Z)
  : option t :=
  let '(id, e1) := getOrCreate e key in
  recordScore e1 id key score r.

(** What can happen at the aggregator.  A [CollectScore] call (fields of
    [SchedulingScore], the score an int32) either runs [RecordAndWait]
    without interruption, or it is split: [Arrive] runs the first critical
    section and [Resume] lets the [k]-th call in between run the second.
    [Deadline] is the ticker of evaluator [id] firing.  [r] is the draw
    [rand.Intn] would use. *)
Inductive event :=
| CollectScore (namespace podName nodeName : string) (score : Z) (r : Z)
| Arrive (namespace podName nodeName : string) (score : Z)
| Resume (k : nat) (r : Z)
| Deadline (id : nat) (r : Z).

Definition podKey (namespace podName : string) : string :=
  String.append namespace (String.append "/" podName).

Definition step (e : t) (ev : event) : option t :=
  match ev with
  | CollectScore ns pod node sc r =>
      RecordAndWait e (podKey ns pod) {| NodeName := node; ScoreVal := sc |} r
  | Arrive ns pod node sc =>
      let '(id, e1) := getOrCreate e (podKey ns pod) in
      Some (set_pending e1
              (pending e1 ++ [ {| callEval := id; callKey := podKey ns pod;
                                  callScore := {| NodeName := node;
                                                  ScoreVal := sc |} |} ]))
  | Resume k r =>
      match pending e !! k with
      | None => Some e
      | Some c =>
          recordScore (set_pending e (delete k (pending e)))
                      (callEval c) (callKey c) (callScore c) r
      end
  | Deadline id r =>
      match heap e !! id with
      | None => Some e
      | Some o =>
          if ticked o then Some e
          else
            let o1 := {| evKey := evKey o; limit := limit o;
                         scores := scores o; highestScore := highestScore o;
                         waiters := waiters o; ticked := true |} in
            fire (set_heap e (<[id := o1]> (heap e))) id (evKey o) r
      end
  end.

Fixpoint run (e : t) (evs : list event) : option t :=
  match evs with
  | [] => Some e
  | ev :: evs' => e' ← step e ev; run e' evs'
  end.

(** The score a call reports is not negative (schedulers send the total
    plugin score of a node, or 0 after a failure). *)
Definition nonneg_score (ev : event) : Prop :=
  match ev with
  | CollectScore _ _ _ sc _ | Arrive _ _ _ sc => 0 ≤ sc
  | Resume _ _ | Deadline _ _ => True
  end.

(** The replies for one key that carry [permit = true]. *)
Definition permitted (key : string) (e : t) : list Reply :=
  filter (λ r, reqKey r = key ∧ permit r = true) (replies e).

(** Invariant of the selection loop over the scores seen so far: the
    maximum starts at -1 and only grows, every candidate is a seen score
    at the maximum, no seen score is above it, and a candidate exists as
    soon as the maximum moved or a score of at least -1 was seen. *)
Definition pick_inv (seen : list Score) (acc : Z * list Score) : Prop :=
  -1 ≤ acc.1
  ∧ (∀ c, c ∈ acc.2 → c ∈ seen ∧ ScoreVal c = acc.1)
  ∧ (∀ sc, sc ∈ seen → ScoreVal sc ≤ acc.1)
  ∧ (-1 < acc.1 ∨ (∃ sc, sc ∈ seen ∧ -1 ≤ ScoreVal sc) → acc.2 ≠ []).

(** Invariant of the aggregator state under non-negative scores.  A table
    entry points to a live evaluator of that key; recorded scores are not
    negative and a stored winner is either the initial -1 or not negative;
    a call in between holds a live evaluator of its key; an answered call
    carries the winner stored in its evaluator, which has fired. *)
Definition wf (e : t) : Prop :=
  (∀ k id, evaluators e !! k = Some id →
           ∃ o, heap e !! id = Some o ∧ evKey o = k)
  ∧ (∀ id o, heap e !! id = Some o →
             (∀ sc, sc ∈ scores o → 0 ≤ ScoreVal sc)
             ∧ (ScoreVal (highestScore o) = -1
                ∨ 0 ≤ ScoreVal (highestScore o)))
  ∧ (∀ c, c ∈ pending e →
          ∃ o, heap e !! callEval c = Some o ∧ evKey o = callKey c
               ∧ 0 ≤ ScoreVal (callScore c))
  ∧ (∀ r, r ∈ replies e →
          ∃ o, heap e !! evalId r = Some o ∧ evKey o = reqKey r
               ∧ returned r = highestScore o
               ∧ 0 ≤ ScoreVal (highestScore o)).

End ScoreEvaluator.

(* ===================================================================== *)
(** ** pkg/util: the count-down latch                                     *)
(* ===================================================================== *)

Module Latch.

(** Go's [float64] is IEEE 754 binary64, here the executable
    specification floats of the standard library. *)
Definition prec : Z := 53.
Definition emax : Z := 1024.

(** [float64(n)] for an [int]. *)
Definition of_int (n : Z) : spec_float := binary_normalize prec emax n 0 false.

(** The exact value of a finite float, as a rational. *)
Definition to_Q (x : spec_float) : Q :=
  match x with
  | S754_finite s m e =>
      let a := if e >=? 0 then inject_Z (Zpos m * 2 ^ e)
               else Qmake (Zpos m) (Z.to_pos (2 ^ (- e))) in
      if s then Qopp a else a
  | _ => 0%Q
  end.

(** [int(x)] for a [float64]: the fraction is discarded (truncation
    towards zero).  Not-a-number and the infinities have no defined
    result in Go; they are mapped to 0 here. *)
Definition to_int (x : spec_float) : Z :=
  match x with
  | S754_finite s m e =>
      let a := if e >=? 0 then Zpos m * 2 ^ e else Zpos m / 2 ^ (- e) in
      if s then - a else a
  | _ => 0
  end.

(** The constant [0.999999]: the binary64 value nearest to 999999/10^6. *)
Definition c0_999999 : spec_float :=
  SFdiv prec emax (of_int 999999) (of_int 1000000).

(** The two implementations of the [CountDownLatch] interface, each
    reduced to its counter. *)
Inductive CountDownLatch :=
| AsWaitGroup (counter : Z)           (* sync.WaitGroup *)
| AsMutex (count : Z).

(** [NewCountDownLatch(n, ratio)]; [wg.Add(n)] panics on a negative
    counter. *)
Definition NewCountDownLatch (n : Z) (ratio : spec_float)
  : option CountDownLatch :=
  if SFltb c0_999999 ratio then
    if n <? 0 then None else Some (AsWaitGroup n)
  else
    Some (AsMutex (to_int (SFmul prec emax (of_int n) ratio))).

(** [Done()]; a wait group panics when its counter would drop below 0. *)
Definition Done (c : CountDownLatch) : option CountDownLatch :=
  match c with
  | AsWaitGroup k => if k - 1 <? 0 then None else Some (AsWaitGroup (k - 1))
  | AsMutex k => Some (AsMutex (k - 1))
  end.

(** [Wait()] returns (rather than blocks) in this state. *)
Definition Wait_returns (c : CountDownLatch) : bool :=
  match c with
  | AsWaitGroup k => k =? 0
  | AsMutex k => k <=? 0
  end.

(** [k] calls of [Done()] in a row. *)
Fixpoint Done_times (k : nat) (c : CountDownLatch) : option CountDownLatch :=
  match k with
  | O => Some c
  | S k' => c' ← Done c; Done_times k' c'
  end.

(** The latch has fired after [k] calls of [Done()]. *)
Definition fired_after (k : nat) (c : CountDownLatch) : bool :=
  match Done_times k c with
  | Some c' => Wait_returns c'
  | None => false
  end.

(** The sign bit of a float (false for not-a-number). *)
Definition sign_bit (x : spec_float) : bool :=
  match x with
  | S754_zero s | S754_infinity s | S754_finite s _ _ => s
  | S754_nan => false
  end.

End Latch.

(* ===================================================================== *)
(** ** pkg/distpermit: SendScore                                          *)
(* ===================================================================== *)

Module DistPermit.

Import SchedulerSet.

(** A [*grpc.ClientConn], identified by the address it was created for. *)
Record ClientConn := mkConn { connTarget : string }.

Record SchedulingScore := mkSchedulingScore {
  reqPodName : string;
  reqNamespace : string;
  reqNodeName : string;
  reqScore : Z                         (* int32 *)
}.

(** What the network does: [grpc.NewClient] and a [CollectScore] call
    either fail or yield a connection, respectively a response. *)
Record Net := mkNet {
  NewClient : string → option ClientConn;
  CollectScore : ClientConn → SchedulingScore → option bool
}.

(** The two ways [SendScore] issues the call. *)
Inductive call :=
| Spawned (c : ClientConn) (req : SchedulingScore)   (* go client.CollectScore *)
| Awaited (c : ClientConn) (req : SchedulingScore).

Fixpoint contains_colon (s : string) : bool :=
  match s with
  | EmptyString => false
  | String c s' => Ascii.eqb c ":"%char || contains_colon s'
  end.

(** [util.GRPCAddress]. *)
Definition GRPCAddress (addr port : string) : string :=
  let addr := if contains_colon addr
              then String.append "[" (String.append addr "]") else addr in
  String.append addr (String.append ":" port).

(** Conversion of an [int64] to [int32]. *)
Definition int32 (z : Z) : Z := (z + 2 ^ 31) mod 2 ^ 32 - 2 ^ 31.

(** The package-level state: the mutex [clientCacheLock] (true when
    held) and the connection cache it guards. *)
Record State := mkState {
  clientCacheLock : bool;
  clientCache : gmap string ClientConn
}.

(** How a call of [SendScore] ends: it waits for the mutex, or it returns
    a permit, leaving a state and the calls it issued. *)
Inductive Outcome :=
| Blocked
| Returned (permit : bool) (st' : State) (calls : list call).

(** [SendScore]; [None] is the panic of [target.Addresses[0]] on an
    endpoint without address.  The early return after a failed
    [grpc.NewClient] leaves the mutex locked. *)
Definition SendScore (net : Net) (st : State)
           (target : EndpointItem) (podName namespace nodeName : string)
           (score : Z) : option Outcome :=
  a ← Addresses target !! 0%nat;
  let addr := GRPCAddress a "50051" in
  if clientCacheLock st then Some Blocked
  else
    let connect :=
      match clientCache st !! addr with
      | Some conn => Some (conn, clientCache st)
      | None =>
          match NewClient net addr with
          | None => None
          | Some conn => Some (conn, <[addr := conn]> (clientCache st))
          end
      end in
    match connect with
    | None =>
        Some (Returned false
                {| clientCacheLock := true; clientCache := clientCache st |} [])
    | Some (conn, cache) =>
        let st' := {| clientCacheLock := false; clientCache := cache |} in
        let request := {| reqPodName := podName; reqNamespace := namespace;
                          reqNodeName := nodeName; reqScore := int32 score |} in
        if score =? 0 then Some (Returned false st' [Spawned conn request])
        else
          match CollectScore net conn request with
          | None => Some (Returned false st' [Awaited conn request])
          | Some p => Some (Returned p st' [Awaited conn request])
          end
    end.

(** The connection [SendScore] ends up with, if any. *)
Definition connection (net : Net) (st : State) (addr : string)
  : option ClientConn :=
  match clientCache st !! addr with
  | Some conn => Some conn
  | None => NewClient net addr
  end.

Definition is_awaited (c : call) : bool :=
  match c with Awaited _ _ => true | Spawned _ _ => false end.

End DistPermit.

(* ===================================================================== *)
(** ** The node partitioner: updateNodeLabels                             *)
(* ===================================================================== *)

Module Partitioner.

Import SchedulerSet.

(** A node as the informer keeps it: its name and the value of the
    scheduler-group label, if the label is present. *)
Record Node := mkNode {
  nodeName : string;
  groupLabel : option string
}.

(** [math.Ceil] on a binary64. *)
Definition Ceil (x : spec_float) : spec_float :=
  match x with
  | S754_finite s m e =>
      if e >=? 0 then x
      else
        let q := Zpos m / 2 ^ (- e) in
        let exact := Zpos m mod 2 ^ (- e) =? 0 in
        let z := if s then - q else if exact then q else q + 1 in
        Latch.of_int z
  | _ => x
  end.

(** [int(math.Ceil(float64(n) / float64(g)))], as the source computes it. *)
Definition desired_float64 (n g : Z) : Z :=
  Latch.to_int
    (Ceil (SFdiv Latch.prec Latch.emax (Latch.of_int n) (Latch.of_int g))).

(** The same number in integer arithmetic.  For counts below 2^53 the
    rounded quotient cannot fall onto a smaller integer, so both agree
    ([desired_float64_agrees] below checks a range of inputs); the
    development works with this form. *)
Definition desiredNodeCount (n g : Z) : Z := (n + g - 1) / g.

(** [schedulers]: the members without the relay pods. *)
Definition schedulersOf (members : list EndpointItem) : list EndpointItem :=
  filter (λ m, GoStr.HasPrefix (PodName m) RelayPrefix = false) members.

(** [nodeCountPerGroup] with every scheduler at 0. *)
Definition initCounts (schedulers : list EndpointItem) : gmap string Z :=
  fold_left (λ counts m, <[PodName m := 0]> counts) schedulers ∅.

(** First loop: a node stays where it is when its label names a known
    group that is not yet full; otherwise it goes to [toMove]. *)
Definition keep_step (desired : Z) (acc : gmap string Z * list Node) (n : Node)
  : gmap string Z * list Node :=
  let '(counts, toMove) := acc in
  match groupLabel n with
  | Some currentGroup =>
      match counts !! currentGroup with
      | Some count =>
          if count <? desired
          then (<[currentGroup := count + 1]> counts, toMove)
          else (counts, toMove ++ [n])
      | None => (counts, toMove ++ [n])
      end
  | None => (counts, toMove ++ [n])
  end.

Definition firstPass (desired : Z) (counts : gmap string Z)
           (nodeList : list Node) : gmap string Z * list Node :=
  fold_left (keep_step desired) nodeList (counts, []).

(** [shortGroups]: the groups below [desired], in the order in which the
    [range] over the map visits them ([rangeOrder]; Go leaves it open). *)
Definition isShort (desired : Z) (counts : gmap string Z) (group : string)
  : bool :=
  match counts !! group with
  | Some count => count <? desired
  | None => false
  end.

Definition shortGroupsOf (desired : Z) (counts : gmap string Z)
           (rangeOrder : list string) : list string :=
  filter (λ group, isShort desired counts group = true) rangeOrder.

(** A label patch: node name and the partition it is moved to. *)
Definition Patch : Type := string * string.

(** Second loop, from position [i] of [toMove] on.  [i % len(shortGroups)]
    panics when no short group is left. *)
Fixpoint secondPass (desired : Z) (i : nat) (toMove : list Node)
         (counts : gmap string Z) (shortGroups : list string)
         (patches : list Patch)
  : option (gmap string Z * list string * list Patch) :=
  match toMove with
  | [] => Some (counts, shortGroups, patches)
  | node :: rest =>
      if Nat.eqb (length shortGroups) 0 then None
      else
        let j := (i mod length shortGroups)%nat in
        desiredPartition ← shortGroups !! j;
        let count := default 0 (counts !! desiredPartition) + 1 in
        let counts := <[desiredPartition := count]> counts in
        let shortGroups :=
          if count >=? desired then delete j shortGroups else shortGroups in
        let currentPartition := default "" (groupLabel node) in
        let patches :=
          if String.eqb currentPartition desiredPartition then patches
          else patches ++ [(nodeName node, desiredPartition)] in
        secondPass desired (S i) rest counts shortGroups patches
  end.

Record Result := mkResult {
  nodeCountPerGroup : gmap string Z;
  toMove : list Node;
  patches : list Patch
}.

(** [updateNodeLabels] on the members of the scheduler set and the node
    list of the informer, up to the label patches it issues. *)
Definition updateNodeLabels (members : list EndpointItem)
           (rangeOrder : list string) (nodeList : list Node)
  : option Result :=
  let schedulers := schedulersOf members in
  let counts := initCounts schedulers in
  if Nat.eqb (length schedulers) 0 then
    Some {| nodeCountPerGroup := counts; toMove := []; patches := [] |}
  else
    let desired := desiredNodeCount (Z.of_nat (length nodeList))
                                    (Z.of_nat (length schedulers)) in
    let '(counts, toMove) := firstPass desired counts nodeList in
    if Nat.eqb (length toMove) 0 then
      Some {| nodeCountPerGroup := counts; toMove := []; patches := [] |}
    else
      let shortGroups := shortGroupsOf desired counts rangeOrder in
      if Nat.eqb (length shortGroups) 0 then
        Some {| nodeCountPerGroup := counts; toMove := toMove; patches := [] |}
      else
        '(counts, _, patches) ← secondPass desired 0 toMove counts shortGroups [];
        Some {| nodeCountPerGroup := counts; toMove := toMove;
                patches := patches |}.

(** Number of nodes whose label names [group]. *)
Definition groupSize (nodeList : list Node) (group : string) : Z :=
  Z.of_nat (length (filter (λ n, groupLabel n = Some group) nodeList)).

(** The count of [group], 0 when the map has no entry. *)
Definition countOf (counts : gmap string Z) (group : string) : Z :=
  default 0 (counts !! group).

(** Sum of the counts of the listed groups. *)
Definition totalCount (counts : gmap string Z) (groups : list string) : Z :=
  foldr (λ group acc, countOf counts group + acc) 0 groups.

(** The node list once the patches have been applied by the API server. *)
Definition applyPatches (ps : list Patch) (nodeList : list Node) : list Node :=
  (λ n, match list_find (λ p, p.1 = nodeName n) ps with
        | Some (_, p) => {| nodeName := nodeName n; groupLabel := Some p.2 |}
        | None => n
        end) <$> nodeList.

(** The groups a count map knows are exactly the listed scheduler names,
    and no count is negative or above [desired]. *)
Definition counts_ok (names : list string) (desired : Z)
           (counts : gmap string Z) : Prop :=
  (∀ g, is_Some (counts !! g) ↔ g ∈ names)
  ∧ (∀ g, 0 ≤ countOf counts g ≤ desired).

End Partitioner.

(* ===================================================================== *)
(** ** scheduler_metrics.go: the index allocator of the receive side      *)
(* ===================================================================== *)

Module ConcurrentCounter.

(** [concurrentCounter]: the number of indexes created so far and the free
    list (the mutex serialises the two methods). *)
Record t := mkCounter {
  total : Z;
  free : list Z
}.

(** [var cc concurrentCounter]: the zero value. *)
Definition zero : t := {| total := 0; free := [] |}.

(** [Get]: the last entry of the free list if there is one, otherwise a
    new index. *)
Definition Get (c : t) : Z * t :=
  if (0 <? length (free c))%nat then
    match free c !! (length (free c) - 1)%nat with
    | Some idx =>
        (idx, {| total := total c;
                 free := take (length (free c) - 1) (free c) |})
    | None => (0, c)                   (* not reached: the index is in range *)
    end
  else
    let total' := total c + 1 in
    (total' - 1, {| total := total'; free := free c |}).

(** The comparison [Free] searches with: it orders the list descending. *)
Definition descending (a b : Z) : Z :=
  if a >? b then -1 else if a <? b then 1 else 0.

(** [slices.BinarySearchFunc(x, target, cmp)], the position it returns:
    the loop is that of [sort.Search] with the test [cmp(x[h], target) >= 0]. *)
Definition BinarySearchFunc (x : list Z) (target : Z) (cmp : Z → Z → Z) : Z :=
  SchedulerSet.Search (Z.of_nat (length x))
    (λ h, match x !! Z.to_nat h with
          | Some e => negb (cmp e target <? 0)
          | None => false
          end).

(** [slices.Insert(s, i, v)]; it panics when [i] is out of range. *)
Definition Insert (s : list Z) (i : Z) (v : Z) : option (list Z) :=
  if (i <? 0) || (Z.of_nat (length s) <? i) then None
  else Some (take (Z.to_nat i) s ++ v :: drop (Z.to_nat i) s).

(** [Free]. *)
Definition Free (c : t) (idx : Z) : option t :=
  let pos := BinarySearchFunc (free c) idx descending in
  free' ← Insert (free c) pos idx;
  Some {| total := total c; free := free' |}.

(** The configurations the callers can bring about: [held] are the
    indexes handed out and not yet given back.  [UnmarshalPodRaw] is the
    only caller: [idx := cc.Get()] and [defer cc.Free(idx)], so an index
    is freed once, by its holder. *)
Inductive reach : t → list Z → Prop :=
| reach_zero : reach zero []
| reach_Get c held :
    reach c held → reach (Get c).2 ((Get c).1 :: held)
| reach_Free c held idx c' :
    reach c held → idx ∈ held → Free c idx = Some c' →
    reach c' (filter (λ j, j ≠ idx) held).

(** What holds in every such configuration: the free list is strictly
    descending, free and held indexes are apart and together they are the
    indexes below [total]. *)
Definition inv (c : t) (held : list Z) : Prop :=
  0 ≤ total c
  ∧ StronglySorted Z.gt (free c)
  ∧ (∀ j, j ∈ free c ∨ j ∈ held ↔ 0 ≤ j < total c)
  ∧ (∀ j, j ∈ free c → j ∉ held)
  ∧ NoDup held.

End ConcurrentCounter.

(* ===================================================================== *)
(** ** pkg/util: the blocking stack of idle schedulers                    *)
(* ===================================================================== *)

Module Stack.

Section WithItem.
Context {T : Type}.

(** [Stack[T]], reduced to [items]; mutex and condition variable make
    every method atomic. *)
Definition t : Type := list T.

(** [NewStack(items)]: a copy of [items]. *)
Definition NewStack (items : list T) : t := items.

Definition Push (s : t) (item : T) : t := s ++ [item].

(** [Pop]: [None] while the stack is empty (the caller waits for a
    [Push]); otherwise the last item and the stack without it. *)
Definition Pop (s : t) : option (T * t) :=
  if Nat.eqb (length s) 0 then None
  else
    let lastIdx := (length s - 1)%nat in
    item ← s !! lastIdx;
    Some (item, take lastIdx s).

Definition Len (s : t) : Z := Z.of_nat (length s).

(** The way [ProcessOne] uses the stack of schedulers: a cycle pops a
    scheduler and pushes the same one back when it is done.  [held] are the
    schedulers of the cycles under way. *)
Inductive reach (items : list T) : t → list T → Prop :=
| reach_new : reach items (NewStack items) []
| reach_Pop s held x s' :
    reach items s held → Pop s = Some (x, s') → reach items s' (x :: held)
| reach_Push s h1 x h2 :
    reach items s (h1 ++ x :: h2) → reach items (Push s x) (h1 ++ h2).

End WithItem.

End Stack.

(* ===================================================================== *)
(** ** Further invariants of the score evaluator                          *)
(* ===================================================================== *)

Module ScoreEvaluatorInv.

Import ScoreEvaluator.

(** An evaluator that has not fired keeps every caller that appended a
    score waiting; one that has fired has answered (among the replies
    [rs]) the caller whose score it selected, with that score. *)
Definition answered (rs : list Reply) (id : nat) (o : oneEvaluator) : Prop :=
  (ScoreVal (highestScore o) = -1 → waiters o = scores o)
  ∧ (ScoreVal (highestScore o) ≠ -1 →
     ∃ rp, rp ∈ rs ∧ evalId rp = id
           ∧ reported rp = highestScore o ∧ returned rp = highestScore o).

Definition winner_inv (e : t) : Prop :=
  ∀ id o, heap e !! id = Some o → answered (replies e) id o.

(** The callers blocked in [cond.Wait], over all evaluators. *)
Definition waiting (e : t) : nat :=
  sum_list_with (λ o, length (waiters o)) (heap e).

(** The events that are the arrival of a [CollectScore] call. *)
Definition is_call (ev : event) : bool :=
  match ev with
  | CollectScore _ _ _ _ _ | Arrive _ _ _ _ => true
  | Resume _ _ | Deadline _ _ => false
  end.

Definition calls (evs : list event) : nat :=
  length (filter (λ ev, is_call ev = true) evs).

(** Where the calls that have arrived are: answered, blocked in an
    evaluator, or between the two critical sections. *)
Definition accounted (e : t) : nat :=
  (length (replies e) + waiting e + length (pending e))%nat.

(** A run of whole calls: every [CollectScore] call runs its two critical
    sections without another event in between. *)
Definition atomic (ev : event) : Prop :=
  match ev with
  | CollectScore _ _ _ _ _ | Deadline _ _ => True
  | Arrive _ _ _ _ | Resume _ _ => False
  end.

(** An evaluator between two events of such a run: its scores are not
    negative; while it has not fired it holds a score and its deadline has
    not passed; once it has fired nobody waits on it. *)
Definition settled (o : oneEvaluator) : Prop :=
  (∀ sc, sc ∈ scores o → 0 ≤ ScoreVal sc)
  ∧ (ScoreVal (highestScore o) = -1 → scores o ≠ [] ∧ ticked o = false)
  ∧ (ScoreVal (highestScore o) ≠ -1 → waiters o = []).

(** The table points to evaluators that have not fired. *)
Definition table_unfired (e : t) : Prop :=
  ∀ k id, evaluators e !! k = Some id →
    ∃ o, heap e !! id = Some o ∧ evKey o = k
         ∧ ScoreVal (highestScore o) = -1.

Definition atomic_inv (e : t) : Prop :=
  pending e = []
  ∧ table_unfired e
  ∧ (∀ id o, heap e !! id = Some o → settled o).

(** The reports of the schedulers for one pod: node, score and the draw
    [rand.Intn] would use, each a whole [CollectScore] call. *)
Definition Report : Type := string * Z * Z.

Definition scoreOf (rep : Report) : Score :=
  {| NodeName := rep.1.1; ScoreVal := rep.1.2 |}.

Definition reportEvents (namespace podName : string) (reports : list Report)
  : list event :=
  (λ rep, CollectScore namespace podName rep.1.1 rep.1.2 rep.2) <$> reports.

End ScoreEvaluatorInv.

(* ===================================================================== *)
(** ** The node-creation tool: createNode                                 *)
(* ===================================================================== *)

Module NodeTool.

Import Partitioner.






End NodeTool.

(* ===================================================================== *)
(** ** pkg/distpermit: the Permit plugin                                  *)
(* ===================================================================== *)

Module PermitPlugin.

Import SchedulerSet DistPermit.

(** [framework.Status], as far as [Permit] sets it. *)
Inductive Code := Success | Error | Unschedulable.

Record Status := mkStatus {
  code : Code;
  reason : string;
  plugin : string
}.

(** An entry of [NodePluginScoresState.NodePluginScores]. *)
Record NodePluginScore := mkNodePluginScore {
  Name : string;
  TotalScore : Z                       (* int64 *)
}.

(** How [Permit] ends: inside [SendScore] waiting for the mutex, or with
    a status, the state of the connection cache, the calls issued and
    whether [schedulerDoneChan] was signalled. *)
Inductive Outcome :=
| Blocked
| Returned (status : Status) (st' : State) (calls : list call)
           (signalled : bool).

Definition rejected (st' : State) (calls : list call) : Outcome :=
  Returned {| code := Unschedulable; reason := "Rejected by CollectScore";
              plugin := "DistPermit" |} st' calls true.

(** [distPermit.Permit].  [nodePluginScores] is [None] when [state.Read]
    fails; the outer [None] is a panic ([GetTargetForScoring] on an empty
    set, [SendScore] on a target without address). *)
Definition Permit (net : Net) (st : State) (alwaysDeny : bool)
           (schedulerSet : SchedulerSet.t)
           (nodePluginScores : option (list NodePluginScore))
           (podName namespace nodeName : string) : option Outcome :=
  if alwaysDeny then
    Some (Returned {| code := Unschedulable; reason := "Always deny";
                      plugin := "" |} st [] false)
  else
    match nodePluginScores with
    | None =>
        Some (Returned {| code := Error;
                          reason := "Failed to read node plugin scores";
                          plugin := "" |} st [] false)
    | Some scores =>
        target ← GetTargetForScoring schedulerSet
                   (ScoreEvaluator.podKey namespace podName);
        match list_find (λ s, Name s = nodeName) scores with
        | None => Some (rejected st [])
        | Some (_, nodePluginScore) =>
            out ← SendScore net st target podName namespace nodeName
                    (TotalScore nodePluginScore);
            match out with
            | DistPermit.Blocked => Some Blocked
            | DistPermit.Returned permit st' calls =>
                if permit then
                  Some (Returned {| code := Success; reason := "DistPermit";
                                    plugin := "" |} st' calls true)
                else Some (rejected st' calls)
            end
        end
    end.

End PermitPlugin.

(* ===================================================================== *)
(** ** scheduler.go: the failure handler                                  *)
(* ===================================================================== *)

Module FailureHandler.

Import SchedulerSet DistPermit.

(** The [framework.Status] a failed cycle ends with, as far as
    [podScheduleFailure] inspects it: [Plugin()], and [AsError()], which is
    nil, a [*framework.FitError] with its [UnschedulablePlugins], or some
    other error. *)
Inductive StatusError :=
| NoError
| FitError (UnschedulablePlugins : list string)
| OtherError.

Record Status := mkStatus {
  Plugin : string;
  AsError : StatusError
}.

(** How the handler ends: waiting for the mutex inside [SendScore], or
    returned, with the state of the connection cache and the calls issued.
    [schedulerDoneChan] is signalled before anything else. *)
Inductive Outcome :=
| Blocked
| Returned (st' : State) (calls : list call).

(** [podScheduleFailure]. *)
Definition podScheduleFailure (net : Net) (st : State)
           (schedulerSet : SchedulerSet.t) (status : Status)
           (podName namespace : string) : option Outcome :=
  if String.eqb (Plugin status) "DefaultBinder" then Some (Returned st [])
  else
    let skip :=
      match AsError status with
      | FitError plugins => bool_decide ("DistPermit" ∈ plugins)
      | NoError | OtherError => false
      end in
    if skip then Some (Returned st [])
    else
      target ← GetTargetForScoring schedulerSet
                 (ScoreEvaluator.podKey namespace podName);
      out ← SendScore net st target podName namespace "" 0;
      match out with
      | DistPermit.Blocked => Some Blocked
      | DistPermit.Returned _ st' calls => Some (Returned st' calls)
      end.

End FailureHandler.

(* ===================================================================== *)
(** ** relay.go: framing and request ids of the NewPod stream             *)
(* ===================================================================== *)

Module Relay.

Import SchedulerSet.

(** Conversion to [byte]. *)
Definition uint8 (z : Z) : Z := z mod 256.

(** [binary.LittleEndian.PutUint32] and [binary.LittleEndian.Uint32]. *)
Definition PutUint32 (v : Z) : list Z :=
  [ uint8 v; uint8 (Z.shiftr v 8); uint8 (Z.shiftr v 16);
    uint8 (Z.shiftr v 24) ].

Definition Uint32 (b : list Z) : option Z :=
  match b with
  | b0 :: b1 :: b2 :: b3 :: _ =>
      Some (Z.lor b0 (Z.lor (Z.shiftl b1 8)
                        (Z.lor (Z.shiftl b2 16) (Z.shiftl b3 24))))
  | _ => None
  end.

(** The message [sendPodToEndpoint] builds: the byte 0x0d (field 1, wire
    type fixed32), the request id, then the pod bytes. *)
Definition frame (requestId : Z) (pod : list Z) : list Z :=
  0x0d :: PutUint32 requestId ++ pod.

(** [bytes[5:]], the raw pod [UnmarshalPodRaw] hands on for relaying; the
    slice expression panics on fewer than five bytes. *)
Definition rawPodOf (bytes : list Z) : option (list Z) :=
  if (length bytes <? 5)%nat then None else Some (drop 5 bytes).

(** [PendingRequest]; [wg] is the latch of the relaying cycle, a pointer. *)
Record PendingRequest := mkPending {
  wg : nat;
  doLog : bool;
  podName : string
}.

(** [NewPodStream]: the pending requests and the id counter (uint32). *)
Record NewPodStream := mkStream {
  pendingRequests : gmap Z PendingRequest;
  requestIdCounter : Z
}.

Definition newStream : NewPodStream :=
  {| pendingRequests := ∅; requestIdCounter := 0 |}.

(** The part of [sendPodToEndpoint] that works on the stream [cs]:
    [atomic.AddUint32], [pendingRequests.Store] and the message. *)
Definition register (cs : NewPodStream) (pr : PendingRequest) (pod : list Z)
  : NewPodStream * Z * list Z :=
  let requestId := uint32 (requestIdCounter cs + 1) in
  ({| pendingRequests := <[requestId := pr]> (pendingRequests cs);
      requestIdCounter := requestId |},
   requestId, frame requestId pod).

(** One round of [receiverLoop] for a response that carries [requestId]:
    [LoadAndDelete]; an unknown id is logged and skipped, otherwise the
    request's latch gets its [Done()]. *)
Definition receive (cs : NewPodStream) (requestId : Z)
  : NewPodStream * option PendingRequest :=
  match pendingRequests cs !! requestId with
  | Some pr =>
      ({| pendingRequests := delete requestId (pendingRequests cs);
          requestIdCounter := requestIdCounter cs |}, Some pr)
  | None => (cs, None)
  end.

(** What happens on one stream: sends by the cycle that owns it and
    responses handled by its receiver loop. *)
Inductive op :=
| Send (pr : PendingRequest) (pod : list Z)
| Recv (requestId : Z).

(** The stream together with the ids handed out and the requests
    completed so far. *)
Record Trace := mkTrace {
  stream : NewPodStream;
  assigned : list Z;
  completed : list (Z * PendingRequest)
}.

Definition stepStream (t : Trace) (o : op) : Trace :=
  match o with
  | Send pr pod =>
      let '(cs, requestId, _) := register (stream t) pr pod in
      {| stream := cs; assigned := assigned t ++ [requestId];
         completed := completed t |}
  | Recv requestId =>
      match receive (stream t) requestId with
      | (cs, Some pr) =>
          {| stream := cs; assigned := assigned t;
             completed := completed t ++ [(requestId, pr)] |}
      | (cs, None) =>
          {| stream := cs; assigned := assigned t; completed := completed t |}
      end
  end.

Definition runStream (ops : list op) : Trace :=
  fold_left stepStream ops
    {| stream := newStream; assigned := []; completed := [] |}.

(** The requests sent, in order. *)
Definition sendsOf (ops : list op) : list PendingRequest :=
  omap (λ o, match o with Send pr _ => Some pr | Recv _ => None end) ops.

(** Invariant of a stream after the sends [sent]: the counter is their
    number, a pending id stands for the request sent with it and has not
    been completed, and a completed id was completed once, for the request
    sent with it. *)
Definition stream_inv (sent : list PendingRequest) (t : Trace) : Prop :=
  requestIdCounter (stream t) = Z.of_nat (length sent)
  ∧ assigned t = seqZ 1 (Z.of_nat (length sent))
  ∧ (∀ id pr, pendingRequests (stream t) !! id = Some pr →
              1 ≤ id ∧ sent !! Z.to_nat (id - 1) = Some pr
              ∧ id ∉ (completed t).*1)
  ∧ (∀ id pr, (id, pr) ∈ completed t →
              1 ≤ id ∧ sent !! Z.to_nat (id - 1) = Some pr)
  ∧ NoDup (completed t).*1.

(** What the network does for one send: [grpc.NewClient], the opening
    of the NewPod stream and [SendMsg] each succeed or fail. *)
Record Wire := mkWire {
  dialOk : bool;
  streamOk : bool;
  sendOk : bool
}.

(** The state the relay works on: the stream cache (a key maps to a
    pointer, an index into [streams]), the streams and latches created so
    far, and the messages [SendMsg] accepted, each with its stream. *)
Record State := mkState {
  clientCache : gmap string nat;
  streams : list NewPodStream;
  latches : list Latch.CountDownLatch;
  sent : list (nat * list Z)
}.

Definition set_streams (st : State) (ss : list NewPodStream) : State :=
  {| clientCache := clientCache st; streams := ss; latches := latches st;
     sent := sent st |}.

(** [wg.Done()] through the pointer [wg]. *)
Definition latchDone (st : State) (wg : nat) : option State :=
  c ← latches st !! wg;
  c' ← Latch.Done c;
  Some {| clientCache := clientCache st; streams := streams st;
          latches := <[wg := c']> (latches st); sent := sent st |}.

Definition cacheKeyOf (member : EndpointItem) (clientIndex : string) : string :=
  String.append (PodName member) (String.append "/" clientIndex).

(** [sendPodToEndpoint]; the boolean tells whether it returns an error.
    [None] is a panic: a member without address, a pod name the sampling
    check cannot index. *)
Definition sendPodToEndpoint (wire : Wire) (st : State) (member : EndpointItem)
           (pod : list Z) (wg : nat) (podName : string) (clientIndex : string)
  : option (State * bool) :=
  let cacheKey := cacheKeyOf member clientIndex in
  opened ← match clientCache st !! cacheKey with
            | Some cs => Some (Some (cs, st))
            | None =>
                _ ← Addresses member !! 0%nat;
                if negb (dialOk wire) then Some None
                else if negb (streamOk wire) then Some None
                else
                  let cs := length (streams st) in
                  Some (Some (cs,
                              {| clientCache := <[cacheKey := cs]> (clientCache st);
                                 streams := streams st ++ [newStream];
                                 latches := latches st; sent := sent st |}))
            end;
  match opened with
  | None => Some (st, true)
  | Some (cs, st1) =>
      doLog ← Sampling.sampled podName;
      stream ← streams st1 !! cs;
      let '(stream', requestId, msg) :=
        register stream {| wg := wg; doLog := doLog; podName := podName |} pod in
      let st2 := set_streams st1 (<[cs := stream']> (streams st1)) in
      if sendOk wire then
        Some ({| clientCache := clientCache st2; streams := streams st2;
                 latches := latches st2; sent := sent st2 ++ [(cs, msg)] |},
              false)
      else
        Some ({| clientCache := delete cacheKey (clientCache st2);
                 streams := streams st2; latches := latches st2;
                 sent := sent st2 |}, true)
  end.

(** [string(b)] for a byte slice. *)
Definition string_of_bytes (b : list Z) : string :=
  string_of_list_ascii ((λ x, ascii_of_N (Z.to_N x)) <$> b).

(** [b[lo:hi]] on a slice whose backing array is [arr]: a panic unless
    [lo <= hi <= cap]. *)
Definition sliceBytes (arr : list Z) (lo hi : Z) : option (list Z) :=
  if (hi <? lo) || (Z.of_nat (length arr) <? hi) then None
  else Some (take (Z.to_nat (hi - lo)) (drop (Z.to_nat lo) arr)).

(** The pod name [RelayPod] cuts out for logging: the length is read from
    byte 7, and [8+podNameLen] is computed in [byte]. *)
Definition podNameOf (rawPod spare : list Z) : option string :=
  podNameLen ← rawPod !! 7%nat;
  nameBytes ← sliceBytes (rawPod ++ spare) 8 (uint8 (8 + podNameLen));
  Some (string_of_bytes nameBytes).

(** The loop of [RelayPod] over the sub-members: a failed send takes its
    [Done()] at once. *)
Fixpoint relayLoop (wires : EndpointItem → Wire) (st : State)
         (members : list EndpointItem) (rawPod : list Z) (wg : nat)
         (podName clientIndexStr : string) : option State :=
  match members with
  | [] => Some st
  | member :: rest =>
      match sendPodToEndpoint (wires member) st member rawPod wg podName
                              clientIndexStr with
      | None => None
      | Some (st1, err) =>
          st2 ← (if err : bool then latchDone st1 wg else Some st1);
          relayLoop wires st2 rest rawPod wg podName clientIndexStr
      end
  end.

(** [RelayPod].  [getRawPod] yields the raw pod and the spare capacity of
    its backing array, or fails ([None]); the result is the state, the
    scheduler set, the latch (nil when nothing was relayed) and whether an
    error is returned. *)
Definition RelayPod (wires : EndpointItem → Wire) (st : State)
           (schedulerSet : SchedulerSet.t)
           (getRawPod : option (list Z * list Z))
           (waitForSubSchedulers : spec_float) (clientIndex : Z)
  : option (State * SchedulerSet.t * option nat * bool) :=
  let '(members, schedulerSet') := GetSubMembers schedulerSet in
  if Nat.eqb (length members) 0 then Some (st, schedulerSet', None, false)
  else
    match getRawPod with
    | None => Some (st, schedulerSet', None, true)
    | Some (rawPod, spare) =>
        latch ← Latch.NewCountDownLatch (Z.of_nat (length members))
                  waitForSubSchedulers;
        let wg := length (latches st) in
        let st0 := {| clientCache := clientCache st; streams := streams st;
                      latches := latches st ++ [latch]; sent := sent st |} in
        podName ← podNameOf rawPod spare;
        let clientIndexStr := pretty clientIndex in
        st' ← relayLoop wires st0 members rawPod wg podName clientIndexStr;
        Some (st', schedulerSet', Some wg, false)
    end.

(** One round of [receiverLoop] of the stream [cs] for a response that
    carries [requestId]. *)
Definition respond (st : State) (cs : nat) (requestId : Z) : option State :=
  stream ← streams st !! cs;
  match receive stream requestId with
  | (stream', Some pr) =>
      latchDone (set_streams st (<[cs := stream']> (streams st))) (wg pr)
  | (_, None) => Some st
  end.

(** Whether the send to [member] fails, given the cache it finds. *)
Definition sendFails (wires : EndpointItem → Wire) (st : State)
           (clientIndexStr : string) (member : EndpointItem) : bool :=
  match clientCache st !! cacheKeyOf member clientIndexStr with
  | Some _ => negb (sendOk (wires member))
  | None => negb (dialOk (wires member) && streamOk (wires member)
                  && sendOk (wires member))
  end.

(** The number of members the send to which fails. *)
Definition failures (wires : EndpointItem → Wire) (st : State)
           (clientIndexStr : string) (members : list EndpointItem) : nat :=
  length (filter (λ m, sendFails wires st clientIndexStr m = true) members).

(** The cache is in order: cached pointers are valid and two keys never
    share a stream. *)
Definition ready (st : State) : Prop :=
  (∀ k cs, clientCache st !! k = Some cs → (cs < length (streams st))%nat)
  ∧ (∀ k1 k2 cs, clientCache st !! k1 = Some cs →
                 clientCache st !! k2 = Some cs → k1 = k2).

(** The message [e] sent on a stream is waited for on behalf of the latch
    [w]: it carries [pod] behind a request id under which the stream
    holds a pending request of that latch. *)
Definition awaited (st : State) (w : nat) (pod : list Z) (e : nat * list Z)
  : Prop :=
  ∃ stream id pr,
    streams st !! e.1 = Some stream ∧ e.2 = frame id pod
    ∧ 0 ≤ id < 2 ^ 32
    ∧ pendingRequests stream !! id = Some pr ∧ wg pr = w.

(** The receiving side answers a message with the request id it reads
    from bytes 1 to 4, and the receiver loop of the stream handles the
    answer. *)
Definition answer (st : State) (e : nat * list Z) : option State :=
  requestId ← Uint32 (drop 1 e.2);
  respond st e.1 requestId.

Fixpoint answerAll (st : State) (es : list (nat * list Z)) : option State :=
  match es with
  | [] => Some st
  | e :: es' => st' ← answer st e; answerAll st' es'
  end.

End Relay.

(* ===================================================================== *)
(** ** pkg/schedulerset: the informer handlers                            *)
(* ===================================================================== *)

Module Informer.

Import SchedulerSet.

(** A [discoveryv1.EndpointSlice], as far as the handlers read it. *)
Record EndpointSlice := mkSlice {
  Name : string;
  Generation : Z;                      (* int64 *)
  Endpoints : list EndpointItem
}.

#[global] Instance EndpointSlice_eq_dec : EqDecision EndpointSlice.
Proof. solve_decision. Defined.

(** [EndpointSliceCache.Update] and [EndpointSliceCache.Delete]. *)
Definition Update (esc : gmap string (list EndpointItem)) (ess : EndpointSlice)
  : gmap string (list EndpointItem) :=
  <[Name ess := Endpoints ess]> esc.

Definition Delete (esc : gmap string (list EndpointItem)) (ess : EndpointSlice)
  : gmap string (list EndpointItem) :=
  delete (Name ess) esc.

(** What the informer tells a listener. *)
Inductive notification :=
| OnAdd (obj : EndpointSlice) (isInInitialList : bool)
| OnUpdate (oldObj newObj : EndpointSlice)
| OnDelete (obj : EndpointSlice).

#[global] Instance notification_eq_dec : EqDecision notification.
Proof. solve_decision. Defined.

(** The handler [RunEndpointSliceWatcher] registers: it keeps the cache. *)
Definition cacheHandler (esc : gmap string (list EndpointItem))
           (n : notification) : gmap string (list EndpointItem) :=
  match n with
  | OnAdd ess _ => Update esc ess
  | OnUpdate oldEss newEss =>
      let generation := Generation oldEss in
      if negb (generation =? Generation newEss) then Update esc newEss
      else esc
  | OnDelete ess => Delete esc ess
  end.

(** The handler [AddUpdateHandler] registers: whether it calls
    [handler()]. *)
Definition notifies (n : notification) : bool :=
  match n with
  | OnAdd _ isInInitialList => negb isInInitialList
  | OnUpdate oldObj newObj => negb (Generation oldObj =? Generation newObj)
  | OnDelete _ => true
  end.

Definition set_endpointSliceCache (s : t)
           (esc : gmap string (list EndpointItem)) : t :=
  {| endpointSliceCache := esc; podName := podName s; fanOut := fanOut s;
     subMembersCache := subMembersCache s; leader := leader s;
     dirty := dirty s; allowSolo := allowSolo s |}.

(** [ss.dirty.Store(true)], the handler [NewSchedulerSet] passes. *)
Definition markDirty (s : t) : t :=
  {| endpointSliceCache := endpointSliceCache s; podName := podName s;
     fanOut := fanOut s; subMembersCache := subMembersCache s;
     leader := leader s; dirty := true; allowSolo := allowSolo s |}.

(** What happens to a scheduler set: each of the two listeners of the
    informer handles a notification, the leader changes, or the relay asks
    for the sub-members. *)
Inductive step :=
| RunCacheHandler (n : notification)
| RunUpdateHandler (n : notification)
| CallSetLeader (ldr : string)
| CallGetSubMembers.

Definition exec (s : t) (st : step) : t :=
  match st with
  | RunCacheHandler n =>
      set_endpointSliceCache s (cacheHandler (endpointSliceCache s) n)
  | RunUpdateHandler n => if notifies n then markDirty s else s
  | CallSetLeader ldr => SetLeader s ldr
  | CallGetSubMembers => (GetSubMembers s).2
  end.

(** The notifications the cache listener has handled and the other
    listener has not, in order; [None] when the second listener handles a
    notification that the first has not handled yet, or handles them in
    another order. *)
Definition owed_step (q : option (list notification)) (st : step)
  : option (list notification) :=
  q ← q;
  match st with
  | RunCacheHandler n => Some (q ++ [n])
  | RunUpdateHandler n =>
      match q with
      | n' :: q' => if decide (n = n') then Some q' else None
      | [] => None
      end
  | CallSetLeader _ | CallGetSubMembers => Some q
  end.

Definition owed (steps : list step) : option (list notification) :=
  fold_left owed_step steps (Some []).

(** The sub-members a fresh computation yields. *)
Definition freshSubMembers (s : t) : list EndpointItem :=
  (GetSubMembers (markDirty s)).1.

End Informer.

(* ===================================================================== *)
(** ** Concrete inputs used by the examples below                         *)
(* ===================================================================== *)

(** A membership of three schedulers in one endpoint slice, led by
    "dist-scheduler-0". *)
Definition three_peers : SchedulerSet.t :=
  SchedulerSet.SetLeader
    (SchedulerSet.NewSchedulerSet
       {[ "dist-scheduler-slice" :=
            [ SchedulerSet.mkEndpointItem "dist-scheduler-2" ["10.0.0.2"];
              SchedulerSet.mkEndpointItem "dist-scheduler-0" ["10.0.0.0"];
              SchedulerSet.mkEndpointItem "dist-scheduler-1" ["10.0.0.1"] ] ]}
       "dist-scheduler-1" 10 false)
    "dist-scheduler-0".

(** Twelve endpoints "m00" .. "m11" in sorted order. *)
Definition twelve_members : list SchedulerSet.EndpointItem :=
  (λ n, SchedulerSet.mkEndpointItem n [n])
    <$> ["m00"; "m01"; "m02"; "m03"; "m04"; "m05";
         "m06"; "m07"; "m08"; "m09"; "m10"; "m11"].

(** An aggregator of [three_peers] whose only evaluator, for the key
    "default/p", holds one score and one waiter. *)
Definition one_score_state : ScoreEvaluator.t :=
  {| ScoreEvaluator.schedulerSet := three_peers;
     ScoreEvaluator.evaluators := {[ "default/p" := 0%nat ]};
     ScoreEvaluator.heap :=
       [ ScoreEvaluator.mkEval "default/p" 2
           [ScoreEvaluator.mkScore "node-a" 7]
           (ScoreEvaluator.mkScore "" (-1))
           [ScoreEvaluator.mkScore "node-a" 7] false ];
     ScoreEvaluator.pending := [];
     ScoreEvaluator.replies := [] |}.

(** The aggregator of [three_peers] with one evaluator, for the key
    "default/p", that holds the single score -2 and its waiter. *)
Definition below_minus_one_state : ScoreEvaluator.t :=
  {| ScoreEvaluator.schedulerSet := three_peers;
     ScoreEvaluator.evaluators := {[ "default/p" := 0%nat ]};
     ScoreEvaluator.heap :=
       [ ScoreEvaluator.mkEval "default/p" 3
           [ScoreEvaluator.mkScore "node-a" (-2)]
           (ScoreEvaluator.mkScore "" (-1))
           [ScoreEvaluator.mkScore "node-a" (-2)] false ];
     ScoreEvaluator.pending := [];
     ScoreEvaluator.replies := [] |}.

(** One peer reports node-a with score -2 for the pod "default/p", then
    the deadline passes. *)
Definition below_minus_one_run : list ScoreEvaluator.event :=
  [ ScoreEvaluator.CollectScore "default" "p" "node-a" (-2) 0;
    ScoreEvaluator.Deadline 0 0 ].

(** A scheduler set in solo mode whose endpoint cache is empty. *)
Definition solo_set : SchedulerSet.t :=
  SchedulerSet.NewSchedulerSet ∅ "dist-scheduler-0" 10 true.

(** A run at the aggregator of [three_peers] for the pod "default/p":
    one peer reports node-a with score 5 and the deadline passes; another
    peer's score for node-b arrives afterwards, and its deadline passes. *)
Definition late_score_run : list ScoreEvaluator.event :=
  [ ScoreEvaluator.CollectScore "default" "p" "node-a" 5 0;
    ScoreEvaluator.Deadline 0 0;
    ScoreEvaluator.CollectScore "default" "p" "node-b" 3 0;
    ScoreEvaluator.Deadline 1 0 ].

(** A run in which two peers report within the deadline of one evaluator. *)
Definition quorum_run : list ScoreEvaluator.event :=
  [ ScoreEvaluator.CollectScore "default" "p" "node-a" 5 0;
    ScoreEvaluator.CollectScore "default" "p" "node-b" 7 0;
    ScoreEvaluator.CollectScore "default" "p" "node-c" 7 1 ].

(** The binary64 value 0.5. *)
Definition half : spec_float := S754_finite false 4503599627370496 (-53).

(** A network on which every dial succeeds and the aggregator permits
    exactly the calls for "node-a". *)
Definition friendly_net : DistPermit.Net :=
  {| DistPermit.NewClient := λ addr, Some (DistPermit.mkConn addr);
     DistPermit.CollectScore :=
       λ _ req, Some (String.eqb (DistPermit.reqNodeName req) "node-a") |}.

(** Three schedulers and one relay. *)
Definition abc_members : list SchedulerSet.EndpointItem :=
  (λ n, SchedulerSet.mkEndpointItem n [n])
    <$> ["dist-scheduler-a"; "dist-scheduler-b"; "dist-scheduler-c";
         "dist-scheduler-relay-0"].

Definition abc_names : list string :=
  ["dist-scheduler-a"; "dist-scheduler-b"; "dist-scheduler-c"].

(** Four nodes, two labelled for scheduler a and two for scheduler b (the
    partition of two schedulers, before scheduler c joined). *)
Definition two_two_nodes : list Partitioner.Node :=
  [ Partitioner.mkNode "node-1" (Some "dist-scheduler-a");
    Partitioner.mkNode "node-2" (Some "dist-scheduler-a");
    Partitioner.mkNode "node-3" (Some "dist-scheduler-b");
    Partitioner.mkNode "node-4" (Some "dist-scheduler-b") ].

(** Five nodes: three without label, one labelled for a pod that is gone,
    one labelled for scheduler b. *)
Definition five_nodes : list Partitioner.Node :=
  [ Partitioner.mkNode "node-1" None;
    Partitioner.mkNode "node-2" None;
    Partitioner.mkNode "node-3" (Some "dist-scheduler-gone");
    Partitioner.mkNode "node-4" (Some "dist-scheduler-b");
    Partitioner.mkNode "node-5" None ].

(** [mockEndpointCache] of schedulerset_test.go: one slice "test-pod"
    whose endpoints have the pod name as their only address. *)
Definition mockEndpointCache (podNames : list string)
  : gmap string (list SchedulerSet.EndpointItem) :=
  {[ "test-pod" := (λ n, SchedulerSet.mkEndpointItem n [n]) <$> podNames ]}.

(** [bigPodNameList] of TestGetSubMembers. *)
Definition bigPodNameList : list string :=
  [ "dist-scheduler-855b885c5d-24nmt";
    "dist-scheduler-855b885c5d-28r24";
    "dist-scheduler-855b885c5d-49ntc";
    "dist-scheduler-855b885c5d-4cfqz";
    "dist-scheduler-855b885c5d-5lt9t";
    "dist-scheduler-855b885c5d-5nt7m";
    "dist-scheduler-855b885c5d-64dfc";
    "dist-scheduler-855b885c5d-6ld8m";
    "dist-scheduler-855b885c5d-6nh2k";
    "dist-scheduler-855b885c5d-6p5cd";
    "dist-scheduler-855b885c5d-6sl2r";
    "dist-scheduler-855b885c5d-72lpj";
    "dist-scheduler-855b885c5d-7lppz";
    "dist-scheduler-855b885c5d-8jz5m";
    "dist-scheduler-855b885c5d-8s96b";
    "dist-scheduler-855b885c5d-8wkmk";
    "dist-scheduler-855b885c5d-9r6lp";
    "dist-scheduler-855b885c5d-9vfnb";
    "dist-scheduler-855b885c5d-bq8t6";
    "dist-scheduler-855b885c5d-bs7sc";
    "dist-scheduler-855b885c5d-c2m2z";
    "dist-scheduler-855b885c5d-clrpq";
    "dist-scheduler-855b885c5d-cvdbv";
    "dist-scheduler-855b885c5d-dp7vs";
    "dist-scheduler-855b885c5d-dvjlk";
    "dist-scheduler-855b885c5d-fdzll";
    "dist-scheduler-855b885c5d-fzt8f";
    "dist-scheduler-855b885c5d-gbsdl";
    "dist-scheduler-855b885c5d-gmkw4";
    "dist-scheduler-855b885c5d-gwbs2";
    "dist-scheduler-855b885c5d-hmqsg";
    "dist-scheduler-855b885c5d-j7nd4";
    "dist-scheduler-855b885c5d-jw44t";
    "dist-scheduler-855b885c5d-k742f";
    "dist-scheduler-855b885c5d-kh47k";
    "dist-scheduler-855b885c5d-lw8kf";
    "dist-scheduler-855b885c5d-lzd7g";
    "dist-scheduler-855b885c5d-m5ng4";
    "dist-scheduler-855b885c5d-mfc7z";
    "dist-scheduler-855b885c5d-mp5j6";
    "dist-scheduler-855b885c5d-n5nm2";
    "dist-scheduler-855b885c5d-nc4hk";
    "dist-scheduler-855b885c5d-njvwr";
    "dist-scheduler-855b885c5d-p4tv5";
    "dist-scheduler-855b885c5d-pkdjl";
    "dist-scheduler-855b885c5d-q6j7d";
    "dist-scheduler-855b885c5d-qq4nt";
    "dist-scheduler-855b885c5d-rjpnz";
    "dist-scheduler-855b885c5d-rl7cg";
    "dist-scheduler-855b885c5d-rpcvl";
    "dist-scheduler-855b885c5d-snfzb";
    "dist-scheduler-855b885c5d-sphxf";
    "dist-scheduler-855b885c5d-tc89d";
    "dist-scheduler-855b885c5d-tspqr";
    "dist-scheduler-855b885c5d-vqpk9";
    "dist-scheduler-855b885c5d-w69gp";
    "dist-scheduler-855b885c5d-wmbft";
    "dist-scheduler-855b885c5d-xfqcf";
    "dist-scheduler-855b885c5d-xhgx8";
    "dist-scheduler-855b885c5d-z5fw2";
    "dist-scheduler-855b885c5d-zjdkk";
    "dist-scheduler-855b885c5d-znx8s";
    "dist-scheduler-855b885c5d-zpp8z";
    "dist-scheduler-855b885c5d-zzd5n";
    "dist-scheduler-relay-7b8847c594-4pzl9";
    "dist-scheduler-relay-7b8847c594-5965t";
    "dist-scheduler-relay-7b8847c594-596z8";
    "dist-scheduler-relay-7b8847c594-8tqd2";
    "dist-scheduler-relay-7b8847c594-9ssqq";
    "dist-scheduler-relay-7b8847c594-jhr44";
    "dist-scheduler-relay-7b8847c594-rch8w" ].

(** The scheduler set TestGetSubMembers builds for [podName]. *)
Definition testSet (ldr podName : string) (members : list string)
  : SchedulerSet.t :=
  SchedulerSet.SetLeader
    (SchedulerSet.NewSchedulerSet (mockEndpointCache members) podName 10 false)
    ldr.

(** A run with a score of -1: the deadline passes while two calls are
    between their critical sections; they append afterwards. *)
Definition minus_one_run : list ScoreEvaluator.event :=
  [ ScoreEvaluator.CollectScore "default" "p" "node-a" (-1) 0;
    ScoreEvaluator.Arrive "default" "p" "node-b" 5;
    ScoreEvaluator.Arrive "default" "p" "node-c" 3;
    ScoreEvaluator.Deadline 0 0;
    ScoreEvaluator.Resume 0 0;
    ScoreEvaluator.Resume 0 0 ].

(** The membership of [three_peers] as another peer sees it: the same
    endpoints, listed in another order. *)
Definition three_peers_reordered : SchedulerSet.t :=
  SchedulerSet.SetLeader
    (SchedulerSet.NewSchedulerSet
       {[ "dist-scheduler-slice" :=
            [ SchedulerSet.mkEndpointItem "dist-scheduler-0" ["10.0.0.0"];
              SchedulerSet.mkEndpointItem "dist-scheduler-1" ["10.0.0.1"];
              SchedulerSet.mkEndpointItem "dist-scheduler-2" ["10.0.0.2"] ] ]}
       "dist-scheduler-2" 10 false)
    "dist-scheduler-0".

(** The reports of three schedulers for the pod "default/p". *)
Definition three_reports : list ScoreEvaluatorInv.Report :=
  [ ("node-a", 5, 0); ("node-b", 7, 0); ("node-c", 7, 1) ].

(** A failure before the Permit stage. *)
Definition fit_failure : FailureHandler.Status :=
  FailureHandler.mkStatus "NodeResourcesFit"
    (FailureHandler.FitError ["NodeResourcesFit"]).

(** Two pods sent on a stream; the second is answered, then a response
    with an unknown id and a repeated response arrive. *)
Definition two_sends : list Relay.op :=
  [ Relay.Send (Relay.mkPending 0 false "pod-1") [1; 2; 3];
    Relay.Send (Relay.mkPending 1 false "pod-2") [4; 5];
    Relay.Recv 2; Relay.Recv 5; Relay.Recv 2 ].

(** The slice of [three_peers] is deleted; the relay asks for its
    sub-members between the two listeners' handling of the deletion. *)
Definition slice_deleted : list Informer.step :=
  let ess := Informer.mkSlice "dist-scheduler-slice" 3 [] in
  [ Informer.CallSetLeader "dist-scheduler-0";
    Informer.CallGetSubMembers;
    Informer.RunCacheHandler (Informer.OnDelete ess);
    Informer.CallGetSubMembers;
    Informer.RunUpdateHandler (Informer.OnDelete ess) ].


(** The start of a scheduler set on an empty cache: the slice of
    [three_peers] comes with the initial list and is handled by both
    listeners before anyone asks for the sub-members. *)
Definition startup_listing : list Informer.step :=
  let ess := Informer.mkSlice "dist-scheduler-slice" 3
               [ SchedulerSet.mkEndpointItem "dist-scheduler-2" ["10.0.0.2"];
                 SchedulerSet.mkEndpointItem "dist-scheduler-0" ["10.0.0.0"];
                 SchedulerSet.mkEndpointItem "dist-scheduler-1" ["10.0.0.1"] ] in
  [ Informer.RunCacheHandler (Informer.OnAdd ess true);
    Informer.RunUpdateHandler (Informer.OnAdd ess true) ].

(** The same slice handled by the cache listener only after a first call
    of [GetSubMembers]. *)
Definition late_initial_add : list Informer.step :=
  [ Informer.CallSetLeader "dist-scheduler-0";
    Informer.CallGetSubMembers ] ++ startup_listing.

(** The membership of [three_peers] as its leader sees it: the two other
    schedulers are its sub-members. *)
Definition leader_of_three : SchedulerSet.t :=
  SchedulerSet.peerSet
    {[ "dist-scheduler-slice" :=
         [ SchedulerSet.mkEndpointItem "dist-scheduler-2" ["10.0.0.2"];
           SchedulerSet.mkEndpointItem "dist-scheduler-0" ["10.0.0.0"];
           SchedulerSet.mkEndpointItem "dist-scheduler-1" ["10.0.0.1"] ] ]}
    "dist-scheduler-0" false "dist-scheduler-0".

(** A network on which "dist-scheduler-2" cannot be dialled. *)
Definition one_unreachable (m : SchedulerSet.EndpointItem) : Relay.Wire :=
  if String.eqb (SchedulerSet.PodName m) "dist-scheduler-2"
  then Relay.mkWire false true true
  else Relay.mkWire true true true.

(** A raw pod whose name, "pod-7", stands behind the length byte 7. *)
Definition raw_pod_7 : list Z :=
  [ 18; 20; 10; 18; 10; 16; 10; 5; 112; 111; 100; 45; 55;
    18; 7; 100; 101; 102; 97; 117; 108; 116 ].

(** A raw pod whose name has 250 bytes. *)
Definition raw_pod_long_name : list Z :=
  [ 18; 160; 2; 10; 156; 2; 10; 250 ] ++ replicate 250 97.

(** The relay before its first send. *)
Definition relay_start : Relay.State := Relay.mkState ∅ [] [] [].

(* ===================================================================== *)
(** * Theorems                                                            *)
(* ===================================================================== *)

Section SamplingFacts.
Import Sampling.

Lemma sampled_panics_iff (name : string) :
  sampled name = None ↔ name = "" ∨ name = "0".
Proof.
  unfold sampled, GoStr.index, GoStr.len.
  destruct name as [|c1 [|c2 rest]].
  - simpl. split; [by left | done].
  - simpl.
    destruct (Ascii.eqb_spec c1 "0"%char) as [->|Hne]; simpl.
    + split; [by right | done].
    + split; [done | intros [H|H]; [done | congruence]].
  - split.
    + intros H. exfalso. revert H.
      replace (Z.of_nat (String.length (String c1 (String c2 rest))) - 1)
        with (Z.of_nat (S (String.length rest))) by (simpl String.length; lia).
      replace (Z.of_nat (String.length (String c1 (String c2 rest))) - 2)
        with (Z.of_nat (String.length rest)) by (simpl String.length; lia).
      assert (Hget : ∀ (s : string) (n : nat),
                 (n < String.length s)%nat → is_Some (String.get n s)).
      { induction s as [|a s IH]; intros n Hn; simpl in *; [lia|].
        destruct n; [by eexists | apply IH; lia]. }
      destruct (Z.ltb_spec (Z.of_nat (S (String.length rest))) 0); [lia|].
      destruct (Z.ltb_spec (Z.of_nat (String.length rest)) 0); [lia|].
      rewrite !Nat2Z.id.
      destruct (Hget (String c1 (String c2 rest)) (S (String.length rest)))
        as [x ->]; [simpl; lia|].
      destruct (Hget (String c1 (String c2 rest)) (String.length rest))
        as [y ->]; [simpl; lia|].
      simpl. by destruct (Ascii.eqb x "0"%char).
    + intros [H|H]; discriminate.
Qed.

(** C10 (as amended).  The sampling check reads [Name[len-1]] first and
    [Name[len-2]] only when that byte is '0', so it panics exactly when the
    pod name is empty or is the one-character name "0".  On such a name
    each of the three entry points (webhook handler, per-pod dispatch,
    receive-side unmarshal) panics, whatever the rest of its body does;
    on every other name, in particular every other one-character name,
    the check returns and the entry point goes on with the rest of its
    body. *)
Theorem sampling_panics_exactly {R : Type} (podQueue : list Pod) (pod : Pod)
        (rest : bool → option R) (dispatch : Pod → option R) :
  (sampled (Name pod) = None ↔ Name pod = "" ∨ Name pod = "0")
  ∧ (handleWebhook podQueue pod = None ↔ Name pod = "" ∨ Name pod = "0")
  ∧ (Name pod = "" ∨ Name pod = "0" →
     ProcessOne rest pod = None
     ∧ UnmarshalPodRaw dispatch pod = None
     ∧ UnmarshalPodRaw (ProcessOne rest) pod = None)
  ∧ (¬ (Name pod = "" ∨ Name pod = "0") →
     ∃ doLog,
       sampled (Name pod) = Some doLog
       ∧ ProcessOne rest pod = rest doLog
       ∧ UnmarshalPodRaw dispatch pod = (dispatch pod ≫= λ _, Some tt)
       ∧ UnmarshalPodRaw (ProcessOne rest) pod
         = (rest doLog ≫= λ _, Some tt)).
Proof.
  pose proof (sampled_panics_iff (Name pod)) as Hs.
  split; [exact Hs|].
  unfold handleWebhook, UnmarshalPodRaw, ProcessOne.
  destruct (sampled (Name pod)) as [b|] eqn:E; cbn [mbind option_bind].
  - assert (Hok : ¬ (Name pod = "" ∨ Name pod = "0")).
    { intros H. apply Hs in H. discriminate H. }
    split; [split; [intros H; discriminate H | intros H; by destruct Hok]|].
    split; [intros H; by destruct Hok|].
    intros _. exists b. split; [reflexivity|]. split; [reflexivity|].
    split.
    + by destruct (dispatch pod).
    + by destruct (rest b).
  - assert (Hbad : Name pod = "" ∨ Name pod = "0") by (by apply Hs).
    split; [split; [intros _; exact Hbad | reflexivity]|].
    split; [intros _; repeat split|].
    intros Hok. by destruct Hok.
Qed.

(** C10, refuted as stated: a pod named "a" has fewer than two characters,
    yet the check does not panic on it: [Name[len-2]] is never read, and
    none of the three entry points panics at the check. *)
Lemma sampling_short_name_counterexample :
  ¬ (∀ pod : Pod, (String.length (Name pod) < 2)%nat →
       sampled (Name pod) = None
       ∧ handleWebhook [] pod = None
       ∧ ProcessOne (λ doLog, Some doLog) pod = None
       ∧ UnmarshalPodRaw (λ _, Some tt) pod = None).
Proof.
  intros H.
  destruct (H (mkPod "a" "default" "dist-scheduler")) as [H1 _];
    [simpl; lia | discriminate H1].
Qed.

End SamplingFacts.

Section SchedulerSetFacts.
Import SchedulerSet.

Lemma Compare_total (a b : string) :
  GoStr.Compare a b ≤ 0 ∨ GoStr.Compare b a ≤ 0.
Proof.
  unfold GoStr.Compare. rewrite (String.compare_antisym a b).
  destruct (String.compare b a); simpl; lia.
Qed.

#[local] Instance before_total (ldr : string) : Total (before ldr).
Proof.
  intros x y. unfold before, podNameSort.
  destruct (String.eqb (PodName x) ldr); [left; lia|].
  destruct (String.eqb (PodName y) ldr); [right; lia|].
  apply Compare_total.
Qed.

Lemma sortMembers_Sorted (s : t) (members : list EndpointItem) :
  Sorted (before (leader s)) (sortMembers s members).
Proof. unfold sortMembers. apply Sorted_merge_sort, _. Qed.

Lemma sortMembers_Permutation (s : t) (members : list EndpointItem) :
  sortMembers s members ≡ₚ members.
Proof. unfold sortMembers. apply merge_sort_Permutation. Qed.

Lemma sortMembers_length (s : t) (members : list EndpointItem) :
  length (sortMembers s members) = length members.
Proof. apply Permutation_length, sortMembers_Permutation. Qed.

Lemma uint32_small (z : Z) : 0 ≤ z < 2 ^ 32 → uint32 z = z.
Proof. intros H. unfold uint32. by apply Z.mod_small. Qed.

(** C4 (as amended).  With exactly one member [GetTargetForScoring]
    returns it without hashing.  With two or more members (fewer than
    2^32) it returns the member at position [fnv1_32(key) mod len] of
    the members sorted by [podNameSort], where [fnv1_32] is the 32-bit
    FNV-1 hash ([fnv.New32]: multiply, then xor), not FNV-1a; that
    position exists, and the sorted list is an ordered rearrangement of
    the members. *)
Theorem GetTargetForScoring_spec (s : t) (key : string) :
  (∀ m, GetMembers s = [m] → GetTargetForScoring s key = Some m)
  ∧ ((2 ≤ length (GetMembers s))%nat →
     Z.of_nat (length (GetMembers s)) < 2 ^ 32 →
     GetTargetForScoring s key
     = sortMembers s (GetMembers s)
         !! Z.to_nat (fnv1_32 key mod Z.of_nat (length (GetMembers s)))
     ∧ is_Some (GetTargetForScoring s key)
     ∧ Sorted (before (leader s)) (sortMembers s (GetMembers s))
     ∧ sortMembers s (GetMembers s) ≡ₚ GetMembers s).
Proof.
  split.
  - intros m Hm. unfold GetTargetForScoring. by rewrite Hm.
  - intros Hlen Hbound.
    assert (Heq : GetTargetForScoring s key
                  = sortMembers s (GetMembers s)
                      !! Z.to_nat (fnv1_32 key
                                   mod Z.of_nat (length (GetMembers s)))).
    { unfold GetTargetForScoring.
      destruct (Nat.eqb_spec (length (GetMembers s)) 1) as [E|_]; [lia|].
      rewrite sortMembers_length, uint32_small by lia.
      destruct (Z.eqb_spec (Z.of_nat (length (GetMembers s))) 0); [lia|].
      done. }
    split; [exact Heq|]. split.
    + rewrite Heq. apply lookup_lt_is_Some. rewrite sortMembers_length.
      pose proof (Z.mod_pos_bound (fnv1_32 key)
                    (Z.of_nat (length (GetMembers s)))) as Hm.
      lia.
    + split; [apply sortMembers_Sorted | apply sortMembers_Permutation].
Qed.

Lemma take_plus {A} (n m : nat) (l : list A) :
  take (n + m) l = take n l ++ take m (drop n l).
Proof.
  revert l. induction n as [|n IH]; intros [|x l]; simpl; try done.
  - by destruct m.
  - by rewrite IH.
Qed.

Lemma subMembersAt_block (members : list EndpointItem) (i : nat) :
  subMembersAt 10 members (Z.of_nat i) = take 10 (drop (10 * i + 1) members).
Proof.
  unfold subMembersAt, slice.
  replace (Z.to_nat (Z.of_nat i * 10 + 1)) with (10 * i + 1)%nat by lia.
  destruct (Z.geb_spec (Z.of_nat i * 10 + 1) (Z.of_nat (length members)))
    as [Hge|Hlt].
  - rewrite drop_ge by lia. done.
  - destruct (Z.gtb_spec (Z.of_nat i * 10 + 1 + 10) (Z.of_nat (length members)))
      as [Hcap|Hfit].
    + rewrite !take_ge; [done | |]; rewrite length_drop; lia.
    + f_equal. lia.
Qed.

Lemma subMembers_prefix (members : list EndpointItem) (k : nat) :
  concat ((λ i, subMembersAt 10 members (Z.of_nat i)) <$> seq 0 k)
  = drop 1 (take (10 * k + 1) members).
Proof.
  induction k as [|k IH].
  - simpl. by destruct members.
  - rewrite seq_S, fmap_app, concat_app, IH.
    replace (concat ((λ i, subMembersAt 10 members (Z.of_nat i)) <$> [(0 + k)%nat]))
      with (subMembersAt 10 members (Z.of_nat k))
      by (cbn [fmap list_fmap concat Nat.add]; by rewrite app_nil_r).
    rewrite subMembersAt_block.
    replace (10 * S k + 1)%nat with ((10 * k + 1) + 10)%nat by lia.
    rewrite (take_plus (10 * k + 1) 10).
    destruct members as [|x members]; [by rewrite !drop_nil, !take_nil|].
    replace (10 * k + 1)%nat with (S (10 * k)) by lia.
    cbn [take drop app]. by rewrite !drop_0.
Qed.

Lemma subMembers_concat (members : list EndpointItem) :
  concat ((λ i, subMembersAt 10 members (Z.of_nat i))
            <$> seq 0 (length members))
  = drop 1 members.
Proof. rewrite subMembers_prefix, take_ge by lia. done. Qed.

Lemma elem_of_concat {A} (x : A) (ls : list (list A)) :
  x ∈ concat ls ↔ ∃ l, x ∈ l ∧ l ∈ ls.
Proof.
  induction ls as [|l ls IH]; simpl.
  - split; [by intros ?%elem_of_nil | by intros (? & _ & ?%elem_of_nil)].
  - rewrite elem_of_app, IH. split.
    + intros [H|(l' & H1 & H2)]; [exists l | exists l']; split; auto;
        [by left | by right].
    + intros (l' & H1 & H2). apply elem_of_cons in H2 as [->|H2];
        [by left | right; eauto].
Qed.

Lemma subMembersAt_elem (members : list EndpointItem) (i : nat) x :
  x ∈ subMembersAt 10 members (Z.of_nat i) →
  ∃ k, (10 * i + 1 ≤ k < 10 * i + 11)%nat ∧ members !! k = Some x.
Proof.
  rewrite subMembersAt_block. intros Hx.
  apply list_elem_of_lookup in Hx as [k Hk].
  apply lookup_take_Some in Hk as [Hk Hlt].
  rewrite lookup_drop in Hk.
  exists (10 * i + 1 + k)%nat. split; [lia | done].
Qed.

(** C3 (as amended).  With fan-out 10, the value the program builds its
    scheduler set with, and a membership of M ≥ 2 distinct endpoints in
    sorted order, the peer at position i relays to
    [members[10i+1 : min(10i+11, M)]]; the lists of the peers 0..M-1, in
    that order, concatenate to [members[1:]]: their union is exactly
    members 1..M-1 and no member occurs in the lists of two different
    peers. *)
Theorem relay_topology_coverage (members : list EndpointItem) :
  (2 ≤ length members)%nat →
  NoDup members →
  concat ((λ i, subMembersAt 10 members (Z.of_nat i))
            <$> seq 0 (length members))
  = drop 1 members
  ∧ (∀ x, x ∈ drop 1 members
          ↔ ∃ i, (i < length members)%nat
                 ∧ x ∈ subMembersAt 10 members (Z.of_nat i))
  ∧ (∀ (i j : nat) x,
       x ∈ subMembersAt 10 members (Z.of_nat i) →
       x ∈ subMembersAt 10 members (Z.of_nat j) → i = j).
Proof.
  intros _ Hnd. split; [apply subMembers_concat|]. split.
  - intros x. rewrite <- subMembers_concat.
    rewrite elem_of_concat. split.
    + intros (l & Hx & Hl).
      apply list_elem_of_fmap in Hl as (i & -> & Hi).
      apply elem_of_seq in Hi. exists i. split; [lia | done].
    + intros (i & Hi & Hx).
      exists (subMembersAt 10 members (Z.of_nat i)). split; [done|].
      apply list_elem_of_fmap. exists i. split; [done|].
      apply elem_of_seq. lia.
  - intros i j x Hi Hj.
    apply subMembersAt_elem in Hi as (k & Hk & Hxk).
    apply subMembersAt_elem in Hj as (k' & Hk' & Hxk').
    assert (k = k') by (eapply NoDup_lookup; eauto). lia.
Qed.

Lemma compare_OT (a b : string) : String.compare a b = String_as_OT.compare a b.
Proof.
  revert b. induction a as [|c a IH]; intros [|d b]; simpl; try reflexivity.
Qed.

Lemma Compare_le (a b : string) :
  GoStr.Compare a b ≤ 0 ↔ a = b ∨ String_as_OT.lt a b.
Proof.
  unfold GoStr.Compare. rewrite compare_OT.
  pose proof (String_as_OT.compare_spec a b) as Hs.
  destruct (String_as_OT.compare a b); inversion Hs as [H|H|H]; split;
    try lia; auto.
  intros [->|Hlt]; exfalso.
  - by apply (irreflexivity String_as_OT.lt b).
  - apply (irreflexivity String_as_OT.lt a). by etransitivity.
Qed.

Lemma Compare_le_trans (a b c : string) :
  GoStr.Compare a b ≤ 0 → GoStr.Compare b c ≤ 0 → GoStr.Compare a c ≤ 0.
Proof.
  rewrite !Compare_le. intros [->|Hab] [->|Hbc]; auto.
  right. by etransitivity.
Qed.

Lemma Compare_zero (a b : string) : GoStr.Compare a b = 0 ↔ a = b.
Proof.
  unfold GoStr.Compare. split.
  - intros H. apply String.compare_eq_iff.
    destruct (String.compare a b); (done || lia).
  - intros ->. pose proof (String.compare_antisym b b) as H.
    destruct (String.compare b b); simpl in H; (done || congruence).
Qed.

Lemma Compare_flip (a b : string) : GoStr.Compare b a = - GoStr.Compare a b.
Proof.
  unfold GoStr.Compare. rewrite (String.compare_antisym a b).
  by destruct (String.compare b a).
Qed.

Lemma Search_least (n p : Z) (f : Z → bool) :
  0 ≤ p ≤ n →
  (∀ k, 0 ≤ k < p → f k = false) →
  (∀ k, p ≤ k < n → f k = true) →
  Search n f = p.
Proof.
  intros Hp Hlow Hhigh. unfold Search.
  assert (Hloop : ∀ fuel i j, 0 ≤ i ≤ p → p ≤ j ≤ n →
                    j - i < Z.of_nat fuel → search_loop fuel f i j = p).
  { induction fuel as [|fuel IH]; intros i j Hi Hj Hfuel; [lia|].
    cbn [search_loop]. destruct (Z.ltb_spec i j) as [Hlt|Hge]; [|lia].
    rewrite Z.shiftr_div_pow2 by lia. change (2 ^ 1) with 2.
    assert (Hh : i ≤ (i + j) / 2 < j).
    { split; [apply Z.div_le_lower_bound; lia
             | apply Z.div_lt_upper_bound; lia]. }
    destruct (f ((i + j) / 2)) eqn:Hf; simpl.
    - apply IH; [lia | | lia].
      destruct (Z.le_gt_cases p ((i + j) / 2)) as [|Hgt]; [lia|].
      rewrite Hlow in Hf by lia. done.
    - apply IH; [|lia|lia].
      destruct (Z.lt_ge_cases ((i + j) / 2) p) as [|Hge']; [lia|].
      rewrite Hhigh in Hf by lia. done. }
  apply Hloop; lia.
Qed.

#[local] Instance before_trans (ldr : string) : Transitive (before ldr).
Proof.
  intros x y z. unfold before, podNameSort.
  destruct (String.eqb (PodName x) ldr); [lia|].
  destruct (String.eqb (PodName y) ldr); [lia|].
  destruct (String.eqb (PodName z) ldr); [lia|].
  apply Compare_le_trans.
Qed.

Lemma StronglySorted_lookup {A} (R : relation A) (l : list A) :
  StronglySorted R l →
  ∀ (i j : nat) x y, (i < j)%nat → l !! i = Some x → l !! j = Some y → R x y.
Proof.
  induction 1 as [|a l Hs IH Hall]; intros i j x y Hij Hi Hj.
  - by rewrite lookup_nil in Hi.
  - destruct j as [|j]; [lia|]. destruct i as [|i]; simpl in *.
    + simplify_eq. rewrite Forall_forall in Hall. apply Hall.
      apply list_elem_of_lookup. by exists j.
    + apply (IH i j); [lia | done..].
Qed.

(** In the sorted membership, with the leader at its head and distinct
    sort keys, the position a peer computes for itself is its position in
    the list. *)
Lemma selfIndex_position (s : t) (sorted : list EndpointItem) (i : nat)
      (m0 me : EndpointItem) :
  StronglySorted (before (leader s)) sorted →
  NoDup ((λ m, sortKey (PodName m)) <$> sorted) →
  sorted !! 0%nat = Some m0 → PodName m0 = leader s →
  sorted !! i = Some me → PodName me = podName s →
  selfIndex s sorted = Z.of_nat i.
Proof.
  intros Hsorted Hkeys H0 Hldr Hi Hme. unfold selfIndex.
  assert (Hkey : ∀ (a b : nat) x y, sorted !! a = Some x → sorted !! b = Some y →
                   sortKey (PodName x) = sortKey (PodName y) → a = b).
  { intros a b x y Ha Hb Heq. eapply NoDup_lookup; [exact Hkeys | |];
      rewrite list_lookup_fmap; [by rewrite Ha | by rewrite Hb, Heq]. }
  assert (Hnotldr : ∀ (a : nat) x, sorted !! a = Some x → a ≠ 0%nat →
                      String.eqb (PodName x) (leader s) = false).
  { intros a x Ha Hne. apply String.eqb_neq. intros Hx. apply Hne.
    apply (Hkey a 0%nat x m0 Ha H0). by rewrite Hx, Hldr. }
  destruct i as [|i].
  { simplify_eq. rewrite <- Hme, Hldr. by rewrite String.eqb_refl. }
  rewrite String.eqb_sym, <- Hme, (Hnotldr _ _ Hi) by done.
  pose proof (lookup_lt_Some _ _ _ Hi) as Hlen.
  rewrite (Search_least _ (Z.of_nat i)); [lia | lia | |].
  - intros k Hk.
    destruct (lookup_lt_is_Some_2 sorted (Z.to_nat (k + 1))) as [x Hx]; [lia|].
    rewrite Hx.
    assert (Hle : before (leader s) x me).
    { apply (StronglySorted_lookup _ _ Hsorted (Z.to_nat (k + 1)) (S i));
        [lia | done..]. }
    unfold before in Hle. revert Hle. unfold podNameSort.
    rewrite (Hnotldr _ _ Hx), (Hnotldr _ _ Hi) by lia. intros Hle.
    destruct (Z.eq_dec (GoStr.Compare (sortKey (PodName x))
                                      (sortKey (PodName me))) 0) as [Hz|Hnz].
    + apply Compare_zero in Hz. pose proof (Hkey _ _ _ _ Hx Hi Hz). lia.
    + destruct (Z.geb_spec (GoStr.Compare (sortKey (PodName x))
                                          (sortKey (PodName me))) 0);
        [lia | done].
  - intros k Hk.
    destruct (lookup_lt_is_Some_2 sorted (Z.to_nat (k + 1))) as [x Hx]; [lia|].
    rewrite Hx.
    assert (Hge : 0 ≤ podNameSort (leader s) (PodName x) (PodName me)).
    { unfold podNameSort. rewrite (Hnotldr _ _ Hx), (Hnotldr _ _ Hi) by lia.
      destruct (decide (Z.to_nat (k + 1) = S i)) as [Heq|Hne].
      - rewrite Heq in Hx. simplify_eq.
        by rewrite (proj2 (Compare_zero _ _) eq_refl).
      - assert (Hle : before (leader s) me x).
        { apply (StronglySorted_lookup _ _ Hsorted (S i) (Z.to_nat (k + 1)));
            [lia | done..]. }
        unfold before, podNameSort in Hle.
        rewrite (Hnotldr _ _ Hx), (Hnotldr _ _ Hi) in Hle by lia.
        rewrite Compare_flip. lia. }
    destruct (Z.geb_spec (podNameSort (leader s) (PodName x) (PodName me)) 0);
      [done | lia].
Qed.

Lemma fmap_by_index {A B} (F : A → B) (G : nat → B) (l : list A) :
  (∀ i x, l !! i = Some x → F x = G i) → F <$> l = G <$> seq 0 (length l).
Proof.
  intros H. apply list_eq. intros i. rewrite !list_lookup_fmap.
  destruct (l !! i) as [x|] eqn:E; simpl.
  - rewrite lookup_seq_lt by (by eapply lookup_lt_Some). simpl.
    by rewrite (H _ _ E).
  - rewrite lookup_seq_ge; [done|]. by apply lookup_ge_None.
Qed.

(** The relay tree as the peers build it.  All peers see the same
    endpoint cache and leader; when the leader is a member and the sort
    keys of the members are distinct, the sub-member lists that
    [GetSubMembers] returns at the peers, taken in sorted order of the
    peers, concatenate to the sorted membership without its head. *)
Theorem relay_tree_covers_members (esc : gmap string (list EndpointItem))
        (ldr : string) (solo : bool) (m0 : EndpointItem) :
  let sorted := merge_sort (before ldr) (cache_GetMembers esc) in
  (2 ≤ length (cache_GetMembers esc))%nat →
  NoDup ((λ m, sortKey (PodName m)) <$> cache_GetMembers esc) →
  sorted !! 0%nat = Some m0 → PodName m0 = ldr →
  concat ((λ m, (GetSubMembers (peerSet esc ldr solo (PodName m))).1) <$> sorted)
  = drop 1 sorted.
Proof.
  intros sorted Hlen Hkeys H0 Hldr.
  assert (Hperm : sorted ≡ₚ cache_GetMembers esc)
    by apply merge_sort_Permutation.
  assert (Hss : StronglySorted (before ldr) sorted)
    by (apply StronglySorted_merge_sort; apply _).
  assert (Hkeys' : NoDup ((λ m, sortKey (PodName m)) <$> sorted))
    by (by rewrite Hperm).
  rewrite <- subMembers_concat. f_equal.
  apply fmap_by_index. intros i me Hi.
  set (s := peerSet esc ldr solo (PodName me)).
  assert (Hs : (GetSubMembers s).1 = subMembersAt 10 sorted (selfIndex s sorted)).
  { unfold GetSubMembers. change (dirty s) with true.
    change (endpointSliceCache s) with esc. cbn [negb].
    destruct (Nat.leb_spec (length (cache_GetMembers esc)) 1) as [|_]; [lia|].
    reflexivity. }
  rewrite Hs. f_equal.
  by apply (selfIndex_position s sorted i m0 me).
Qed.

(** The relay tree on the 71 members of TestGetSubMembers, led by the
    relay "...-8tqd2". *)
Example relay_tree_covers_test_members :
  let ldr := "dist-scheduler-relay-7b8847c594-8tqd2" in
  let sorted := merge_sort (before ldr)
                  (cache_GetMembers (mockEndpointCache bigPodNameList)) in
  concat ((λ m, (GetSubMembers
                   (peerSet (mockEndpointCache bigPodNameList) ldr false
                      (PodName m))).1) <$> sorted)
  = drop 1 sorted.
Proof.
  apply (relay_tree_covers_members (mockEndpointCache bigPodNameList) _ false
           (mkEndpointItem "dist-scheduler-relay-7b8847c594-8tqd2"
              ["dist-scheduler-relay-7b8847c594-8tqd2"])).
  - vm_compute. lia.
  - apply (bool_decide_unpack (NoDup _)). vm_compute. exact I.
  - vm_compute. reflexivity.
  - reflexivity.
Qed.

(** Why the leader has to be a member: while no leader is known (the
    empty name), the peers at sorted positions 0 and 1 both take
    themselves for position 1. *)
Example selfIndex_without_leader :
  selfIndex (peerSet (mockEndpointCache ["m00"; "m01"; "m02"]) "" false "m00")
            ((λ n, mkEndpointItem n [n]) <$> ["m00"; "m01"; "m02"]) = 1
  ∧ selfIndex (peerSet (mockEndpointCache ["m00"; "m01"; "m02"]) "" false "m01")
              ((λ n, mkEndpointItem n [n]) <$> ["m00"; "m01"; "m02"]) = 1.
Proof. split; vm_compute; reflexivity. Qed.

(** The cases of schedulerset_test.go, evaluated on the embedding. *)
Example TestGetMemberCount :
  GetMemberCount (NewSchedulerSet (mockEndpointCache []) "test-pod" 10 true) = 1
  ∧ GetMemberCount (NewSchedulerSet (mockEndpointCache []) "test-pod" 10 false) = 0
  ∧ GetMemberCount
      (NewSchedulerSet (mockEndpointCache ["scheduler-1"; "scheduler-2"; "scheduler-3"])
         "test-pod" 10 false) = 3.
Proof. repeat split; vm_compute; reflexivity. Qed.

Example TestGetMemberCountNoRelays :
  GetMemberCountNoRelays
    (NewSchedulerSet
       (mockEndpointCache ["dist-scheduler-1"; "dist-scheduler-relay-1";
                           "dist-scheduler-2"; "dist-scheduler-relay-2"])
       "test-pod" 10 false) = 2
  ∧ GetMemberCountNoRelays
      (NewSchedulerSet
         (mockEndpointCache ["dist-scheduler-relay-1"; "dist-scheduler-relay-2"])
         "test-pod" 10 false) = 0.
Proof. repeat split; vm_compute; reflexivity. Qed.

Example TestGetSubMembers_leader :
  PodName <$> (GetSubMembers
                 (testSet "dist-scheduler-relay-7b8847c594-8tqd2"
                    "dist-scheduler-relay-7b8847c594-8tqd2" bigPodNameList)).1
  = [ "dist-scheduler-relay-7b8847c594-4pzl9";
      "dist-scheduler-relay-7b8847c594-5965t";
      "dist-scheduler-relay-7b8847c594-596z8";
      "dist-scheduler-relay-7b8847c594-9ssqq";
      "dist-scheduler-relay-7b8847c594-jhr44";
      "dist-scheduler-relay-7b8847c594-rch8w";
      "dist-scheduler-855b885c5d-24nmt";
      "dist-scheduler-855b885c5d-28r24";
      "dist-scheduler-855b885c5d-49ntc";
      "dist-scheduler-855b885c5d-4cfqz" ].
Proof. vm_compute. reflexivity. Qed.

Example TestGetSubMembers_relay1 :
  PodName <$> (GetSubMembers
                 (testSet "dist-scheduler-relay-7b8847c594-8tqd2"
                    "dist-scheduler-relay-7b8847c594-4pzl9" bigPodNameList)).1
  = [ "dist-scheduler-855b885c5d-5lt9t";
      "dist-scheduler-855b885c5d-5nt7m";
      "dist-scheduler-855b885c5d-64dfc";
      "dist-scheduler-855b885c5d-6ld8m";
      "dist-scheduler-855b885c5d-6nh2k";
      "dist-scheduler-855b885c5d-6p5cd";
      "dist-scheduler-855b885c5d-6sl2r";
      "dist-scheduler-855b885c5d-72lpj";
      "dist-scheduler-855b885c5d-7lppz";
      "dist-scheduler-855b885c5d-8jz5m" ].
Proof. vm_compute. reflexivity. Qed.

Example TestGetSubMembers_scheduler :
  (GetSubMembers
     (testSet "dist-scheduler-relay-7b8847c594-8tqd2"
        "dist-scheduler-855b885c5d-24nmt" bigPodNameList)).1 = []
  ∧ (GetSubMembers (testSet "" "" [])).1 = [].
Proof. split; vm_compute; reflexivity. Qed.

(** Published FNV test vectors: FNV-1 and FNV-1a of "a" and "foobar". *)
Example fnv_vectors :
  fnv1_32 "" = 0x811c9dc5
  ∧ fnv1_32 "a" = 0x050c5d7e ∧ fnv1_32 "foobar" = 0x31f0b262
  ∧ fnv1a_32 "a" = 0xe40c292c ∧ fnv1a_32 "foobar" = 0xbf9cf968.
Proof. repeat split; vm_compute; reflexivity. Qed.

End SchedulerSetFacts.

Section ScoreEvaluatorFacts.
Import ScoreEvaluator.

Lemma pick_step_inv seen acc sc :
  pick_inv seen acc → pick_inv (seen ++ [sc]) (pick_step acc sc).
Proof.
  destruct acc as [mx cands]. intros (Hmx & Hc & Hle & Hne).
  unfold pick_step, pick_inv in *. simpl in *.
  assert (Hseen : ∀ sc', sc' ∈ seen ++ [sc] → ScoreVal sc' ≤ Z.max mx (ScoreVal sc)).
  { intros sc' [Hin| ->%list_elem_of_singleton]%elem_of_app;
      [specialize (Hle _ Hin); lia | lia]. }
  assert (Hlast : sc ∈ seen ++ [sc])
    by (apply elem_of_app; right; by apply list_elem_of_singleton).
  assert (Hold : ∀ c, c ∈ cands → c ∈ seen ++ [sc] ∧ ScoreVal c = mx).
  { intros c Hcin. destruct (Hc _ Hcin). split; [|done].
    apply elem_of_app. by left. }
  destruct (Z.gtb_spec (ScoreVal sc) mx) as [Hgt|Hngt]; simpl.
  - split; [lia|]. split; [|split].
    + intros c ->%list_elem_of_singleton. by split.
    + intros sc' Hin. specialize (Hseen _ Hin). lia.
    + done.
  - destruct (Z.eqb_spec (ScoreVal sc) mx) as [Heq|Hneq]; simpl.
    + split; [lia|]. split; [|split].
      * intros c Hcin. destruct (length cands <? 100)%nat; [|by apply Hold].
        apply elem_of_app in Hcin as [Hcin| ->%list_elem_of_singleton];
          [by apply Hold | by split].
      * intros sc' Hin. specialize (Hseen _ Hin). lia.
      * intros _. destruct (Nat.ltb_spec (length cands) 100) as [_|Hlen].
        -- by destruct cands.
        -- destruct cands; [simpl in Hlen; lia | done].
    + split; [lia|]. split; [|split].
      * apply Hold.
      * intros sc' Hin. specialize (Hseen _ Hin). lia.
      * intros [Hlt|(sc' & Hin & Hsc')]; [apply Hne; by left|].
        apply elem_of_app in Hin as [Hin| ->%list_elem_of_singleton];
          [apply Hne; right; by exists sc' | apply Hne; left; lia].
Qed.

Lemma fold_pick_inv scs : ∀ seen acc,
  pick_inv seen acc → pick_inv (seen ++ scs) (fold_left pick_step scs acc).
Proof.
  induction scs as [|sc scs IH]; intros seen acc Hinv; simpl.
  - by rewrite app_nil_r.
  - replace (seen ++ sc :: scs) with ((seen ++ [sc]) ++ scs)
      by (by rewrite <- app_assoc).
    apply IH, pick_step_inv, Hinv.
Qed.

Lemma pick_spec (scs : list Score) : pick_inv scs (pick scs).
Proof.
  apply (fold_pick_inv scs [] (-1, [])).
  split; [simpl; lia|]. split; [|split]; simpl.
  - by intros c ?%elem_of_nil.
  - by intros sc ?%elem_of_nil.
  - intros [Hlt|(sc & Hin%elem_of_nil & _)]; [lia | done].
Qed.

Lemma candidates_exist (scs : list Score) :
  candidates_of scs ≠ [] ↔ ∃ sc, sc ∈ scs ∧ -1 ≤ ScoreVal sc.
Proof.
  destruct (pick_spec scs) as (Hmx & Hc & _ & Hne). unfold candidates_of. split.
  - destruct (pick scs).2 as [|c cs] eqn:E; [done|]. intros _.
    destruct (Hc c) as [Hin Hv]; [by left|].
    exists c. split; [done | lia].
  - intros Hex. apply Hne. by right.
Qed.

Lemma Intn_Some (n r : Z) : 0 < n → ∃ i, Intn n r = Some i ∧ 0 ≤ i < n.
Proof.
  intros Hn. unfold Intn. destruct (Z.leb_spec n 0); [lia|].
  exists (r mod n). split; [done | by apply Z.mod_pos_bound].
Qed.

(** When [fire] has a candidate.  For an evaluator that has not fired
    yet, [fire] takes the winner as
    [candidates[rand.Intn(len(candidates))]].  With an empty score list
    (the deadline goroutine running before any score was appended) the
    candidate list is empty and the selection panics; the same happens
    when every recorded score is below -1, the value the running maximum
    starts from.  When some recorded score is at least -1 a candidate
    exists, [fire] returns, and the winner is a recorded score that no
    recorded score exceeds. *)
Theorem fire_needs_a_candidate (e : t) (id : nat) (o : oneEvaluator)
        (key : string) (r : Z) :
  heap e !! id = Some o →
  ScoreVal (highestScore o) = -1 →
  (scores o = [] → candidates_of (scores o) = [] ∧ fire e id key r = None)
  ∧ ((∀ sc, sc ∈ scores o → ScoreVal sc < -1) → fire e id key r = None)
  ∧ ((∃ sc, sc ∈ scores o ∧ -1 ≤ ScoreVal sc) →
     candidates_of (scores o) ≠ []
     ∧ ∃ e' o' w,
         fire e id key r = Some e'
         ∧ heap e' !! id = Some o'
         ∧ highestScore o' = w
         ∧ candidates_of (scores o)
             !! Z.to_nat (r mod Z.of_nat (length (candidates_of (scores o))))
           = Some w
         ∧ w ∈ scores o
         ∧ ∀ sc, sc ∈ scores o → ScoreVal sc ≤ ScoreVal w).
Proof.
  intros Ho Hunfired.
  assert (Hempty : candidates_of (scores o) = [] → fire e id key r = None).
  { intros Hc. unfold fire. rewrite Ho. simpl. rewrite Hunfired. simpl.
    by rewrite Hc. }
  split; [|split].
  - intros Hs. assert (candidates_of (scores o) = []) by (by rewrite Hs).
    auto.
  - intros Hlow. apply Hempty.
    destruct (candidates_of (scores o)) as [|c cs] eqn:E; [done|].
    assert (Hne : candidates_of (scores o) ≠ []) by (by rewrite E).
    apply candidates_exist in Hne as (sc & Hin & Hsc).
    specialize (Hlow _ Hin). lia.
  - intros Hex. pose proof (proj2 (candidates_exist (scores o)) Hex) as Hne.
    split; [done|].
    destruct (Intn_Some (Z.of_nat (length (candidates_of (scores o)))) r)
      as (i & Hi & Hrange).
    { destruct (candidates_of (scores o)); [done | simpl; lia]. }
    assert (Hi' : i = r mod Z.of_nat (length (candidates_of (scores o)))).
    { unfold Intn in Hi.
      destruct (Z.of_nat (length (candidates_of (scores o))) <=? 0);
        congruence. }
    destruct (lookup_lt_is_Some_2 (candidates_of (scores o)) (Z.to_nat i))
      as [w Hw]; [lia|].
    destruct (pick_spec (scores o)) as (_ & Hc & Hle & _).
    destruct (Hc w) as [Hin Hval];
      [apply list_elem_of_lookup; by exists (Z.to_nat i)|].
    eexists _, _, w. split.
    { unfold fire. rewrite Ho. simpl. rewrite Hunfired. simpl.
      rewrite Hi. simpl. rewrite Hw. simpl. reflexivity. }
    simpl. split.
    { apply list_lookup_insert_eq. by eapply lookup_lt_Some. }
    split; [done|]. split; [by rewrite <- Hi'|]. split; [done|].
    intros sc Hsc. rewrite Hval. by apply Hle.
Qed.

Lemma cache_count_length (esc : gmap string (list SchedulerSet.EndpointItem)) :
  SchedulerSet.cache_GetMemberCount esc
  = Z.of_nat (length (SchedulerSet.cache_GetMembers esc)).
Proof.
  unfold SchedulerSet.cache_GetMemberCount, SchedulerSet.cache_GetMembers.
  induction (map_to_list esc) as [|kv l IH]; simpl; [done|].
  rewrite length_app, IH. lia.
Qed.


Lemma wf_New (ss : SchedulerSet.t) : wf (New ss).
Proof.
  split; [|split; [|split]]; simpl.
  - intros k id H. by rewrite lookup_empty in H.
  - intros id o H. by rewrite lookup_nil in H.
  - by intros c ?%elem_of_nil.
  - by intros r ?%elem_of_nil.
Qed.

Lemma wf_getOrCreate (e : t) (key : string) :
  wf e →
  ∃ o, wf (getOrCreate e key).2
       ∧ heap (getOrCreate e key).2 !! (getOrCreate e key).1 = Some o
       ∧ evKey o = key.
Proof.
  intros Hwf. pose proof Hwf as (H1 & H2 & H3 & H4). unfold getOrCreate.
  destruct (evaluators e !! key) as [id|] eqn:Hk; simpl.
  - destruct (H1 _ _ Hk) as (o & Ho & Hkey). by exists o.
  - exists (startOneEvaluator key e). split; [|split; [|done]].
    + split; [|split; [|split]]; simpl.
      * intros k id Hl. destruct (decide (key = k)) as [->|Hne].
        -- rewrite lookup_insert_eq in Hl. simplify_eq.
           exists (startOneEvaluator k e).
           split; [|done]. by rewrite lookup_app_r, Nat.sub_diag.
        -- rewrite lookup_insert_ne in Hl by done.
           destruct (H1 _ _ Hl) as (o & Ho & Hkey).
           exists o. split; [|done]. by apply lookup_app_l_Some.
      * intros id o [Ho|[_ Ho]]%lookup_app_Some; [by apply (H2 id)|].
        destruct (id - length (heap e))%nat; simpl in Ho; [|done].
        simplify_eq. simpl. split; [by intros sc ?%elem_of_nil | by left].
      * intros c Hc. destruct (H3 _ Hc) as (o & Ho & Hrest).
        exists o. split; [by apply lookup_app_l_Some | done].
      * intros rp Hr. destruct (H4 _ Hr) as (o & Ho & Hrest).
        exists o. split; [by apply lookup_app_l_Some | done].
    + by rewrite lookup_app_r, Nat.sub_diag.
Qed.

(** Rewriting an evaluator in place keeps the invariant when its key and
    winner are unchanged and its scores stay non-negative. *)
Lemma wf_set_heap (e : t) (id : nat) (o o1 : oneEvaluator) :
  wf e → heap e !! id = Some o →
  evKey o1 = evKey o → highestScore o1 = highestScore o →
  (∀ sc, sc ∈ scores o1 → 0 ≤ ScoreVal sc) →
  wf (set_heap e (<[id := o1]> (heap e))).
Proof.
  intros Hwf Ho Hkey Hhs Hsc. pose proof Hwf as (H1 & H2 & H3 & H4).
  pose proof (lookup_lt_Some _ _ _ Ho) as Hlt.
  assert (Hsame : ∀ id' o', heap e !! id' = Some o' →
            ∃ o'', <[id := o1]> (heap e) !! id' = Some o''
                   ∧ evKey o'' = evKey o'
                   ∧ highestScore o'' = highestScore o').
  { intros id' o' Ho'. destruct (decide (id' = id)) as [->|Hne].
    - exists o1. rewrite list_lookup_insert_eq by done. by simplify_eq.
    - exists o'. by rewrite list_lookup_insert_ne. }
  split; [|split; [|split]]; simpl.
  - intros k id' Hl. destruct (H1 _ _ Hl) as (o' & Ho' & Hk').
    destruct (Hsame _ _ Ho') as (o'' & Ho'' & Hk'' & _).
    exists o''. split; [done | congruence].
  - intros id' o' Ho'. destruct (decide (id' = id)) as [->|Hne].
    + rewrite list_lookup_insert_eq in Ho' by done. simplify_eq.
      split; [done|]. rewrite Hhs. by apply (H2 id).
    + rewrite list_lookup_insert_ne in Ho' by done. by apply (H2 id').
  - intros c Hc. destruct (H3 _ Hc) as (o' & Ho' & Hk' & Hs').
    destruct (Hsame _ _ Ho') as (o'' & Ho'' & Hk'' & _).
    exists o''. split; [done|]. split; [congruence | done].
  - intros rp Hr. destruct (H4 _ Hr) as (o' & Ho' & Hk' & Hret & Hpos).
    destruct (Hsame _ _ Ho') as (o'' & Ho'' & Hk'' & Hhs'').
    exists o''. split; [done|]. rewrite Hk'', Hhs''. done.
Qed.

Lemma wf_set_pending (e : t) (p : list Call) :
  wf e →
  (∀ c, c ∈ p → ∃ o, heap e !! callEval c = Some o ∧ evKey o = callKey c
                     ∧ 0 ≤ ScoreVal (callScore c)) →
  wf (set_pending e p).
Proof. intros (H1 & H2 & _ & H4) Hp. by split; [|split; [|split]]. Qed.

(** Selecting a winner for an evaluator that has not fired keeps the
    invariant: nobody was answered by it before, and the new answers all
    carry the stored winner. *)
Lemma wf_fired (e : t) (id : nat) (o : oneEvaluator) (key : string)
      (w : Score) :
  wf e → heap e !! id = Some o → ScoreVal (highestScore o) = -1 →
  w ∈ scores o → wf (fired e id o key w).
Proof.
  intros Hwf Ho Hunfired Hw. pose proof Hwf as (H1 & H2 & H3 & H4).
  pose proof (lookup_lt_Some _ _ _ Ho) as Hlt.
  destruct (H2 _ _ Ho) as [Hscores _].
  set (o' := {| evKey := evKey o; limit := limit o; scores := scores o;
                highestScore := w; waiters := []; ticked := ticked o |}).
  assert (Hsame : ∀ id' o1, heap e !! id' = Some o1 →
            ∃ o2, <[id := o']> (heap e) !! id' = Some o2
                  ∧ evKey o2 = evKey o1
                  ∧ (id' ≠ id → o2 = o1)).
  { intros id' o1 Ho1. destruct (decide (id' = id)) as [->|Hne].
    - exists o'. rewrite list_lookup_insert_eq by done. by simplify_eq.
    - exists o1. by rewrite list_lookup_insert_ne. }
  split; [|split; [|split]]; simpl; fold o'.
  - intros k id' Hl. apply lookup_delete_Some in Hl as [_ Hl].
    destruct (H1 _ _ Hl) as (o1 & Ho1 & Hk1).
    destruct (Hsame _ _ Ho1) as (o2 & Ho2 & Hk2 & _).
    exists o2. split; [done | congruence].
  - intros id' o1 Ho1. destruct (decide (id' = id)) as [->|Hne].
    + rewrite list_lookup_insert_eq in Ho1 by done. simplify_eq. simpl.
      split; [done|]. right. by apply Hscores.
    + rewrite list_lookup_insert_ne in Ho1 by done. by apply (H2 id').
  - intros c Hc. destruct (H3 _ Hc) as (o1 & Ho1 & Hk1 & Hs1).
    destruct (Hsame _ _ Ho1) as (o2 & Ho2 & Hk2 & _).
    exists o2. split; [done|]. split; [congruence | done].
  - intros rp [Hr|Hr]%elem_of_app.
    + destruct (H4 _ Hr) as (o1 & Ho1 & Hk1 & Hret & Hpos).
      destruct (Hsame _ _ Ho1) as (o2 & Ho2 & Hk2 & Heq).
      assert (Hne : evalId rp ≠ id).
      { intros Hid. rewrite Hid in Ho1. simplify_eq. lia. }
      rewrite (Heq Hne) in *. by exists o1.
    + apply list_elem_of_fmap in Hr as (sc & -> & _). simpl.
      exists o'. rewrite list_lookup_insert_eq by done.
      split; [done|]. split; [done|]. split; [done|]. simpl. by apply Hscores.
Qed.

Lemma fire_cases (e e' : t) (id : nat) (o : oneEvaluator) (key : string) (r : Z) :
  heap e !! id = Some o → fire e id key r = Some e' →
  (ScoreVal (highestScore o) ≠ -1 ∧ e' = e)
  ∨ (ScoreVal (highestScore o) = -1
     ∧ ∃ w, w ∈ scores o ∧ e' = fired e id o key w).
Proof.
  intros Ho. unfold fire. rewrite Ho. simpl.
  destruct (Z.eqb_spec (ScoreVal (highestScore o)) (-1)) as [Heq|Hne]; simpl.
  - destruct (Intn _ r) as [i|]; simpl; [|done].
    destruct (candidates_of (scores o) !! Z.to_nat i) as [w|] eqn:Hw; simpl;
      [|done].
    intros [= <-]. right. split; [done|]. exists w. split; [|done].
    destruct (pick_spec (scores o)) as (_ & Hc & _).
    apply Hc. apply list_elem_of_lookup. by exists (Z.to_nat i).
  - intros [= <-]. by left.
Qed.

Lemma wf_add_reply (e : t) (o : oneEvaluator) (key : string) (id : nat)
      (score : Score) :
  wf e → heap e !! id = Some o → evKey o = key →
  0 ≤ ScoreVal (highestScore o) →
  wf (add_reply e {| reqKey := key; evalId := id; reported := score;
                     returned := highestScore o |}).
Proof.
  intros (H1 & H2 & H3 & H4) Ho Hkey Hpos.
  split; [done|]. split; [done|]. split; [done|]. simpl.
  intros rp [Hr| ->%list_elem_of_singleton]%elem_of_app; [by apply H4|].
  simpl. by exists o.
Qed.

Lemma wf_recordScore (e1 e' : t) (id : nat) (o : oneEvaluator) (key : string)
      (score : Score) (r : Z) :
  wf e1 → heap e1 !! id = Some o → evKey o = key → 0 ≤ ScoreVal score →
  recordScore e1 id key score r = Some e' → wf e'.
Proof.
  intros Hwf Ho Hkey Hscore. pose proof Hwf as (_ & H2 & _).
  destruct (H2 _ _ Ho) as [Hscores Hwinner].
  pose proof (lookup_lt_Some _ _ _ Ho) as Hlt.
  assert (Hscores' : ∀ sc, sc ∈ scores o ++ [score] → 0 ≤ ScoreVal sc).
  { intros sc [Hin| ->%list_elem_of_singleton]%elem_of_app; [by apply Hscores | done]. }
  unfold recordScore. rewrite Ho. simpl.
  destruct (Z.of_nat (length (scores o ++ [score])) >=? limit o).
  - set (o1 := {| evKey := evKey o; limit := limit o;
                  scores := scores o ++ [score];
                  highestScore := highestScore o; waiters := waiters o;
                  ticked := ticked o |}).
    set (em := set_heap e1 (<[id := o1]> (heap e1))).
    assert (Hwfm : wf em) by (by apply (wf_set_heap e1 id o o1)).
    assert (Hom : heap em !! id = Some o1)
      by (by apply list_lookup_insert_eq).
    destruct (fire em id key r) as [e2|] eqn:Hfire; simpl; [|done].
    destruct (fire_cases _ _ _ _ _ _ Hom Hfire)
      as [[Hne ->]|[Hunfired (w & Hw & ->)]].
    + rewrite Hom. simpl. intros [= <-].
      apply (wf_add_reply em o1); [done..|]. simpl in *. lia.
    + assert (Hwf2 : wf (fired em id o1 key w)) by (by apply wf_fired).
      assert (Ho2 : heap (fired em id o1 key w) !! id
                    = Some {| evKey := evKey o1; limit := limit o1;
                              scores := scores o1; highestScore := w;
                              waiters := []; ticked := ticked o1 |}).
      { simpl. apply list_lookup_insert_eq. by rewrite length_insert. }
      rewrite Ho2. simpl. intros [= <-].
      eapply (wf_add_reply _ _ key id score Hwf2 Ho2); [done|].
      simpl. by apply Hscores'.
  - intros [= <-]. by apply (wf_set_heap e1 id o).
Qed.

Lemma step_wf (e e' : t) (ev : event) :
  wf e → nonneg_score ev → step e ev = Some e' → wf e'.
Proof.
  intros Hwf Hnn. destruct ev as [ns pod node sc r|ns pod node sc|k r|id r];
    simpl in *.
  - unfold RecordAndWait.
    destruct (wf_getOrCreate e (podKey ns pod) Hwf) as (o & Hwf1 & Ho & Hk).
    destruct (getOrCreate e (podKey ns pod)) as [id e1]. simpl in *.
    by apply (wf_recordScore e1 e' id o).
  - destruct (wf_getOrCreate e (podKey ns pod) Hwf) as (o & Hwf1 & Ho & Hk).
    destruct (getOrCreate e (podKey ns pod)) as [id e1]. simpl in *.
    intros [= <-]. apply wf_set_pending; [done|].
    intros c [Hc| ->%list_elem_of_singleton]%elem_of_app.
    + by apply Hwf1.
    + simpl. by exists o.
  - destruct (pending e !! k) as [c|] eqn:Hc; [|by intros [= <-]].
    pose proof Hwf as (_ & _ & H3 & _).
    destruct (H3 c) as (o & Ho & Hkey & Hpos);
      [apply list_elem_of_lookup; by exists k|].
    apply (wf_recordScore _ e' (callEval c) o); try done.
    apply wf_set_pending; [done|]. intros c' Hc'. apply H3.
    by eapply list_elem_of_delete_inv.
  - destruct (heap e !! id) as [o|] eqn:Ho; [|by intros [= <-]].
    destruct (ticked o); [by intros [= <-]|].
    set (o1 := {| evKey := evKey o; limit := limit o; scores := scores o;
                  highestScore := highestScore o; waiters := waiters o;
                  ticked := true |}).
    set (em := set_heap e (<[id := o1]> (heap e))).
    assert (Hwfm : wf em).
    { apply (wf_set_heap e id o o1); try done.
      pose proof Hwf as (_ & H2 & _). apply (H2 id o Ho). }
    assert (Hom : heap em !! id = Some o1).
    { apply list_lookup_insert_eq. by eapply lookup_lt_Some. }
    intros Hfire.
    destruct (fire_cases _ _ _ _ _ _ Hom Hfire)
      as [[_ ->]|[Hunfired (w & Hw & ->)]]; [done|].
    by apply wf_fired.
Qed.

Lemma run_wf (evs : list event) : ∀ e e',
  wf e → Forall nonneg_score evs → run e evs = Some e' → wf e'.
Proof.
  induction evs as [|ev evs IH]; intros e e' Hwf Hnn; simpl.
  - by intros [= <-].
  - apply Forall_cons in Hnn as [Hev Hnn].
    destruct (step e ev) as [e1|] eqn:Hstep; simpl; [|done].
    apply IH; [|done]. by eapply step_wf.
Qed.

(** C1 (as amended).  In every run of the aggregator in which the
    reported scores are not negative, whatever the interleaving of the
    calls' critical sections and the deadlines, the calls answered by one
    evaluator concern one key and are all given the same winning score;
    [CollectScore] replies permit = true exactly to the callers whose
    reported node is the winner's node, so two permitted callers of one
    evaluator reported the same node.  The guarantee is per evaluator, not
    per key: an evaluator leaves the table when it fires, and a later
    score for the key starts a new one. *)
Theorem one_winner_per_evaluator (ss : SchedulerSet.t) (evs : list event)
        (e : t) (r1 r2 : Reply) :
  Forall nonneg_score evs →
  run (New ss) evs = Some e →
  r1 ∈ replies e → r2 ∈ replies e → evalId r1 = evalId r2 →
  reqKey r1 = reqKey r2
  ∧ returned r1 = returned r2
  ∧ (permit r1 = true ↔ NodeName (reported r1) = NodeName (returned r1))
  ∧ (permit r1 = true → permit r2 = true →
     NodeName (reported r1) = NodeName (reported r2)).
Proof.
  intros Hnn Hrun Hr1 Hr2 Heq.
  destruct (run_wf evs _ _ (wf_New ss) Hnn Hrun) as (_ & _ & _ & H4).
  destruct (H4 _ Hr1) as (o1 & Ho1 & Hk1 & Hret1 & _).
  destruct (H4 _ Hr2) as (o2 & Ho2 & Hk2 & Hret2 & _).
  rewrite Heq in Ho1. simplify_eq.
  assert (Hret : returned r1 = returned r2) by congruence.
  split; [congruence|]. split; [done|]. split.
  - unfold permit. rewrite String.eqb_eq. split; congruence.
  - unfold permit. rewrite !String.eqb_eq, Hret. congruence.
Qed.

(** Why the scores have to be non-negative: a winner with score -1 looks
    like "not fired", so the evaluator of [minus_one_run] fires a second
    time and answers node-a and node-b with permit = true. *)
Example minus_one_fires_twice :
  (λ e, (λ r, (evalId r, NodeName (reported r), permit r)) <$> replies e)
    <$> run (New three_peers) minus_one_run
  = Some [ (0%nat, "node-a", true); (0%nat, "node-b", true);
           (0%nat, "node-c", false) ].
Proof. vm_compute. reflexivity. Qed.

End ScoreEvaluatorFacts.



(** The same statement at [one_score_state]: one recorded score of 7. *)
Lemma fire_needs_a_candidate_witness :
  ScoreEvaluator.candidates_of
    [ScoreEvaluator.mkScore "node-a" 7] ≠ [].
Proof.
  pose proof (fire_needs_a_candidate one_score_state 0
                (ScoreEvaluator.mkEval "default/p" 2
                   [ScoreEvaluator.mkScore "node-a" 7]
                   (ScoreEvaluator.mkScore "" (-1))
                   [ScoreEvaluator.mkScore "node-a" 7] false)
                "default/p" 0 eq_refl eq_refl) as (_ & _ & H).
  apply H. exists (ScoreEvaluator.mkScore "node-a" 7).
  split; [by left | simpl; lia].
Defined.

(** A recorded score alone does not give a candidate: a single score of
    -2 leaves the candidate list empty. *)
Lemma fire_negative_score_counterexample :
  ¬ (∀ scs : list ScoreEvaluator.Score,
       scs ≠ [] → ScoreEvaluator.candidates_of scs ≠ []).
Proof.
  intros H. by apply (H [ScoreEvaluator.mkScore "node-a" (-2)]).
Qed.

(** C9.  The code at a recorded score below -1.  The score -2 for the pod
    "default/p" is a value the int32 field of the request carries.  With
    it recorded nothing reaches the maximum [fire] starts from, -1: the
    candidate list is empty although a score has been recorded, and
    [candidates[rand.Intn(len(candidates))]] panics, under the comment
    "There should always be at least one".  This happens when the
    deadline passes, and in solo mode within the call that reports the
    score. *)
Theorem fire_panics_with_a_recorded_score :
  ScoreEvaluator.scores
    <$> ScoreEvaluator.heap below_minus_one_state !! 0%nat
  = Some [ScoreEvaluator.mkScore "node-a" (-2)]
  ∧ ScoreEvaluator.candidates_of [ScoreEvaluator.mkScore "node-a" (-2)] = []
  ∧ ScoreEvaluator.fire below_minus_one_state 0 "default/p" 0 = None
  ∧ ScoreEvaluator.step (ScoreEvaluator.New three_peers)
      (ScoreEvaluator.CollectScore "default" "p" "node-a" (-2) 0)
    = Some below_minus_one_state
  ∧ ScoreEvaluator.run (ScoreEvaluator.New three_peers) below_minus_one_run
    = None
  ∧ ScoreEvaluator.step (ScoreEvaluator.New solo_set)
      (ScoreEvaluator.CollectScore "default" "p" "node-a" (-2) 0)
    = None.
Proof.
  split; [reflexivity|]. split; [reflexivity|].
  split; [vm_compute; reflexivity|]. split; [vm_compute; reflexivity|].
  split; vm_compute; reflexivity.
Qed.

Section LatchFacts.
Import Latch.

Lemma Done_times_mutex (k : nat) : ∀ c,
  Done_times k (AsMutex c) = Some (AsMutex (c - Z.of_nat k)).
Proof.
  induction k as [|k IH]; intros c; simpl.
  - f_equal. f_equal. lia.
  - rewrite IH. f_equal. f_equal. lia.
Qed.

Lemma Done_times_waitgroup (k : nat) : ∀ c,
  Z.of_nat k ≤ c →
  Done_times k (AsWaitGroup c) = Some (AsWaitGroup (c - Z.of_nat k)).
Proof.
  induction k as [|k IH]; intros c Hk.
  - simpl. f_equal. f_equal. lia.
  - cbn [Done_times Done]. destruct (Z.ltb_spec (c - 1) 0); [lia|].
    simpl. rewrite IH by lia. f_equal. f_equal. lia.
Qed.

Lemma binary_round_aux_sign (s : bool) (m e : Z) (l : location) :
  sign_bit (binary_round_aux prec emax s m e l) = s
  ∨ binary_round_aux prec emax s m e l = S754_nan.
Proof.
  unfold binary_round_aux.
  destruct (shr_fexp prec emax m e l) as [mrs' e'].
  destruct (shr_fexp prec emax _ e' loc_Exact) as [mrs'' e''].
  destruct (shr_m mrs''); [by left | | by right].
  destruct (e'' <=? emax - prec); by left.
Qed.

Lemma of_int_sign (n : Z) : 0 ≤ n → sign_bit (of_int n) = false.
Proof.
  intros Hn. unfold of_int, binary_normalize.
  destruct n as [|p|p]; [done | | lia].
  unfold binary_round. destruct (shl_align p 0 _) as [mz ez].
  destruct (binary_round_aux_sign false (Z.pos mz) ez loc_Exact) as [H|H];
    [done | by rewrite H].
Qed.

Lemma SFmul_sign (x y : spec_float) :
  sign_bit x = false → sign_bit y = false →
  sign_bit (SFmul prec emax x y) = false.
Proof.
  destruct x as [sx|sx| |sx mx ex], y as [sy|sy| |sy my ey];
    intros Hx Hy; cbn [sign_bit] in Hx, Hy; subst;
    unfold SFmul; cbv iota beta; cbn [xorb]; try done.
  destruct (binary_round_aux_sign false (Z.pos (mx * my)) (ex + ey) loc_Exact)
    as [H|H]; [done | by rewrite H].
Qed.

(** On a float that is not negative, [int(x)] is the floor of its value. *)
Lemma to_int_floor (x : spec_float) :
  sign_bit x = false → to_int x = Qfloor (to_Q x).
Proof.
  destruct x as [sx|sx| |sx m e]; simpl; try done. intros Hs. subst sx.
  destruct (Z.geb_spec e 0) as [Hge|Hlt].
  - by rewrite Qfloor_Z.
  - simpl. rewrite Z2Pos.id; [done|]. apply Z.pow_pos_nonneg; lia.
Qed.

(** C2 (as amended).  For n ≥ 0: with a ratio above 0.999999 (so with
    1.0) the latch is a wait group and [Wait] returns exactly when all n
    [Done()] calls have been observed.  With any other ratio it is a
    counter started at T = int(float64(n) * ratio) and [Wait] returns
    exactly when at least T calls have been observed (at once when
    T ≤ 0); for a ratio that is not negative, T is the floor of the
    float64 product, so the threshold is ⌊n·r⌋ and not ⌈n·r⌉. *)
Theorem latch_threshold (n : Z) (ratio : spec_float) (k : nat) :
  0 ≤ n →
  NewCountDownLatch n (of_int 1) = Some (AsWaitGroup n)
  ∧ (SFltb c0_999999 ratio = true →
     NewCountDownLatch n ratio = Some (AsWaitGroup n)
     ∧ (Z.of_nat k ≤ n →
        (fired_after k (AsWaitGroup n) = true ↔ Z.of_nat k = n)))
  ∧ (SFltb c0_999999 ratio = false →
     let T := to_int (SFmul prec emax (of_int n) ratio) in
     NewCountDownLatch n ratio = Some (AsMutex T)
     ∧ (fired_after k (AsMutex T) = true ↔ T ≤ Z.of_nat k)
     ∧ (sign_bit ratio = false →
        T = Qfloor (to_Q (SFmul prec emax (of_int n) ratio)))).
Proof.
  intros Hn.
  assert (Hwg : ∀ r, SFltb c0_999999 r = true →
                     NewCountDownLatch n r = Some (AsWaitGroup n)).
  { intros r Hr. unfold NewCountDownLatch. rewrite Hr.
    destruct (Z.ltb_spec n 0); [lia | done]. }
  split; [by apply Hwg|]. split.
  - intros Hr. split; [by apply Hwg|]. intros Hk.
    unfold fired_after. rewrite Done_times_waitgroup by done. simpl.
    rewrite Z.eqb_eq. lia.
  - intros Hr T. split; [|split].
    + unfold NewCountDownLatch. by rewrite Hr.
    + unfold fired_after. rewrite Done_times_mutex. simpl.
      rewrite Z.leb_le. lia.
    + intros Hs. apply to_int_floor, SFmul_sign; [by apply of_int_sign | done].
Qed.

End LatchFacts.

(** The same statement for three sub-members and ratio [half]: the latch
    starts at 1. *)
Lemma latch_threshold_witness :
  Latch.NewCountDownLatch 3 half = Some (Latch.AsMutex 1).
Proof.
  pose proof (latch_threshold 3 half 1) as (_ & _ & H); [lia|].
  destruct H as (H & _); [vm_compute; reflexivity|].
  rewrite H. vm_compute. reflexivity.
Defined.

(** C2, refuted as stated: for n = 3 and r = 0.5 the latch has fired
    after one [Done()], while ⌈3·0.5⌉ = 2. *)
Lemma latch_ceiling_counterexample :
  ¬ (∀ (n : Z) (ratio : spec_float) (l : Latch.CountDownLatch) (k : nat),
       0 ≤ n → (0 <= Latch.to_Q ratio <= 1)%Q →
       Latch.NewCountDownLatch n ratio = Some l →
       (Latch.fired_after k l = true
        ↔ Qceiling (inject_Z n * Latch.to_Q ratio) ≤ Z.of_nat k)).
Proof.
  intros H.
  destruct (H 3 half (Latch.AsMutex 1) 1%nat) as [Hfwd _].
  - lia.
  - split; vm_compute; discriminate.
  - vm_compute. reflexivity.
  - assert (Hfired : Latch.fired_after 1 (Latch.AsMutex 1) = true)
      by (vm_compute; reflexivity).
    specialize (Hfwd Hfired). vm_compute in Hfwd. by apply Hfwd.
Qed.

Section DistPermitFacts.
Import SchedulerSet DistPermit.

(** C8.  Called with the cache mutex free and a target that has an
    address, [SendScore] returns, and: with score 0 the result is false
    and no call is awaited (once a connection exists the one call made is
    spawned and left alone); when no connection can be set up the result
    is false and no call is made; when the awaited call fails the result
    is false; otherwise the result is the permit of the [CollectScore]
    response. *)
Theorem SendScore_result (net : Net) (st : State)
        (target : EndpointItem) (podName namespace nodeName : string)
        (score : Z) (a : string) (rest : list string) :
  Addresses target = a :: rest →
  clientCacheLock st = false →
  let addr := GRPCAddress a "50051" in
  let request := {| reqPodName := podName; reqNamespace := namespace;
                    reqNodeName := nodeName; reqScore := int32 score |} in
  ∃ permit st' calls,
    SendScore net st target podName namespace nodeName score
    = Some (Returned permit st' calls)
    ∧ (score = 0 →
       permit = false
       ∧ Forall (λ c, is_awaited c = false) calls
       ∧ ∀ conn, connection net st addr = Some conn →
                 calls = [Spawned conn request])
    ∧ (connection net st addr = None → permit = false ∧ calls = [])
    ∧ (∀ conn, score ≠ 0 →
               connection net st addr = Some conn →
               CollectScore net conn request = None →
               permit = false ∧ calls = [Awaited conn request])
    ∧ (∀ conn p, score ≠ 0 →
                 connection net st addr = Some conn →
                 CollectScore net conn request = Some p →
                 permit = p ∧ calls = [Awaited conn request]).
Proof.
  intros Haddr Hlock addr request. unfold SendScore, connection.
  rewrite Haddr, Hlock. cbn [lookup list_lookup mbind option_bind]. fold addr.
  destruct (clientCache st !! addr) as [conn|] eqn:Hcache.
  - fold request. destruct (Z.eqb_spec score 0) as [Hz|Hnz].
    + eexists _, _, _. split; [reflexivity|]. repeat split; try done.
      * by repeat constructor.
      * by intros ? [= <-].
    + destruct (CollectScore net conn request) as [p|] eqn:Hrpc;
        (eexists _, _, _; split; [reflexivity|]); repeat split; try done;
        intros; by simplify_eq.
  - destruct (NewClient net addr) as [conn|] eqn:Hdial.
    + fold request. destruct (Z.eqb_spec score 0) as [Hz|Hnz].
      * eexists _, _, _. split; [reflexivity|]. repeat split; try done.
        -- by repeat constructor.
        -- by intros ? [= <-].
      * destruct (CollectScore net conn request) as [p|] eqn:Hrpc;
          (eexists _, _, _; split; [reflexivity|]); repeat split; try done;
          intros; by simplify_eq.
    + eexists _, _, _. split; [reflexivity|]. repeat split; try done.
Qed.

End DistPermitFacts.

(** The same statement on [friendly_net]: a score of 7 for "node-a" sent
    to a member of [three_peers] is permitted. *)
Lemma SendScore_result_witness :
  ∃ st' calls,
    DistPermit.SendScore friendly_net (DistPermit.mkState false ∅)
      (SchedulerSet.mkEndpointItem "dist-scheduler-2" ["10.0.0.2"])
      "p" "default" "node-a" 7
    = Some (DistPermit.Returned true st' calls).
Proof.
  destruct (SendScore_result friendly_net (DistPermit.mkState false ∅)
              (SchedulerSet.mkEndpointItem "dist-scheduler-2" ["10.0.0.2"])
              "p" "default" "node-a" 7 "10.0.0.2" [] eq_refl eq_refl)
    as (permit & st' & calls & Hrun & _ & _ & _ & H).
  destruct (H (DistPermit.mkConn "10.0.0.2:50051") true) as [-> _];
    [lia | vm_compute; reflexivity | vm_compute; reflexivity |].
  by exists st', calls.
Defined.

Section PartitionerFacts.
Import SchedulerSet Partitioner.

Lemma desiredNodeCount_covers (n g : Z) :
  0 ≤ n → 0 < g →
  0 ≤ desiredNodeCount n g ∧ n ≤ g * desiredNodeCount n g.
Proof.
  intros Hn Hg. unfold desiredNodeCount.
  pose proof (Z.div_mod (n + g - 1) g) as Hdm.
  pose proof (Z.mod_pos_bound (n + g - 1) g Hg) as Hmod.
  split; [apply Z.div_pos; lia | lia].
Qed.

Lemma countOf_insert (counts : gmap string Z) (g g' : string) (c : Z) :
  countOf (<[g := c]> counts) g' = if decide (g = g') then c else countOf counts g'.
Proof.
  unfold countOf. destruct (decide (g = g')) as [->|Hne].
  - by rewrite lookup_insert_eq.
  - by rewrite lookup_insert_ne.
Qed.

Lemma totalCount_insert_notin (counts : gmap string Z) (groups : list string)
      (g : string) (c : Z) :
  g ∉ groups → totalCount (<[g := c]> counts) groups = totalCount counts groups.
Proof.
  induction groups as [|g' groups IH]; intros Hnot; simpl; [done|].
  apply not_elem_of_cons in Hnot as [Hne Hnot].
  rewrite countOf_insert, IH by done. by destruct (decide (g = g')).
Qed.

Lemma totalCount_insert (counts : gmap string Z) (groups : list string)
      (g : string) (c : Z) :
  NoDup groups → g ∈ groups →
  totalCount (<[g := c]> counts) groups
  = totalCount counts groups - countOf counts g + c.
Proof.
  induction groups as [|g' groups IH]; intros Hnd Hin; simpl.
  - by apply elem_of_nil in Hin.
  - apply NoDup_cons in Hnd as [Hnot Hnd]. rewrite countOf_insert.
    destruct (decide (g = g')) as [<-|Hne].
    + rewrite totalCount_insert_notin by done. lia.
    + apply elem_of_cons in Hin as [?|Hin]; [done|]. rewrite IH by done. lia.
Qed.

Lemma totalCount_short_exists (counts : gmap string Z) (groups : list string)
      (desired : Z) :
  totalCount counts groups < Z.of_nat (length groups) * desired →
  ∃ g, g ∈ groups ∧ countOf counts g < desired.
Proof.
  induction groups as [|g groups IH]; simpl; [lia|]. intros Hlt.
  destruct (Z.lt_ge_cases (countOf counts g) desired) as [Hs|Hfull].
  - exists g. split; [by left | done].
  - destruct IH as (g' & Hin & Hs); [lia|]. exists g'. split; [by right | done].
Qed.

Lemma initCounts_lookup (schedulers : list EndpointItem) (g : string) :
  initCounts schedulers !! g
  = if decide (g ∈ PodName <$> schedulers) then Some 0 else None.
Proof.
  unfold initCounts.
  assert (Hgen : ∀ c0 : gmap string Z,
             fold_left (λ counts m, <[PodName m := 0]> counts) schedulers c0 !! g
             = if decide (g ∈ PodName <$> schedulers) then Some 0 else c0 !! g).
  { induction schedulers as [|m ms IH]; intros c0; cbn [fold_left].
    - case_decide as Hin; [by apply elem_of_nil in Hin | done].
    - rewrite IH, fmap_cons.
      destruct (decide (g ∈ PodName <$> ms)) as [Hin|Hnot].
      + rewrite decide_True by (by right). done.
      + destruct (decide (g = PodName m)) as [->|Hne].
        * rewrite lookup_insert_eq, decide_True by (by left). done.
        * rewrite lookup_insert_ne by done.
          rewrite decide_False; [done|].
          intros [?|?]%elem_of_cons; done. }
  rewrite Hgen. by rewrite lookup_empty.
Qed.

Lemma totalCount_zero (counts : gmap string Z) (groups : list string) :
  (∀ g, g ∈ groups → countOf counts g = 0) → totalCount counts groups = 0.
Proof.
  induction groups as [|g groups IH]; intros H; simpl; [done|].
  rewrite H by (by left). rewrite IH; [done|]. intros g' Hg'. apply H. by right.
Qed.

Lemma counts_ok_insert names desired counts g c :
  counts_ok names desired counts → g ∈ names → 0 ≤ c ≤ desired →
  counts_ok names desired (<[g := c]> counts).
Proof.
  intros [Hdom Hle] Hin Hc. split.
  - intros g'. destruct (decide (g = g')) as [<-|Hne].
    + rewrite lookup_insert_eq. split; [done | by eexists].
    + rewrite lookup_insert_ne by done. apply Hdom.
  - intros g'. rewrite countOf_insert. destruct (decide (g = g')); [done|].
    apply Hle.
Qed.

(** The float computation of the source and the integer form agree on
    every inventory of up to 200 nodes and up to 30 schedulers. *)
Lemma desired_float64_agrees :
  forallb (λ n, forallb (λ g, desired_float64 (Z.of_nat n) (Z.of_nat g)
                              =? desiredNodeCount (Z.of_nat n) (Z.of_nat g))
                        (seq 1 30))
          (seq 0 201) = true.
Proof. vm_compute. reflexivity. Qed.

Lemma keep_step_cases desired counts tm n :
  (∃ g c, groupLabel n = Some g ∧ counts !! g = Some c ∧ c < desired
          ∧ keep_step desired (counts, tm) n = (<[g := c + 1]> counts, tm))
  ∨ keep_step desired (counts, tm) n = (counts, tm ++ [n]).
Proof.
  unfold keep_step. destruct (groupLabel n) as [g|]; [|by right].
  destruct (counts !! g) as [c|] eqn:Hc; [|by right].
  destruct (Z.ltb_spec c desired); [left; by exists g, c | by right].
Qed.

Lemma firstPass_ok names desired nodes : ∀ counts tm counts' tm',
  counts_ok names desired counts →
  fold_left (keep_step desired) nodes (counts, tm) = (counts', tm') →
  counts_ok names desired counts' ∧ ∃ suffix, tm' = tm ++ suffix.
Proof.
  induction nodes as [|n nodes IH]; intros counts tm counts' tm' Hok; cbn [fold_left].
  - intros [= <- <-]. split; [done|]. exists []. by rewrite app_nil_r.
  - destruct (keep_step_cases desired counts tm n)
      as [(g & c & Hl & Hc & Hlt & ->)| ->]; intros Hfold.
    + apply IH in Hfold; [done|]. apply counts_ok_insert; [done| |].
      * apply Hok. by eexists.
      * destruct Hok as [_ Hle]. specialize (Hle g). unfold countOf in Hle.
        rewrite Hc in Hle. simpl in Hle. lia.
    + apply IH in Hfold as [Hok' [suffix ->]]; [|done]. split; [done|].
      exists (n :: suffix). by rewrite <- app_assoc.
Qed.

Lemma firstPass_total names desired nodes : ∀ counts tm counts' tm',
  NoDup names → counts_ok names desired counts →
  fold_left (keep_step desired) nodes (counts, tm) = (counts', tm') →
  totalCount counts' names + Z.of_nat (length tm')
  = totalCount counts names + Z.of_nat (length tm) + Z.of_nat (length nodes).
Proof.
  induction nodes as [|n nodes IH]; intros counts tm counts' tm' Hnd Hok; cbn [fold_left].
  - intros [= <- <-]. simpl. lia.
  - destruct (keep_step_cases desired counts tm n)
      as [(g & c & Hl & Hc & Hlt & ->)| ->]; intros Hfold.
    + assert (Hin : g ∈ names) by (apply Hok; by eexists).
      assert (Hcount : countOf counts g = c) by (unfold countOf; by rewrite Hc).
      apply IH in Hfold; [|done|].
      * rewrite Hfold, totalCount_insert by done. cbn [length]. lia.
      * apply counts_ok_insert; [done..|].
        destruct Hok as [_ Hle]. specialize (Hle g). lia.
    + apply IH in Hfold; [|done..]. rewrite Hfold, length_app. cbn [length]. lia.
Qed.

Lemma groupSize_cons n nodes g :
  groupSize (n :: nodes) g
  = (if decide (groupLabel n = Some g) then 1 else 0) + groupSize nodes g.
Proof.
  unfold groupSize. rewrite filter_cons. case_decide; simpl; lia.
Qed.

(** A first pass that leaves nothing to move has kept every node in the
    group its label names, and counted it there. *)
Lemma firstPass_keeps_all desired nodes : ∀ counts tm counts',
  fold_left (keep_step desired) nodes (counts, tm) = (counts', []) →
  tm = []
  ∧ (∀ n, n ∈ nodes → ∃ g, groupLabel n = Some g ∧ is_Some (counts' !! g))
  ∧ (∀ g, is_Some (counts' !! g) ↔ is_Some (counts !! g))
  ∧ (∀ g, countOf counts' g = countOf counts g + groupSize nodes g).
Proof.
  induction nodes as [|n nodes IH]; intros counts tm counts'; cbn [fold_left].
  - intros [= Hcs Htm]. subst. split; [done|].
    split; [by intros n ?%elem_of_nil|].
    split; [done|]. intros g. unfold groupSize. simpl. lia.
  - destruct (keep_step_cases desired counts tm n)
      as [(g & c & Hl & Hc & Hlt & ->)| ->]; intros Hfold.
    + destruct (IH _ _ _ Hfold) as (-> & Hall & Hdom & Hcnt).
      assert (Hdom' : ∀ g', is_Some (counts' !! g') ↔ is_Some (counts !! g')).
      { intros g'. rewrite Hdom. destruct (decide (g = g')) as [<-|Hne].
        - rewrite lookup_insert_eq, Hc. split; by eexists.
        - by rewrite lookup_insert_ne. }
      split; [done|]. split; [|split; [done|]].
      * intros n' [->|Hin]%elem_of_cons; [|by apply Hall].
        exists g. split; [done|]. apply Hdom'. by eexists.
      * intros g'. rewrite Hcnt, countOf_insert, groupSize_cons, Hl.
        destruct (decide (g = g')) as [<-|Hne].
        -- rewrite decide_True by done. unfold countOf. rewrite Hc. simpl. lia.
        -- rewrite decide_False by congruence. lia.
    + destruct (IH _ _ _ Hfold) as (Hnil & _). by destruct tm.
Qed.

Lemma elem_of_delete_NoDup {A} (l : list A) (j : nat) (x y : A) :
  NoDup l → l !! j = Some x → y ∈ delete j l ↔ y ∈ l ∧ y ≠ x.
Proof.
  intros Hnd Hj. rewrite delete_take_drop.
  rewrite <- (take_drop_middle l j x Hj) in Hnd at 1.
  rewrite <- (take_drop_middle l j x Hj) at 3.
  apply NoDup_app in Hnd as (_ & Hdisj & Hnd').
  apply NoDup_cons in Hnd' as [Hnot _].
  rewrite !elem_of_app, elem_of_cons. split.
  - intros [Hy|Hy].
    + split; [by left|]. intros ->. apply (Hdisj x Hy). by left.
    + split; [right; by right|]. by intros ->.
  - intros [[Hy|[->|Hy]] Hne]; [by left | done | by right].
Qed.

Lemma shortGroupsOf_elem names desired counts order g :
  counts_ok names desired counts → order ≡ₚ names →
  g ∈ shortGroupsOf desired counts order
  ↔ g ∈ names ∧ countOf counts g < desired.
Proof.
  intros [Hdom _] Hperm. unfold shortGroupsOf, isShort, countOf.
  rewrite list_elem_of_filter, Hperm. split.
  - intros [Hs Hin]. split; [done|].
    destruct (counts !! g) as [c|]; [|done]. simpl. by apply Z.ltb_lt.
  - intros [Hin Hlt]. split; [|done].
    destruct (Hdom g) as [_ [c Hc]]; [done|]. rewrite Hc in *. simpl in Hlt.
    by apply Z.ltb_lt.
Qed.

(** The second loop never runs out of short groups while the nodes still
    to place fit into the free capacity, and it places every node. *)
Lemma secondPass_ok names desired : NoDup names →
  ∀ tm i counts shortGroups patches,
    counts_ok names desired counts →
    NoDup shortGroups →
    (∀ g, g ∈ shortGroups ↔ g ∈ names ∧ countOf counts g < desired) →
    totalCount counts names + Z.of_nat (length tm)
      ≤ Z.of_nat (length names) * desired →
    ∃ counts' shortGroups' patches',
      secondPass desired i tm counts shortGroups patches
      = Some (counts', shortGroups', patches')
      ∧ counts_ok names desired counts'
      ∧ totalCount counts' names
        = totalCount counts names + Z.of_nat (length tm).
Proof.
  intros Hnd.
  induction tm as [|node rest IH];
    intros i counts sg patches Hok Hsg Hshort Hfit.
  - simpl. eexists _, _, _. split; [done|]. split; [done|]. lia.
  - cbn [secondPass]. cbn [length] in Hfit.
    destruct (totalCount_short_exists counts names desired) as (g0 & Hg0 & Hs0);
      [lia|].
    assert (Hne : length sg ≠ 0%nat).
    { destruct sg; [|done]. exfalso.
      apply (elem_of_nil g0). apply Hshort. by split. }
    destruct (Nat.eqb_spec (length sg) 0) as [|_]; [done|].
    destruct (lookup_lt_is_Some_2 sg (i mod length sg)) as [dp Hdp].
    { by apply Nat.mod_upper_bound. }
    rewrite Hdp. cbn [mbind option_bind].
    assert (Hin : dp ∈ sg) by (apply list_elem_of_lookup; eauto).
    apply Hshort in Hin as [Hnames Hlt].
    change (default 0 (counts !! dp)) with (countOf counts dp).
    set (count := countOf counts dp + 1).
    destruct Hok as [Hdom Hle]. pose proof (Hle dp) as Hdpb.
    assert (Hok1 : counts_ok names desired (<[dp := count]> counts)).
    { apply counts_ok_insert; [by split | done | unfold count; lia]. }
    assert (Htot : totalCount (<[dp := count]> counts) names
                   = totalCount counts names + 1).
    { rewrite totalCount_insert by done. unfold count. lia. }
    edestruct (IH (S i) (<[dp := count]> counts)
                 (if count >=? desired then delete (i mod length sg)%nat sg else sg))
      as (counts' & sg' & patches' & Hrun & Hok' & Htot').
    + exact Hok1.
    + destruct (count >=? desired); [|done].
      eapply sublist_NoDup; [done | apply sublist_delete].
    + intros g. rewrite countOf_insert.
      destruct (Z.geb_spec count desired) as [Hfull|Hroom].
      * rewrite (elem_of_delete_NoDup sg _ dp g Hsg Hdp), Hshort.
        destruct (decide (dp = g)) as [<-|Hneq].
        -- split; [by intros [_ ?] | lia].
        -- split; [by intros [? _] | intros ?; split; [done | congruence]].
      * rewrite Hshort. destruct (decide (dp = g)) as [<-|Hneq]; [|done].
        split; intros _; (split; [done | lia]).
    + lia.
    + eexists _, _, _. split; [exact Hrun|]. split; [done|].
      cbn [length]. lia.
Qed.

(** C6.  For a scheduler set with distinct pod names and at least one
    non-relay member, whatever order the map is ranged over, one run of
    [updateNodeLabels] completes; afterwards the counts of the scheduler
    groups sum to the number of nodes, the counted groups are exactly the
    schedulers, and no count exceeds
    desired = ceil(|nodes| / |schedulers|). *)
Theorem updateNodeLabels_counts (members : list EndpointItem)
        (rangeOrder : list string) (nodeList : list Node) :
  let names := PodName <$> schedulersOf members in
  let desired := desiredNodeCount (Z.of_nat (length nodeList))
                                  (Z.of_nat (length names)) in
  NoDup names → names ≠ [] → rangeOrder ≡ₚ names →
  ∃ res,
    updateNodeLabels members rangeOrder nodeList = Some res
    ∧ totalCount (nodeCountPerGroup res) names = Z.of_nat (length nodeList)
    ∧ (∀ g, is_Some (nodeCountPerGroup res !! g) ↔ g ∈ names)
    ∧ (∀ g c, nodeCountPerGroup res !! g = Some c → 0 ≤ c ≤ desired).
Proof.
  intros names desired Hnd Hne Hperm.
  assert (Hlen : length names = length (schedulersOf members))
    by apply length_fmap.
  assert (Hpos : 0 < Z.of_nat (length names))
    by (destruct names; [done | simpl; lia]).
  destruct (desiredNodeCount_covers (Z.of_nat (length nodeList))
              (Z.of_nat (length names))) as [Hd0 Hcover]; [lia | done |].
  fold desired in Hd0, Hcover.
  assert (Hok0 : counts_ok names desired (initCounts (schedulersOf members))).
  { split; intros g; unfold countOf; rewrite initCounts_lookup;
      fold names; case_decide; simpl; try lia.
    - split; [done | by eexists].
    - split; [by intros [? ?] | done]. }
  assert (Htot0 : totalCount (initCounts (schedulersOf members)) names = 0).
  { apply totalCount_zero. intros g Hg. unfold countOf.
    rewrite initCounts_lookup. fold names. by rewrite decide_True. }
  assert (Hfinish : ∀ counts, counts_ok names desired counts →
            totalCount counts names = Z.of_nat (length nodeList) →
            totalCount counts names = Z.of_nat (length nodeList)
            ∧ (∀ g, is_Some (counts !! g) ↔ g ∈ names)
            ∧ (∀ g c, counts !! g = Some c → 0 ≤ c ≤ desired)).
  { intros counts [Hdom Hle] Htot. split; [done|]. split; [done|].
    intros g c Hc. specialize (Hle g). unfold countOf in Hle.
    by rewrite Hc in Hle. }
  unfold updateNodeLabels. rewrite <- Hlen.
  destruct (Nat.eqb_spec (length names) 0) as [Hz|_]; [lia|].
  fold desired.
  destruct (firstPass desired (initCounts (schedulersOf members)) nodeList)
    as [counts1 toMove1] eqn:Hfirst. unfold firstPass in Hfirst.
  destruct (firstPass_ok names desired _ _ _ _ _ Hok0 Hfirst) as [Hok1 _].
  pose proof (firstPass_total names desired _ _ _ _ _ Hnd Hok0 Hfirst) as Htot1.
  rewrite Htot0 in Htot1. cbn [length] in Htot1.
  destruct (Nat.eqb_spec (length toMove1) 0) as [Hnone|Hsome].
  { eexists. split; [done|]. apply Hfinish; [done|]. simpl. lia. }
  assert (Hshort : ∀ g, g ∈ shortGroupsOf desired counts1 rangeOrder
                        ↔ g ∈ names ∧ countOf counts1 g < desired)
    by (intros g; by apply shortGroupsOf_elem).
  destruct (totalCount_short_exists counts1 names desired) as (g0 & Hg0 & Hs0);
    [lia|].
  destruct (Nat.eqb_spec (length (shortGroupsOf desired counts1 rangeOrder)) 0)
    as [Hempty|_].
  { exfalso. assert (Hin : g0 ∈ shortGroupsOf desired counts1 rangeOrder)
      by (by apply Hshort).
    destruct (shortGroupsOf desired counts1 rangeOrder); [|done].
    by apply elem_of_nil in Hin. }
  destruct (secondPass_ok names desired Hnd toMove1 0%nat counts1
              (shortGroupsOf desired counts1 rangeOrder) [])
    as (counts' & sg' & patches' & Hrun & Hok' & Htot'); try done.
  - apply NoDup_filter. by rewrite Hperm.
  - lia.
  - rewrite Hrun. cbn [mbind option_bind]. eexists. split; [done|].
    apply Hfinish; [done|]. simpl. lia.
Qed.

Lemma initCounts_ok (schedulers : list EndpointItem) (desired : Z) :
  0 ≤ desired →
  counts_ok (PodName <$> schedulers) desired (initCounts schedulers)
  ∧ ∀ g, countOf (initCounts schedulers) g = 0.
Proof.
  intros Hd. split; [split|]; intros g; unfold countOf;
    rewrite initCounts_lookup; case_decide; simpl; try lia.
  - split; [done | by eexists].
  - split; [by intros [? ?] | done].
Qed.

(** C5 (as amended).  A run of the partitioner that finds no node to
    move (its "Moved 0 nodes" return) issues no patch, and then every node
    is labelled for a scheduler of the set, each scheduler's count is the
    number of nodes labelled for it, and no group is larger than
    desired = ceil(|nodes| / |schedulers|).  So at such a fixed point the
    largest and the smallest group differ by at most desired; a difference
    of at most 1 is not guaranteed. *)
Theorem fixed_point_groups (members : list EndpointItem)
        (rangeOrder : list string) (nodeList : list Node) (res : Result) :
  let names := PodName <$> schedulersOf members in
  let desired := desiredNodeCount (Z.of_nat (length nodeList))
                                  (Z.of_nat (length names)) in
  names ≠ [] →
  updateNodeLabels members rangeOrder nodeList = Some res →
  toMove res = [] →
  patches res = []
  ∧ (∀ n, n ∈ nodeList → ∃ g, groupLabel n = Some g ∧ g ∈ names)
  ∧ (∀ g, g ∈ names →
          nodeCountPerGroup res !! g = Some (groupSize nodeList g)
          ∧ 0 ≤ groupSize nodeList g ≤ desired)
  ∧ (∀ g1 g2, g1 ∈ names → g2 ∈ names →
              groupSize nodeList g1 - groupSize nodeList g2 ≤ desired).
Proof.
  intros names desired Hne.
  assert (Hlen : length names = length (schedulersOf members))
    by apply length_fmap.
  assert (Hpos : 0 < Z.of_nat (length names))
    by (destruct names; [done | simpl; lia]).
  destruct (desiredNodeCount_covers (Z.of_nat (length nodeList))
              (Z.of_nat (length names))) as [Hd0 _]; [lia | done |].
  fold desired in Hd0.
  destruct (initCounts_ok (schedulersOf members) desired Hd0) as [Hok0 Hzero].
  fold names in Hok0.
  unfold updateNodeLabels. rewrite <- Hlen.
  destruct (Nat.eqb_spec (length names) 0) as [Hz|_]; [lia|].
  fold desired.
  destruct (firstPass desired (initCounts (schedulersOf members)) nodeList)
    as [counts1 tm1] eqn:Hfirst. unfold firstPass in Hfirst.
  destruct (Nat.eqb_spec (length tm1) 0) as [Hnone|Hsome].
  - intros [= <-] _. simpl. destruct tm1; [|done].
    destruct (firstPass_ok names desired _ _ _ _ _ Hok0 Hfirst) as [[_ Hle] _].
    destruct (firstPass_keeps_all _ _ _ _ _ Hfirst) as (_ & Hall & Hdom & Hcnt).
    assert (Hin : ∀ g, is_Some (counts1 !! g) ↔ g ∈ names).
    { intros g. rewrite Hdom. apply Hok0. }
    assert (Hsize : ∀ g, countOf counts1 g = groupSize nodeList g).
    { intros g. rewrite Hcnt, Hzero. lia. }
    assert (Hbound : ∀ g, 0 ≤ groupSize nodeList g ≤ desired).
    { intros g. rewrite <- Hsize. apply Hle. }
    split; [done|]. split; [|split].
    + intros n Hn. destruct (Hall n Hn) as (g & Hl & Hs).
      exists g. split; [done | by apply Hin].
    + intros g Hg. split; [|done].
      destruct (proj2 (Hin g) Hg) as [c Hc]. rewrite Hc. f_equal.
      rewrite <- Hsize. unfold countOf. by rewrite Hc.
    + intros g1 g2 _ _. pose proof (Hbound g1). pose proof (Hbound g2). lia.
  - destruct (Nat.eqb (length (shortGroupsOf desired counts1 rangeOrder)) 0).
    + intros [= <-] Htm. simpl in Htm. by rewrite Htm in Hsome.
    + destruct (secondPass desired 0 tm1 counts1 _ [])
        as [[[counts2 sg2] ps2]|]; simpl; [|done].
      intros [= <-] Htm. simpl in Htm. by rewrite Htm in Hsome.
Qed.

End PartitionerFacts.

(** The same statement at [abc_members] and [five_nodes], with the map
    ranged over in name order. *)
Lemma updateNodeLabels_counts_witness :
  ∃ res,
    Partitioner.updateNodeLabels abc_members abc_names five_nodes = Some res
    ∧ Partitioner.totalCount (Partitioner.nodeCountPerGroup res) abc_names = 5.
Proof.
  destruct (updateNodeLabels_counts abc_members abc_names five_nodes)
    as (res & Hrun & Htotal & _).
  - apply (bool_decide_unpack (NoDup _)). vm_compute. exact I.
  - vm_compute. discriminate.
  - vm_compute. reflexivity.
  - exists res. split; [exact Hrun | exact Htotal].
Defined.

(** The same statement at [abc_members] and [two_two_nodes]: nothing is
    moved, and scheduler c is counted with no node. *)
Lemma fixed_point_groups_witness :
  ∃ res,
    Partitioner.updateNodeLabels abc_members abc_names two_two_nodes = Some res
    ∧ Partitioner.patches res = []
    ∧ Partitioner.nodeCountPerGroup res !! "dist-scheduler-c" = Some 0.
Proof.
  destruct (Partitioner.updateNodeLabels abc_members abc_names two_two_nodes)
    as [res|] eqn:Hrun; [|vm_compute in Hrun; discriminate Hrun].
  exists res. split; [done|].
  destruct (fixed_point_groups abc_members abc_names two_two_nodes res)
    as (Hp & _ & Hcount & _).
  - vm_compute. discriminate.
  - exact Hrun.
  - vm_compute in Hrun. injection Hrun as <-. reflexivity.
  - split; [exact Hp|].
    destruct (Hcount "dist-scheduler-c") as [Hc _].
    + apply (bool_decide_unpack (_ ∈ _)). vm_compute. exact I.
    + rewrite Hc. vm_compute. reflexivity.
Defined.

(** C5, refuted as stated: after scheduler c joined two schedulers that
    hold two nodes each, desired is 2, the run moves no node, and the
    groups of a and c differ by 2. *)
Lemma partition_balance_counterexample :
  ¬ (∀ (members : list SchedulerSet.EndpointItem) (rangeOrder : list string)
       (nodeList : list Partitioner.Node) (res : Partitioner.Result)
       (g1 g2 : string),
       Partitioner.updateNodeLabels members rangeOrder nodeList = Some res →
       Partitioner.toMove res = [] → Partitioner.patches res = [] →
       g1 ∈ SchedulerSet.PodName <$> Partitioner.schedulersOf members →
       g2 ∈ SchedulerSet.PodName <$> Partitioner.schedulersOf members →
       Partitioner.groupSize nodeList g1 - Partitioner.groupSize nodeList g2 ≤ 1).
Proof.
  intros H.
  destruct (Partitioner.updateNodeLabels abc_members abc_names two_two_nodes)
    as [res|] eqn:Hrun; [|vm_compute in Hrun; discriminate Hrun].
  specialize (H abc_members abc_names two_two_nodes res
                "dist-scheduler-a" "dist-scheduler-c" Hrun).
  vm_compute in Hrun. injection Hrun as <-.
  assert (Hdiff : Partitioner.groupSize two_two_nodes "dist-scheduler-a"
                  - Partitioner.groupSize two_two_nodes "dist-scheduler-c" = 2)
    by (vm_compute; reflexivity).
  rewrite Hdiff in H.
  assert (2 ≤ 1); [|lia].
  apply H; try reflexivity;
    apply (bool_decide_unpack (_ ∈ _)); vm_compute; exact I.
Qed.

(** The same statement at [three_peers] and the key "default/pod-1". *)
Lemma GetTargetForScoring_spec_witness :
  SchedulerSet.GetTargetForScoring three_peers "default/pod-1"
  = Some (SchedulerSet.mkEndpointItem "dist-scheduler-1" ["10.0.0.1"]).
Proof.
  destruct (GetTargetForScoring_spec three_peers "default/pod-1") as [_ H].
  destruct H as [Heq _]; [vm_compute; lia | vm_compute; reflexivity |].
  rewrite Heq. vm_compute. reflexivity.
Defined.

(** C4, refuted as stated: at [three_peers] the key "default/pod-1" goes to
    position [fnv1_32 mod 3 = 1], while the FNV-1a hash of the written
    claim selects position 0, a different member. *)
Lemma GetTargetForScoring_fnv1a_counterexample :
  (2 ≤ length (SchedulerSet.GetMembers three_peers))%nat
  ∧ SchedulerSet.GetTargetForScoring three_peers "default/pod-1"
    ≠ SchedulerSet.sortMembers three_peers (SchedulerSet.GetMembers three_peers)
        !! Z.to_nat (SchedulerSet.fnv1a_32 "default/pod-1"
                     mod Z.of_nat (length (SchedulerSet.GetMembers three_peers))).
Proof. split; [vm_compute; lia | vm_compute; discriminate]. Qed.

(** The same statement at [twelve_members]. *)
Lemma relay_topology_coverage_witness :
  concat ((λ i, SchedulerSet.subMembersAt 10 twelve_members (Z.of_nat i))
            <$> seq 0 (length twelve_members))
  = drop 1 twelve_members.
Proof.
  apply (relay_topology_coverage twelve_members).
  - vm_compute. lia.
  - apply (bool_decide_unpack (NoDup twelve_members)). vm_compute. exact I.
Defined.

(** C3, refuted as stated: with fan-out 5 (the stride stays 10) the
    member at position 6 of [twelve_members] is in no peer's list. *)
Lemma relay_topology_fanout_counterexample :
  ¬ (∀ (fan_out : Z) (members : list SchedulerSet.EndpointItem),
       (2 ≤ length members)%nat → NoDup members →
       ∀ x, x ∈ drop 1 members →
            ∃ i, (i < length members)%nat
                 ∧ x ∈ SchedulerSet.subMembersAt fan_out members (Z.of_nat i)).
Proof.
  intros H.
  destruct (H 5 twelve_members) with (x := SchedulerSet.mkEndpointItem "m06" ["m06"])
    as (i & Hi & Hx).
  - vm_compute. lia.
  - apply (bool_decide_unpack (NoDup twelve_members)). vm_compute. exact I.
  - apply (bool_decide_unpack (_ ∈ drop 1 twelve_members)). vm_compute. exact I.
  - revert Hx. change (length twelve_members) with 12%nat in Hi.
    do 12 (destruct i as [|i];
           [intros Hx; apply (bool_decide_pack _) in Hx; vm_compute in Hx; done|]).
    lia.
Qed.

(** The same statement at [quorum_run]: its first two answers come from
    the same evaluator and carry the same winner. *)
Lemma one_winner_per_evaluator_witness :
  ∃ e r1 r2,
    ScoreEvaluator.run (ScoreEvaluator.New three_peers) quorum_run = Some e
    ∧ ScoreEvaluator.replies e !! 0%nat = Some r1
    ∧ ScoreEvaluator.replies e !! 1%nat = Some r2
    ∧ ScoreEvaluator.returned r1 = ScoreEvaluator.returned r2.
Proof.
  destruct (ScoreEvaluator.run (ScoreEvaluator.New three_peers) quorum_run)
    as [e|] eqn:Hrun; [|vm_compute in Hrun; discriminate Hrun].
  destruct (ScoreEvaluator.replies e !! 0%nat) as [r1|] eqn:H1;
    [|vm_compute in Hrun; injection Hrun as <-; discriminate H1].
  destruct (ScoreEvaluator.replies e !! 1%nat) as [r2|] eqn:H2;
    [|vm_compute in Hrun; injection Hrun as <-; discriminate H2].
  exists e, r1, r2. split; [done|]. split; [done|]. split; [done|].
  apply (one_winner_per_evaluator three_peers quorum_run e r1 r2).
  - repeat constructor; simpl; lia.
  - exact Hrun.
  - apply list_elem_of_lookup. by exists 0%nat.
  - apply list_elem_of_lookup. by exists 1%nat.
  - vm_compute in Hrun. injection Hrun as <-.
    vm_compute in H1, H2. by simplify_eq.
Defined.

(** C1, refuted as stated: in [late_score_run] the key "default/p" gets
    two replies with permit = true, one from each of its two evaluators
    (node-a first, node-b after the late score). *)
Lemma two_permits_counterexample :
  ¬ (∀ (ss : SchedulerSet.t) (evs : list ScoreEvaluator.event)
       (e : ScoreEvaluator.t) (key : string),
       ScoreEvaluator.run (ScoreEvaluator.New ss) evs = Some e →
       (length (ScoreEvaluator.permitted key e) ≤ 1)%nat).
Proof.
  intros H.
  destruct (ScoreEvaluator.run (ScoreEvaluator.New three_peers) late_score_run)
    as [e|] eqn:Hrun; [|vm_compute in Hrun; discriminate Hrun].
  specialize (H three_peers late_score_run e "default/p" Hrun).
  vm_compute in Hrun. injection Hrun as <-. vm_compute in H. lia.
Qed.
Section SchedulerSetOrder.
Import SchedulerSet.

#[local] Existing Instance before_total.
#[local] Existing Instance before_trans.

Lemma NoDup_fmap_eq {A B} (f : A → B) (l : list A) (x y : A) :
  NoDup (f <$> l) → x ∈ l → y ∈ l → f x = f y → x = y.
Proof.
  intros Hnd [i Hi]%list_elem_of_lookup [j Hj]%list_elem_of_lookup Hf.
  assert (i = j) as ->.
  { eapply (NoDup_lookup _ _ _ (f x) Hnd).
    - by rewrite list_lookup_fmap, Hi.
    - by rewrite list_lookup_fmap, Hj, Hf. }
  congruence.
Qed.

Lemma before_antisym_key (ldr : string) (a b : EndpointItem) :
  before ldr a b → before ldr b a →
  sortKey (PodName a) = sortKey (PodName b).
Proof.
  unfold before, podNameSort. intros Hab Hba.
  destruct (String.eqb_spec (PodName a) ldr) as [Ha|Ha];
    destruct (String.eqb_spec (PodName b) ldr) as [Hb|Hb]; try lia.
  - congruence.
  - apply Compare_zero. rewrite Compare_flip in Hba. lia.
Qed.

Lemma sortMembers_order_independent (ldr : string) (l1 l2 : list EndpointItem) :
  l1 ≡ₚ l2 →
  NoDup ((λ m, sortKey (PodName m)) <$> l1) →
  merge_sort (before ldr) l1 = merge_sort (before ldr) l2.
Proof.
  intros Hp Hnd.
  apply (StronglySorted_unique_strong (before ldr)).
  - intros x1 x2 H1 H2 H12 H21.
    apply (NoDup_fmap_eq (λ m, sortKey (PodName m)) l1); auto.
    + by rewrite <- (merge_sort_Permutation (before ldr) l1).
    + rewrite Hp. by rewrite <- (merge_sort_Permutation (before ldr) l2).
    + by apply (before_antisym_key ldr).
  - apply StronglySorted_merge_sort; apply _.
  - apply StronglySorted_merge_sort; apply _.
  - by rewrite !merge_sort_Permutation.
Qed.

(** X1.  Two peers whose snapshots hold the same members (in whatever order
    the maps are iterated) and that know the same leader pick the same
    aggregator for every key, provided the sort keys of the members are
    pairwise different. *)
Theorem GetTargetForScoring_agree (s1 s2 : t) (key : string) :
  leader s1 = leader s2 →
  GetMembers s1 ≡ₚ GetMembers s2 →
  NoDup ((λ m, sortKey (PodName m)) <$> GetMembers s1) →
  GetTargetForScoring s1 key = GetTargetForScoring s2 key.
Proof.
  intros Hl Hp Hnd. unfold GetTargetForScoring, sortMembers.
  rewrite <- Hl, <- (Permutation_length Hp).
  destruct (Nat.eqb_spec (length (GetMembers s1)) 1) as [H1|H1].
  - destruct (GetMembers s1) as [|x [|? ?]] eqn:E; try discriminate.
    symmetry in Hp. apply Permutation_singleton_r in Hp. by rewrite Hp.
  - by rewrite (sortMembers_order_independent (leader s1) _ _ Hp Hnd).
Qed.

Lemma podNameSort_scheduler_relay (ldr a b : string) :
  GoStr.HasPrefix a SchedulerPrefix = true →
  GoStr.HasPrefix a RelayPrefix = false →
  GoStr.HasPrefix b RelayPrefix = true →
  a ≠ ldr →
  podNameSort ldr a b = 1.
Proof.
  intros Ha Hna Hb Hl. unfold podNameSort.
  destruct (String.eqb_spec a ldr) as [|_]; [done|].
  destruct (String.eqb b ldr); [done|].
  unfold sortKey. rewrite Hna, Hb.
  destruct a as [|c a']; [discriminate|].
  unfold GoStr.HasPrefix, SchedulerPrefix in Ha. cbn [String.prefix] in Ha.
  destruct (ascii_dec "d" c) as [<-|]; [|discriminate].
  reflexivity.
Qed.

(** X2.  The order [sortMembers] produces: a leader that is a member stands
    first, and every relay pod stands before every scheduler pod (a pod
    whose name starts with "dist-scheduler" and is no relay), the leader
    apart. *)
Theorem sortMembers_layout (s : t) (members : list EndpointItem) :
  (∀ m, m ∈ members → PodName m = leader s →
        ∃ m0, sortMembers s members !! 0%nat = Some m0
              ∧ PodName m0 = leader s)
  ∧ (∀ (i j : nat) (a b : EndpointItem),
       sortMembers s members !! i = Some a →
       sortMembers s members !! j = Some b →
       GoStr.HasPrefix (PodName a) RelayPrefix = true →
       GoStr.HasPrefix (PodName b) SchedulerPrefix = true →
       GoStr.HasPrefix (PodName b) RelayPrefix = false →
       PodName b ≠ leader s →
       (i < j)%nat).
Proof.
  assert (Hss : StronglySorted (before (leader s)) (sortMembers s members)).
  { apply StronglySorted_merge_sort; apply _. }
  split.
  - intros m Hm Hl.
    rewrite <- (sortMembers_Permutation s) in Hm.
    apply list_elem_of_lookup in Hm as [k Hk].
    destruct k as [|k]; [by exists m|].
    destruct (sortMembers s members) as [|m0 rest] eqn:E; [done|].
    exists m0. split; [done|].
    assert (Hb : before (leader s) m0 m).
    { apply (StronglySorted_lookup _ _ Hss 0 (S k)); [lia|done|done]. }
    unfold before, podNameSort in Hb.
    destruct (String.eqb_spec (PodName m0) (leader s)) as [|Hn]; [done|].
    rewrite Hl, String.eqb_refl in Hb. lia.
  - intros i j a b Hi Hj Ha Hb Hnb Hl.
    destruct (Nat.lt_trichotomy i j) as [|[->|Hji]]; [done| |].
    + rewrite Hi in Hj. injection Hj as ->. congruence.
    + assert (Hbf : before (leader s) b a).
      { by apply (StronglySorted_lookup _ _ Hss j i). }
      unfold before in Hbf.
      rewrite (podNameSort_scheduler_relay (leader s) _ _ Hb Hnb Ha Hl) in Hbf.
      lia.
Qed.

Lemma count_no_relays (members : list EndpointItem) : ∀ count : Z,
  fold_left (λ count member,
               if negb (GoStr.HasPrefix (PodName member) RelayPrefix)
               then count + 1 else count) members count
  = count + Z.of_nat (length (Partitioner.schedulersOf members)).
Proof.
  unfold Partitioner.schedulersOf.
  induction members as [|m members IH]; intros count; cbn [fold_left].
  - cbn. lia.
  - rewrite IH, filter_cons.
    destruct (GoStr.HasPrefix (PodName m) RelayPrefix) eqn:E; cbn [negb].
    + rewrite decide_False by done. lia.
    + rewrite decide_True by done. cbn [length]. lia.
Qed.

(** X3.  The three member counts agree with the member lists: below 2^32
    members, [GetMemberCount] is the length of [GetMembers] (solo mode
    included), and [GetMemberCountNoRelays], the quorum of an evaluator, is
    the number of schedulers in the cache, which is the number of node
    partitions whenever the solo substitute is not in play; it never
    exceeds [GetMemberCount]. *)
Theorem member_counts_agree (s : t) :
  Z.of_nat (length (cache_GetMembers (endpointSliceCache s))) < 2 ^ 32 →
  GetMemberCount s = Z.of_nat (length (GetMembers s))
  ∧ GetMemberCountNoRelays s
    = Z.of_nat (length (Partitioner.schedulersOf
                          (cache_GetMembers (endpointSliceCache s))))
  ∧ (cache_GetMembers (endpointSliceCache s) ≠ [] ∨ allowSolo s = false →
     GetMemberCountNoRelays s
     = Z.of_nat (length (Partitioner.schedulersOf (GetMembers s))))
  ∧ GetMemberCountNoRelays s ≤ GetMemberCount s.
Proof.
  intros Hlt.
  set (members := cache_GetMembers (endpointSliceCache s)) in *.
  assert (Hle : (length (Partitioner.schedulersOf members) ≤ length members)%nat).
  { apply length_filter. }
  assert (Hn : GetMemberCountNoRelays s
               = Z.of_nat (length (Partitioner.schedulersOf members))).
  { unfold GetMemberCountNoRelays. fold members.
    rewrite count_no_relays, Z.add_0_l. apply uint32_small. lia. }
  assert (Hc : GetMemberCount s = Z.of_nat (length (GetMembers s))).
  { unfold GetMemberCount, GetMembers. rewrite cache_count_length. fold members.
    rewrite uint32_small by lia.
    destruct members as [|m ms]; cbn [length].
    - cbn. by destruct (allowSolo s).
    - replace (Z.of_nat (S (length ms)) =? 0) with false
        by (symmetry; apply Z.eqb_neq; lia).
      reflexivity. }
  split; [done|]. split; [done|]. split.
  - intros Hne. rewrite Hn. unfold GetMembers. fold members.
    destruct members as [|m ms]; [|done].
    destruct Hne as [|Hs]; [done|]. rewrite Hs. by rewrite andb_false_r.
  - rewrite Hn, Hc. unfold GetMembers. fold members.
    destruct members as [|m ms].
    + destruct (allowSolo s); cbn [length Nat.eqb andb] in *; lia.
    + cbn [length Nat.eqb andb] in *. lia.
Qed.

End SchedulerSetOrder.

Section ConcurrentCounterFacts.
Import ConcurrentCounter.

Lemma descending_split (l : list Z) (idx : Z) :
  StronglySorted Z.gt l → idx ∉ l →
  ∃ A B, l = A ++ B ∧ Forall (λ a, a > idx) A ∧ Forall (λ b, b < idx) B.
Proof.
  induction 1 as [|x l Hs IH Hx]; intros Hni.
  - by exists [], [].
  - apply not_elem_of_cons in Hni as [Hne Hni].
    destruct (Z.lt_trichotomy x idx) as [Hlt|[->|Hgt]]; [|done|].
    + exists [], (x :: l). split; [done|]. split; [constructor|].
      constructor; [done|].
      eapply Forall_impl; [exact Hx|]. cbn. intros; lia.
    + destruct (IH Hni) as (A & B & -> & HA & HB).
      exists (x :: A), B. split; [done|]. split; [|done].
      constructor; [lia|done].
Qed.

Lemma BinarySearchFunc_descending (A B : list Z) (idx : Z) :
  Forall (λ a, a > idx) A → Forall (λ b, b < idx) B →
  BinarySearchFunc (A ++ B) idx descending = Z.of_nat (length A).
Proof.
  intros HA HB. unfold BinarySearchFunc.
  apply Search_least.
  - rewrite length_app. lia.
  - intros k Hk.
    destruct (lookup_lt_is_Some_2 A (Z.to_nat k)) as [a Ha]; [lia|].
    rewrite (lookup_app_l_Some _ _ _ _ Ha).
    assert (a > idx).
    { rewrite Forall_forall in HA. apply HA. by eapply list_elem_of_lookup_2. }
    unfold descending.
    destruct (Z.gtb_spec a idx); [done|lia].
  - intros k Hk. rewrite length_app in Hk.
    rewrite lookup_app_r by lia.
    destruct (lookup_lt_is_Some_2 B (Z.to_nat k - length A)) as [b Hb]; [lia|].
    rewrite Hb.
    assert (b < idx).
    { rewrite Forall_forall in HB. apply HB. by eapply list_elem_of_lookup_2. }
    unfold descending.
    destruct (Z.gtb_spec b idx); [lia|].
    destruct (Z.ltb_spec b idx); [done|lia].
Qed.

Lemma Free_split (c : t) (idx : Z) (A B : list Z) :
  free c = A ++ B →
  Forall (λ a, a > idx) A → Forall (λ b, b < idx) B →
  Free c idx = Some {| total := total c; free := A ++ idx :: B |}.
Proof.
  intros E HA HB. unfold Free, Insert. rewrite E.
  rewrite (BinarySearchFunc_descending A B idx HA HB).
  rewrite length_app, Nat2Z.id.
  replace (Z.of_nat (length A) <? 0) with false by (symmetry; apply Z.ltb_ge; lia).
  replace (Z.of_nat (length A + length B) <? Z.of_nat (length A)) with false
    by (symmetry; apply Z.ltb_ge; lia).
  cbn. by rewrite take_app_length, drop_app_length.
Qed.

Lemma Get_cases (c : t) :
  (free c = [] ∧ Get c = (total c, {| total := total c + 1; free := [] |}))
  ∨ (∃ l m, free c = l ++ [m]
            ∧ Get c = (m, {| total := total c; free := l |})).
Proof.
  unfold Get.
  destruct (free c) as [|x l] eqn:E using rev_ind.
  - left. split; [done|]. cbn. f_equal. lia.
  - clear IHl. right. exists l, x. split; [done|].
    rewrite length_app. cbn [length].
    replace (0 <? length l + 1)%nat with true by (symmetry; apply Nat.ltb_lt; lia).
    replace (length l + 1 - 1)%nat with (length l) by lia.
    rewrite lookup_app_r by lia. rewrite Nat.sub_diag. cbn [lookup list_lookup].
    by rewrite take_app_length.
Qed.

Lemma inv_reach (c : t) (held : list Z) : reach c held → inv c held.
Proof.
  induction 1 as [|c held Hr IH|c held idx c' Hr IH Hin HF].
  - unfold inv, zero. cbn. split; [done|]. split; [constructor|]. split.
    + intros j. split; [intros [H|H]; inversion H|lia].
    + split; [intros j H; inversion H|constructor].
  - destruct IH as (Ht & Hs & Hall & Hdis & Hnd).
    destruct (Get_cases c) as [(E & ->)|(l & m & E & ->)]; cbn [fst snd].
    + rewrite E in *. unfold inv. cbn [free total].
      split; [lia|]. split; [constructor|]. split; [|split].
      * intros j. rewrite elem_of_cons. specialize (Hall j).
        split.
        -- intros [H|[->|H]]; [inversion H|lia|].
           assert (0 ≤ j < total c) by (apply Hall; by right). lia.
        -- intros Hj. destruct (decide (j = total c)) as [->|]; [right; by left|].
           assert (0 ≤ j < total c) as Hj' by lia.
           apply Hall in Hj' as [H|H]; [inversion H|]. right. by right.
      * intros j H; inversion H.
      * constructor; [|done]. intros H.
        assert (0 ≤ total c < total c) by (apply Hall; by right). lia.
    + rewrite E in *. unfold inv. cbn [free total].
      apply StronglySorted_app in Hs as (Hlm & Hsl & _).
      split; [done|]. split; [done|]. split; [|split].
      * intros j. rewrite elem_of_cons. specialize (Hall j).
        rewrite elem_of_app, list_elem_of_singleton in Hall. tauto.
      * intros j Hj. rewrite elem_of_cons. intros [->|Hh].
        -- specialize (Hlm m m Hj). rewrite list_elem_of_singleton in Hlm.
           specialize (Hlm eq_refl). lia.
        -- apply (Hdis j); [|done]. rewrite elem_of_app. by left.
      * constructor; [|done]. apply Hdis. rewrite elem_of_app.
        right. by apply list_elem_of_singleton.
  - destruct IH as (Ht & Hs & Hall & Hdis & Hnd).
    assert (Hni : idx ∉ free c) by (intros H; by apply (Hdis idx)).
    destruct (descending_split _ _ Hs Hni) as (A & B & E & HA & HB).
    rewrite (Free_split c idx A B E HA HB) in HF. injection HF as <-.
    unfold inv. cbn [free total]. rewrite E in *.
    rewrite Forall_forall in HA, HB.
    apply StronglySorted_app in Hs as (HAB & HsA & HsB).
    split; [done|]. split; [|split; [|split]].
    + apply StronglySorted_app. split; [|split; [done|]].
      * intros x1 x2 H1. rewrite elem_of_cons. intros [->|H2].
        -- by apply HA.
        -- by apply HAB.
      * constructor; [done|]. apply Forall_forall. intros b Hb.
        specialize (HB b Hb). lia.
    + intros j. specialize (Hall j).
      rewrite elem_of_app in Hall.
      rewrite elem_of_app, elem_of_cons, list_elem_of_filter.
      destruct (decide (j = idx)) as [->|Hne]; [|tauto].
      split; [|tauto]. intros _. apply Hall. by right.
    + intros j. rewrite elem_of_app, elem_of_cons, list_elem_of_filter.
      intros [H|[->|H]] [Hne Hh]; [|done|].
      * apply (Hdis j); [|done]. rewrite elem_of_app. by left.
      * apply (Hdis j); [|done]. rewrite elem_of_app. by right.
    + by apply NoDup_filter.
Qed.

(** X4.  In every configuration the callers can bring about, [Get] hands
    out an index that nobody holds, and it is the least index not held
    (so no two concurrent pod cycles share a scheduler index); an index
    that is held can always be given back. *)
Theorem counter_hands_out_least_free (c : t) (held : list Z) :
  reach c held →
  ((Get c).1 ∉ held)
  ∧ 0 ≤ (Get c).1
  ∧ (∀ j, 0 ≤ j < (Get c).1 → j ∈ held)
  ∧ (∀ idx, idx ∈ held → is_Some (Free c idx)).
Proof.
  intros Hr. destruct (inv_reach _ _ Hr) as (Ht & Hs & Hall & Hdis & Hnd).
  split; [|split; [|split]].
  - destruct (Get_cases c) as [(E & ->)|(l & m & E & ->)]; cbn [fst].
    + intros H. assert (0 ≤ total c < total c) by (apply Hall; by right). lia.
    + apply Hdis. rewrite E, elem_of_app. right. by apply list_elem_of_singleton.
  - destruct (Get_cases c) as [(E & ->)|(l & m & E & ->)]; cbn [fst].
    + done.
    + assert (0 ≤ m < total c); [|lia].
      apply Hall. left. rewrite E, elem_of_app. right.
      by apply list_elem_of_singleton.
  - destruct (Get_cases c) as [(E & ->)|(l & m & E & ->)]; cbn [fst].
    + intros j Hj. apply Hall in Hj as [H|H]; [|done].
      rewrite E in H. inversion H.
    + intros j Hj.
      assert (0 ≤ m < total c) as Hm.
      { apply Hall. left. rewrite E, elem_of_app. right.
        by apply list_elem_of_singleton. }
      assert (0 ≤ j < total c) as Hj' by lia.
      apply Hall in Hj' as [H|H]; [|done].
      rewrite E in H, Hs. apply elem_of_app in H as [H|H].
      * apply StronglySorted_app in Hs as (Hlm & _ & _).
        specialize (Hlm j m H). rewrite list_elem_of_singleton in Hlm.
        specialize (Hlm eq_refl). lia.
      * apply list_elem_of_singleton in H. lia.
  - intros idx Hin.
    assert (Hni : idx ∉ free c) by (intros H; by apply (Hdis idx)).
    destruct (descending_split _ _ Hs Hni) as (A & B & E & HA & HB).
    rewrite (Free_split c idx A B E HA HB). by eexists.
Qed.

End ConcurrentCounterFacts.

Section StackFacts.
Import Stack.
Context {T : Type}.

Lemma Pop_cases (s : list T) :
  (s = [] ∧ Pop s = None) ∨ (∃ l x, s = l ++ [x] ∧ Pop s = Some (x, l)).
Proof.
  unfold Pop.
  destruct s as [|y l] using rev_ind; [by left|]. clear IHl.
  right. exists l, y. split; [done|].
  rewrite length_app. cbn [length].
  replace (length l + 1 =? 0)%nat with false by (symmetry; apply Nat.eqb_neq; lia).
  replace (length l + 1 - 1)%nat with (length l) by lia.
  rewrite lookup_app_r by lia. rewrite Nat.sub_diag. cbn.
  by rewrite take_app_length.
Qed.

(** X5.  The stack works as a pool: whatever the cycles do, the idle
    schedulers and the schedulers in use are together the schedulers the
    stack was made of, so (the schedulers being distinct) no scheduler
    serves two cycles at once; [Pop] blocks exactly when all are in use,
    and it returns the item pushed last. *)
Theorem stack_is_a_pool (items s held : list T) :
  reach items s held →
  s ++ held ≡ₚ items
  ∧ (Pop s = None ↔ length held = length items)
  ∧ (NoDup items → NoDup held ∧ ∀ x, x ∈ s → x ∉ held)
  ∧ (∀ x, Pop (Push s x) = Some (x, s)).
Proof.
  intros Hr.
  assert (Hp : s ++ held ≡ₚ items).
  { induction Hr as [|s held x s' Hr IH HP|s h1 x h2 Hr IH].
    - unfold NewStack. by rewrite app_nil_r.
    - destruct (Pop_cases s) as [(_ & E)|(l & y & -> & E)];
        rewrite E in HP; [discriminate|]. injection HP as -> ->.
      rewrite <- IH, <- app_assoc. done.
    - rewrite <- IH. unfold Push. rewrite <- !app_assoc. cbn.
      apply Permutation_app_head. apply Permutation_middle. }
  split; [done|]. split; [|split].
  - apply Permutation_length in Hp. rewrite length_app in Hp.
    destruct (Pop_cases s) as [(-> & E)|(l & y & -> & E)]; rewrite E.
    + cbn in Hp. split; [done|done].
    + rewrite length_app in Hp. cbn in Hp. split; [done|lia].
  - intros Hnd. rewrite <- Hp in Hnd. apply NoDup_app in Hnd as (_ & Hd & Hh).
    split; [done|]. done.
  - intros x. destruct (Pop_cases (Push s x)) as [(E & _)|(l & y & E & ->)].
    + unfold Push in E. by destruct s.
    + unfold Push in E. apply app_inj_tail in E as [-> ->]. done.
Qed.

End StackFacts.

Section ScoreEvaluatorMore.
Import ScoreEvaluator ScoreEvaluatorInv.

Lemma winner_inv_New (ss : SchedulerSet.t) : winner_inv (New ss).
Proof. intros id o H. cbn in H. by rewrite lookup_nil in H. Qed.

Lemma answered_mono (rs rs' : list Reply) (id : nat) (o : oneEvaluator) :
  (∀ rp, rp ∈ rs → rp ∈ rs') → answered rs id o → answered rs' id o.
Proof.
  intros Hsub [H1 H2]. split; [done|].
  intros Hne. destruct (H2 Hne) as (rp & Hin & H). exists rp. split; [auto|done].
Qed.

Lemma winner_inv_getOrCreate (e : t) (key : string) :
  winner_inv e → winner_inv (getOrCreate e key).2.
Proof.
  intros Hinv. unfold getOrCreate.
  destruct (evaluators e !! key); [done|]. cbn [snd].
  intros id o. cbn [heap replies].
  intros [Ho|[_ Ho]]%lookup_app_Some; [by apply Hinv|].
  apply list_lookup_singleton_Some in Ho as [_ <-].
  split; [done|]. intros H. by contradict H.
Qed.

(** One evaluator is replaced and replies are only added. *)
Lemma winner_inv_update (e e' : t) (id : nat) (o' : oneEvaluator) :
  winner_inv e →
  heap e' = <[id := o']> (heap e) →
  (∀ rp, rp ∈ replies e → rp ∈ replies e') →
  answered (replies e') id o' →
  winner_inv e'.
Proof.
  intros Hinv Hh Hsub Ho' id' o2. rewrite Hh. intros Hl.
  destruct (decide (id' = id)) as [->|Hne].
  - assert (id < length (heap e))%nat.
    { apply lookup_lt_Some in Hl. by rewrite length_insert in Hl. }
    rewrite list_lookup_insert_eq in Hl by done. by injection Hl as <-.
  - rewrite list_lookup_insert_ne in Hl by done.
    eapply answered_mono; [exact Hsub|]. by apply Hinv.
Qed.

Lemma winner_inv_recordScore (e1 e' : t) (id : nat) (o : oneEvaluator)
      (key : string) (score : Score) (r : Z) :
  wf e1 → winner_inv e1 → heap e1 !! id = Some o → 0 ≤ ScoreVal score →
  recordScore e1 id key score r = Some e' → winner_inv e'.
Proof.
  intros Hwf Hinv Ho Hscore. pose proof Hwf as (_ & H2 & _).
  destruct (H2 _ _ Ho) as [Hscores _].
  destruct (Hinv _ _ Ho) as [Hw Ha].
  pose proof (lookup_lt_Some _ _ _ Ho) as Hlt.
  unfold recordScore. rewrite Ho. cbn [mbind option_bind].
  destruct (Z.of_nat (length (scores o ++ [score])) >=? limit o).
  - set (o1 := {| evKey := evKey o; limit := limit o;
                  scores := scores o ++ [score];
                  highestScore := highestScore o; waiters := waiters o;
                  ticked := ticked o |}).
    set (em := set_heap e1 (<[id := o1]> (heap e1))).
    assert (Hom : heap em !! id = Some o1)
      by (by apply list_lookup_insert_eq).
    destruct (fire em id key r) as [e2|] eqn:Hfire; cbn [mbind option_bind];
      [|done].
    destruct (fire_cases _ _ _ _ _ _ Hom Hfire)
      as [[Hne ->]|[Hunfired (w & Hw' & ->)]].
    + rewrite Hom. cbn [mbind option_bind]. intros [= <-].
      apply (winner_inv_update e1 _ id o1 Hinv); [done| |].
      * intros rp Hr. cbn. apply elem_of_app. by left.
      * split; [done|]. intros _. destruct (Ha Hne) as (rp & Hr & H).
        exists rp. split; [|done]. cbn. apply elem_of_app. by left.
    + subst em. cbn [fired heap set_heap].
      rewrite list_lookup_insert_eq by (by rewrite length_insert).
      cbn [mbind option_bind]. intros [= <-].
      assert (Hw0 : 0 ≤ ScoreVal w).
      { cbn in Hw'. apply elem_of_app in Hw' as [Hw'|Hw'].
        - by apply Hscores.
        - apply list_elem_of_singleton in Hw'. by subst. }
      apply (winner_inv_update e1 _ id
               {| evKey := evKey o1; limit := limit o1; scores := scores o1;
                  highestScore := w; waiters := []; ticked := ticked o1 |} Hinv).
      * cbn. by rewrite list_insert_insert_eq.
      * intros rp Hr. cbn. rewrite !elem_of_app. by left; left.
      * split; [cbn; lia|]. intros _. cbn [highestScore].
        cbn in Hw'. cbn in Hunfired. apply elem_of_app in Hw' as [Hw'|Hw'].
        -- rewrite <- (Hw Hunfired) in Hw'.
           exists {| reqKey := evKey o; evalId := id; reported := w;
                     returned := w |}.
           split; [|done]. cbn. rewrite !elem_of_app. left; right.
           apply list_elem_of_fmap. by exists w.
        -- apply list_elem_of_singleton in Hw'. subst w.
           exists {| reqKey := key; evalId := id; reported := score;
                     returned := score |}.
           split; [|done]. cbn. rewrite !elem_of_app. right.
           by apply list_elem_of_singleton.
  - intros [= <-].
    apply (winner_inv_update e1 _ id
             {| evKey := evKey o; limit := limit o;
                scores := scores o ++ [score];
                highestScore := highestScore o;
                waiters := waiters o ++ [score]; ticked := ticked o |} Hinv);
      [done|done|].
    split; cbn.
    + intros H. by rewrite (Hw H).
    + done.
Qed.

Lemma winner_inv_set_pending (e : t) (p : list Call) :
  winner_inv e → winner_inv (set_pending e p).
Proof. done. Qed.

Lemma step_winner_inv (e e' : t) (ev : event) :
  wf e → winner_inv e → nonneg_score ev → step e ev = Some e' →
  winner_inv e'.
Proof.
  intros Hwf Hinv Hnn. destruct ev as [ns pod node sc r|ns pod node sc|k r|id r];
    cbn [step nonneg_score] in *.
  - unfold RecordAndWait.
    destruct (wf_getOrCreate e (podKey ns pod) Hwf) as (o & Hwf1 & Ho & Hk).
    pose proof (winner_inv_getOrCreate e (podKey ns pod) Hinv) as Hinv1.
    destruct (getOrCreate e (podKey ns pod)) as [id e1]. cbn [fst snd] in *.
    by apply (winner_inv_recordScore e1 e' id o).
  - pose proof (winner_inv_getOrCreate e (podKey ns pod) Hinv) as Hinv1.
    destruct (getOrCreate e (podKey ns pod)) as [id e1]. cbn [fst snd] in *.
    by intros [= <-].
  - destruct (pending e !! k) as [c|] eqn:Hc; [|by intros [= <-]].
    pose proof Hwf as (_ & _ & H3 & _).
    destruct (H3 c) as (o & Ho & Hkey & Hpos);
      [apply list_elem_of_lookup; by exists k|].
    apply (winner_inv_recordScore _ e' (callEval c) o); try done.
    apply wf_set_pending; [done|]. intros c' Hc'. apply H3.
    by eapply list_elem_of_delete_inv.
  - destruct (heap e !! id) as [o|] eqn:Ho; [|by intros [= <-]].
    destruct (ticked o); [by intros [= <-]|].
    set (o1 := {| evKey := evKey o; limit := limit o; scores := scores o;
                  highestScore := highestScore o; waiters := waiters o;
                  ticked := true |}).
    set (em := set_heap e (<[id := o1]> (heap e))).
    pose proof (lookup_lt_Some _ _ _ Ho) as Hlt.
    destruct (Hinv _ _ Ho) as [Hw Ha].
    pose proof Hwf as (_ & H2 & _). destruct (H2 _ _ Ho) as [Hscores _].
    assert (Hom : heap em !! id = Some o1) by (by apply list_lookup_insert_eq).
    intros Hfire.
    destruct (fire_cases _ _ _ _ _ _ Hom Hfire)
      as [[_ ->]|[Hunfired (w & Hw' & ->)]].
    + by apply (winner_inv_update e _ id o1 Hinv).
    + apply (winner_inv_update e _ id
               {| evKey := evKey o1; limit := limit o1; scores := scores o1;
                  highestScore := w; waiters := []; ticked := ticked o1 |} Hinv).
      * cbn. by rewrite list_insert_insert_eq.
      * intros rp Hr. cbn. rewrite !elem_of_app. by left.
      * cbn in Hw', Hunfired.
        split; [cbn; specialize (Hscores w Hw'); lia|]. intros _. cbn [highestScore].
        rewrite <- (Hw Hunfired) in Hw'.
        exists {| reqKey := evKey o; evalId := id; reported := w;
                  returned := w |}.
        split; [|done]. cbn. rewrite !elem_of_app. right.
        apply list_elem_of_fmap. by exists w.
Qed.

Lemma run_winner_inv (evs : list event) : ∀ e e',
  wf e → winner_inv e → Forall nonneg_score evs → run e evs = Some e' →
  wf e' ∧ winner_inv e'.
Proof.
  induction evs as [|ev evs IH]; intros e e' Hwf Hinv Hnn; cbn [run].
  - by intros [= <-].
  - apply Forall_cons in Hnn as [Hev Hnn].
    destruct (step e ev) as [e1|] eqn:Hstep; cbn [mbind option_bind]; [|done].
    apply IH; [| |done].
    + by eapply step_wf.
    + by eapply step_winner_inv.
Qed.

(** X6.  In every run with non-negative scores, whatever the interleaving,
    an evaluator that has answered any call has answered the call that
    reported its winner, and that call got permit = true: every decision
    the aggregator announces goes to at least one scheduler. *)
Theorem every_decision_has_a_permitted_call (ss : SchedulerSet.t)
        (evs : list event) (e : t) (rp : Reply) :
  Forall nonneg_score evs →
  run (New ss) evs = Some e →
  rp ∈ replies e →
  ∃ rp', rp' ∈ replies e
         ∧ evalId rp' = evalId rp
         ∧ reported rp' = returned rp
         ∧ returned rp' = returned rp
         ∧ permit rp' = true.
Proof.
  intros Hnn Hrun Hr.
  destruct (run_winner_inv evs _ _ (wf_New ss) (winner_inv_New ss) Hnn Hrun)
    as [(_ & _ & _ & H4) Hinv].
  destruct (H4 _ Hr) as (o & Ho & _ & Hret & Hpos).
  destruct (Hinv _ _ Ho) as [_ Ha].
  destruct Ha as (rp' & Hin & Hid & Hrep & Hret'); [lia|].
  exists rp'. split; [done|]. split; [done|]. split; [congruence|].
  split; [congruence|]. unfold permit. rewrite Hrep, Hret'.
  apply String.eqb_refl.
Qed.

Lemma sum_list_with_insert {A} (f : A → nat) (l : list A) (i : nat) (x y : A) :
  l !! i = Some x →
  (sum_list_with f (<[i := y]> l) + f x = sum_list_with f l + f y)%nat.
Proof.
  revert i. induction l as [|a l IH]; intros [|i] H; try done.
  - injection H as ->. cbn. lia.
  - cbn in H. specialize (IH i H).
    change (<[S i:=y]> (a :: l)) with (a :: <[i:=y]> l).
    cbn [sum_list_with]. lia.
Qed.

Lemma accounted_fire (em e' : t) (id : nat) (key : string) (r : Z) :
  fire em id key r = Some e' → accounted e' = accounted em.
Proof.
  unfold fire. destruct (heap em !! id) as [o|] eqn:Ho; [|done].
  cbn [mbind option_bind].
  destruct (negb (ScoreVal (highestScore o) =? -1)); [by intros [= <-]|].
  destruct (Intn _ r) as [i|]; [|done]. cbn [mbind option_bind].
  destruct (candidates_of (scores o) !! Z.to_nat i) as [w|]; [|done].
  cbn [mbind option_bind]. intros [= <-].
  unfold accounted, waiting. cbn [fired replies heap pending].
  pose proof (sum_list_with_insert (λ o, length (waiters o)) (heap em) id o
                {| evKey := evKey o; limit := limit o; scores := scores o;
                   highestScore := w; waiters := []; ticked := ticked o |} Ho)
    as Hs.
  cbn [waiters length] in Hs. rewrite length_app, length_fmap. lia.
Qed.

Lemma accounted_recordScore (e1 e' : t) (id : nat) (key : string)
      (score : Score) (r : Z) :
  recordScore e1 id key score r = Some e' →
  accounted e' = S (accounted e1).
Proof.
  unfold recordScore. destruct (heap e1 !! id) as [o|] eqn:Ho; [|done].
  cbn [mbind option_bind].
  destruct (Z.of_nat (length (scores o ++ [score])) >=? limit o).
  - set (o1 := {| evKey := evKey o; limit := limit o;
                  scores := scores o ++ [score];
                  highestScore := highestScore o; waiters := waiters o;
                  ticked := ticked o |}).
    set (em := set_heap e1 (<[id := o1]> (heap e1))).
    assert (Hem : accounted em = accounted e1).
    { unfold accounted, waiting. subst em. cbn [set_heap replies heap pending].
      pose proof (sum_list_with_insert (λ o, length (waiters o)) (heap e1) id o
                    o1 Ho) as Hs. cbn [waiters o1] in Hs. lia. }
    destruct (fire em id key r) as [e2|] eqn:Hfire; cbn [mbind option_bind];
      [|done].
    apply accounted_fire in Hfire.
    destruct (heap e2 !! id) as [o2|]; [|done]. cbn [mbind option_bind].
    intros [= <-]. rewrite <- Hem, <- Hfire.
    unfold accounted, waiting. cbn [add_reply replies heap pending].
    rewrite length_app. cbn [length]. lia.
  - intros [= <-]. unfold accounted, waiting.
    cbn [set_heap replies heap pending].
    pose proof (sum_list_with_insert (λ o, length (waiters o)) (heap e1) id o
                  {| evKey := evKey o; limit := limit o;
                     scores := scores o ++ [score];
                     highestScore := highestScore o;
                     waiters := waiters o ++ [score]; ticked := ticked o |} Ho)
      as Hs.
    cbn [waiters] in Hs. rewrite length_app in Hs. cbn [length] in Hs. lia.
Qed.

Lemma accounted_getOrCreate (e : t) (key : string) :
  accounted (getOrCreate e key).2 = accounted e.
Proof.
  unfold getOrCreate. destruct (evaluators e !! key); [done|].
  unfold accounted, waiting. cbn [snd replies heap pending].
  rewrite sum_list_with_app. cbn. lia.
Qed.

Lemma accounted_step (e e' : t) (ev : event) :
  step e ev = Some e' →
  accounted e' = (accounted e + if is_call ev then 1 else 0)%nat.
Proof.
  destruct ev as [ns pod node sc r|ns pod node sc|k r|id r]; cbn [step is_call].
  - unfold RecordAndWait.
    pose proof (accounted_getOrCreate e (podKey ns pod)) as Hg.
    destruct (getOrCreate e (podKey ns pod)) as [id e1]. cbn [snd] in Hg.
    intros H%accounted_recordScore. lia.
  - pose proof (accounted_getOrCreate e (podKey ns pod)) as Hg.
    destruct (getOrCreate e (podKey ns pod)) as [id e1]. cbn [snd] in Hg.
    intros [= <-]. rewrite <- Hg. unfold accounted, waiting.
    cbn [set_pending replies heap pending]. rewrite length_app. cbn [length]. lia.
  - destruct (pending e !! k) as [c|] eqn:Hc; [|intros [= <-]; lia].
    intros H%accounted_recordScore. rewrite H.
    unfold accounted, waiting. cbn [set_pending replies heap pending].
    pose proof (lookup_lt_Some _ _ _ Hc) as Hlt.
    rewrite length_delete by (by eexists). lia.
  - destruct (heap e !! id) as [o|] eqn:Ho; [|intros [= <-]; lia].
    destruct (ticked o); [intros [= <-]; lia|].
    intros H%accounted_fire. rewrite H.
    unfold accounted, waiting. cbn [set_heap replies heap pending].
    pose proof (sum_list_with_insert (λ o, length (waiters o)) (heap e) id o
                  {| evKey := evKey o; limit := limit o; scores := scores o;
                     highestScore := highestScore o; waiters := waiters o;
                     ticked := true |} Ho) as Hs.
    cbn [waiters] in Hs. lia.
Qed.

Lemma accounted_run (evs : list event) (e e' : t) :
  run e evs = Some e' →
  accounted e' = (accounted e + calls evs)%nat.
Proof.
  revert e. induction evs as [|ev evs IH]; intros e; cbn [run].
  - intros [= <-]. unfold calls. cbn. lia.
  - destruct (step e ev) as [e1|] eqn:Hstep; cbn [mbind option_bind]; [|done].
    intros Hrun. rewrite (IH _ Hrun), (accounted_step _ _ _ Hstep).
    unfold calls. rewrite filter_cons.
    destruct (is_call ev); [rewrite decide_True by done|rewrite decide_False by done];
      cbn [length]; lia.
Qed.

(** X7.  No call is lost and none is answered twice: in every run that
    does not panic, the calls that arrived are the answers sent, the
    callers blocked in an evaluator and the calls between their two
    critical sections. *)
Theorem calls_are_accounted_for (evs : list event) (e e' : t) :
  run e evs = Some e' →
  (length (replies e') + waiting e' + length (pending e')
   = length (replies e) + waiting e + length (pending e) + calls evs)%nat.
Proof.
  fold (accounted e) (accounted e').
  revert e. induction evs as [|ev evs IH]; intros e; cbn [run].
  - intros [= <-]. unfold calls. cbn. lia.
  - destruct (step e ev) as [e1|] eqn:Hstep; cbn [mbind option_bind]; [|done].
    intros Hrun. rewrite (IH _ Hrun), (accounted_step _ _ _ Hstep).
    unfold calls. rewrite filter_cons.
    destruct (is_call ev); [rewrite decide_True by done|rewrite decide_False by done];
      cbn [length]; lia.
Qed.

Lemma fire_unfired (em : t) (id : nat) (o : oneEvaluator) (key : string)
      (r : Z) :
  heap em !! id = Some o →
  ScoreVal (highestScore o) = -1 →
  (∃ sc, sc ∈ scores o ∧ -1 ≤ ScoreVal sc) →
  ∃ w, fire em id key r = Some (fired em id o key w) ∧ w ∈ scores o.
Proof.
  intros Ho Hun Hex. unfold fire. rewrite Ho. cbn [mbind option_bind].
  rewrite Hun. cbn [Z.eqb negb].
  apply candidates_exist in Hex.
  destruct (Intn_Some (Z.of_nat (length (candidates_of (scores o)))) r)
    as (i & -> & Hi).
  { destruct (candidates_of (scores o)); [done|cbn [length]; lia]. }
  cbn [mbind option_bind].
  destruct (lookup_lt_is_Some_2 (candidates_of (scores o)) (Z.to_nat i))
    as [w Hw]; [lia|].
  rewrite Hw. cbn [mbind option_bind]. exists w. split; [done|].
  destruct (pick_spec (scores o)) as (_ & Hc & _).
  apply Hc. apply list_elem_of_lookup. by exists (Z.to_nat i).
Qed.

Lemma atomic_inv_New (ss : SchedulerSet.t) : atomic_inv (New ss).
Proof.
  split; [done|]. split.
  - intros k id H. cbn in H. by rewrite lookup_empty in H.
  - intros id o H. cbn in H. by rewrite lookup_nil in H.
Qed.

Lemma atomic_fired (em : t) (id : nat) (o : oneEvaluator) (key : string)
      (w : Score) :
  pending em = [] →
  (∀ k id', k ≠ key → evaluators em !! k = Some id' →
     id' ≠ id ∧ ∃ o', heap em !! id' = Some o' ∧ evKey o' = k
                      ∧ ScoreVal (highestScore o') = -1) →
  (∀ id' o', id' ≠ id → heap em !! id' = Some o' → settled o') →
  heap em !! id = Some o →
  (∀ sc, sc ∈ scores o → 0 ≤ ScoreVal sc) →
  w ∈ scores o →
  atomic_inv (fired em id o key w).
Proof.
  intros Hp Htab Hset Ho Hsc Hw.
  pose proof (lookup_lt_Some _ _ _ Ho) as Hlt.
  split; [done|]. split.
  - intros k id'. cbn [fired evaluators heap].
    intros [Hne Hl]%lookup_delete_Some.
    destruct (Htab k id' (not_eq_sym Hne) Hl) as (Hid & o' & Ho' & Hk & Hu).
    exists o'. by rewrite list_lookup_insert_ne.
  - intros id' o'. cbn [fired heap]. intros Hl.
    destruct (decide (id' = id)) as [->|Hne].
    + rewrite list_lookup_insert_eq in Hl by done. injection Hl as <-.
      split; [done|]. cbn. split; [|done].
      intros H. specialize (Hsc w Hw). lia.
    + rewrite list_lookup_insert_ne in Hl by done. by apply (Hset id').
Qed.

Lemma atomic_recordScore (e1 : t) (id : nat) (o : oneEvaluator)
      (key : string) (score : Score) (r : Z) :
  pending e1 = [] →
  table_unfired e1 →
  (∀ id' o', id' ≠ id → heap e1 !! id' = Some o' → settled o') →
  heap e1 !! id = Some o → evKey o = key →
  ScoreVal (highestScore o) = -1 →
  (∀ sc, sc ∈ scores o → 0 ≤ ScoreVal sc) →
  ticked o = false →
  0 ≤ ScoreVal score →
  ∃ e', recordScore e1 id key score r = Some e' ∧ atomic_inv e'.
Proof.
  intros Hp Htab Hset Ho Hkey Hun Hsc Htick Hscore.
  pose proof (lookup_lt_Some _ _ _ Ho) as Hlt.
  assert (Hsc' : ∀ sc, sc ∈ scores o ++ [score] → 0 ≤ ScoreVal sc).
  { intros sc [Hin| ->%list_elem_of_singleton]%elem_of_app; [by apply Hsc|done]. }
  unfold recordScore. rewrite Ho. cbn [mbind option_bind].
  destruct (Z.of_nat (length (scores o ++ [score])) >=? limit o).
  - set (o1 := {| evKey := evKey o; limit := limit o;
                  scores := scores o ++ [score];
                  highestScore := highestScore o; waiters := waiters o;
                  ticked := ticked o |}).
    set (em := set_heap e1 (<[id := o1]> (heap e1))).
    assert (Hom : heap em !! id = Some o1) by (by apply list_lookup_insert_eq).
    destruct (fire_unfired em id o1 key r Hom Hun) as (w & -> & Hw).
    { exists score. split; [|lia]. cbn. apply elem_of_app. right.
      by apply list_elem_of_singleton. }
    cbn [mbind option_bind].
    assert (Hinv : atomic_inv (fired em id o1 key w)).
    { apply atomic_fired; try done.
      - intros k id' Hne Hl. destruct (Htab k id' Hl) as (o' & Ho' & Hk & Hu).
        assert (id' ≠ id) by (intros ->; congruence).
        split; [done|]. exists o'. subst em. cbn [set_heap heap].
        by rewrite list_lookup_insert_ne.
      - intros id' o' Hne. subst em. cbn [set_heap heap].
        rewrite list_lookup_insert_ne by done. by apply Hset. }
    cbn [fired heap]. subst em. cbn [set_heap heap].
    rewrite list_lookup_insert_eq by (by rewrite length_insert).
    cbn [mbind option_bind]. eexists. split; [done|].
    destruct Hinv as (H1 & H2 & H3). split; [done|]. split; done.
  - eexists. split; [done|]. split; [done|]. split.
    + intros k id'. cbn [set_heap evaluators heap]. intros Hl.
      destruct (Htab k id' Hl) as (o' & Ho' & Hk & Hu).
      destruct (decide (id' = id)) as [->|Hne].
      * rewrite list_lookup_insert_eq by done. eexists. split; [done|].
        cbn. split; [congruence|done].
      * exists o'. by rewrite list_lookup_insert_ne.
    + intros id' o'. cbn [set_heap heap]. intros Hl.
      destruct (decide (id' = id)) as [->|Hne].
      * rewrite list_lookup_insert_eq in Hl by done. injection Hl as <-.
        split; [done|]. cbn. split; [|done]. intros _. split; [|done].
        by destruct (scores o).
      * rewrite list_lookup_insert_ne in Hl by done. by apply (Hset id').
Qed.

Lemma atomic_step (e : t) (ev : event) :
  atomic_inv e → atomic ev → nonneg_score ev →
  ∃ e', step e ev = Some e' ∧ atomic_inv e'.
Proof.
  intros (Hp & Htab & Hset) Hat Hnn.
  destruct ev as [ns pod node sc r|ns pod node sc|k r|id r]; try done;
    cbn [step nonneg_score] in *.
  - unfold RecordAndWait, getOrCreate.
    destruct (evaluators e !! podKey ns pod) as [id|] eqn:Hl.
    + destruct (Htab _ _ Hl) as (o & Ho & Hk & Hu).
      destruct (Hset _ _ Ho) as (Hsc & Hunf & _).
      apply (atomic_recordScore e id o); try done.
      * intros id' o' _. apply Hset.
      * by apply Hunf.
    + apply (atomic_recordScore _ (length (heap e))
               (startOneEvaluator (podKey ns pod) e)); try done.
      * intros k id'. cbn [evaluators heap].
        destruct (decide (k = podKey ns pod)) as [->|Hne].
        -- rewrite lookup_insert_eq. intros [= <-].
           exists (startOneEvaluator (podKey ns pod) e). split; [|done].
           rewrite lookup_app_r by done. by rewrite Nat.sub_diag.
        -- rewrite lookup_insert_ne by done. intros Hl'.
           destruct (Htab _ _ Hl') as (o' & Ho' & Hk & Hu).
           exists o'. split; [|done]. by apply lookup_app_l_Some.
      * intros id' o' Hne. cbn [heap].
        intros [Ho'|[Hge Ho']]%lookup_app_Some; [by apply (Hset id')|].
        apply list_lookup_singleton_Some in Ho' as [Hz _]. lia.
      * cbn [heap]. rewrite lookup_app_r by done. by rewrite Nat.sub_diag.
      * intros sc' H. inversion H.
  - destruct (heap e !! id) as [o|] eqn:Ho; [|by exists e].
    destruct (ticked o) eqn:Htick; [by exists e|].
    pose proof (lookup_lt_Some _ _ _ Ho) as Hlt.
    destruct (Hset _ _ Ho) as (Hsc & Hunf & Hfired).
    set (o1 := {| evKey := evKey o; limit := limit o; scores := scores o;
                  highestScore := highestScore o; waiters := waiters o;
                  ticked := true |}).
    set (em := set_heap e (<[id := o1]> (heap e))).
    assert (Hom : heap em !! id = Some o1) by (by apply list_lookup_insert_eq).
    destruct (decide (ScoreVal (highestScore o) = -1)) as [Hu|Hf].
    + destruct (Hunf Hu) as [Hne _].
      destruct (fire_unfired em id o1 (evKey o) r Hom Hu) as (w & -> & Hw).
      { destruct (scores o) as [|sc0 l] eqn:E; [done|].
        exists sc0. split; [cbn; rewrite ?E; by left|].
        assert (0 ≤ ScoreVal sc0) by (apply Hsc; by left). lia. }
      eexists. split; [done|].
      apply atomic_fired; try done.
      * intros k id' Hnk Hl. destruct (Htab k id' Hl) as (o' & Ho' & Hk & Hu').
        assert (id' ≠ id) by (intros ->; congruence).
        split; [done|]. exists o'. subst em. cbn [set_heap heap].
        by rewrite list_lookup_insert_ne.
      * intros id' o' Hne'. subst em. cbn [set_heap heap].
        rewrite list_lookup_insert_ne by done. by apply Hset.
    + exists em. split.
      * unfold fire. rewrite Hom. cbn [mbind option_bind highestScore o1].
        by rewrite (proj2 (Z.eqb_neq _ _) Hf).
      * split; [done|]. split.
        -- intros k id'. subst em. cbn [set_heap evaluators heap]. intros Hl.
           destruct (Htab k id' Hl) as (o' & Ho' & Hk & Hu').
           assert (id' ≠ id) by (intros ->; congruence).
           exists o'. by rewrite list_lookup_insert_ne.
        -- intros id' o'. subst em. cbn [set_heap heap]. intros Hl.
           destruct (decide (id' = id)) as [->|Hne].
           ++ rewrite list_lookup_insert_eq in Hl by done. injection Hl as <-.
              split; [done|]. cbn. split; [done|]. done.
           ++ rewrite list_lookup_insert_ne in Hl by done. by apply (Hset id').
Qed.

Lemma atomic_run (evs : list event) : ∀ e,
  atomic_inv e → Forall atomic evs → Forall nonneg_score evs →
  ∃ e', run e evs = Some e' ∧ atomic_inv e'.
Proof.
  induction evs as [|ev evs IH]; intros e Hinv Hat Hnn; cbn [run].
  - by exists e.
  - apply Forall_cons in Hat as [Hat1 Hat]. apply Forall_cons in Hnn as [Hnn1 Hnn].
    destruct (atomic_step e ev Hinv Hat1 Hnn1) as (e1 & -> & Hinv1).
    cbn [mbind option_bind]. by apply IH.
Qed.

Lemma sum_list_with_zero {A} (f : A → nat) (l : list A) :
  (∀ x, x ∈ l → f x = 0%nat) → sum_list_with f l = 0%nat.
Proof.
  induction l as [|a l IH]; intros H; [done|].
  cbn [sum_list_with]. rewrite (H a) by (by left).
  rewrite IH; [done|]. intros x Hx. apply H. by right.
Qed.

(** X8.  When every call runs its two critical sections without
    interruption and the scores are not negative, the aggregator never
    panics, and once the deadline of an evaluator has passed nobody waits
    on it; so when all deadlines have passed, every call that arrived has
    been answered. *)
Theorem whole_calls_are_all_answered (ss : SchedulerSet.t) (evs : list event) :
  Forall atomic evs → Forall nonneg_score evs →
  ∃ e, run (New ss) evs = Some e
       ∧ (∀ id o, heap e !! id = Some o → ticked o = true → waiters o = [])
       ∧ ((∀ id o, heap e !! id = Some o → ticked o = true) →
          length (replies e) = calls evs).
Proof.
  intros Hat Hnn.
  destruct (atomic_run evs _ (atomic_inv_New ss) Hat Hnn)
    as (e & Hrun & Hp & Htab & Hset).
  exists e. split; [done|].
  assert (Hw : ∀ id o, heap e !! id = Some o → ticked o = true → waiters o = []).
  { intros id o Ho Ht. destruct (Hset _ _ Ho) as (_ & Hunf & Hfired).
    destruct (decide (ScoreVal (highestScore o) = -1)) as [Hu|Hf].
    - destruct (Hunf Hu) as [_ Hf]. congruence.
    - by apply Hfired. }
  split; [done|].
  intros Hall. pose proof (accounted_run _ _ _ Hrun) as Hacc.
  unfold accounted in Hacc. rewrite Hp in Hacc. cbn in Hacc.
  assert (Hz : waiting e = 0%nat).
  { unfold waiting. apply sum_list_with_zero.
    intros o [id Ho]%list_elem_of_lookup.
    by rewrite (Hw id o Ho (Hall id o Ho)). }
  lia.
Qed.

Lemma fire_unfired_max (em : t) (id : nat) (o : oneEvaluator) (key : string)
      (r : Z) :
  heap em !! id = Some o →
  ScoreVal (highestScore o) = -1 →
  (∃ sc, sc ∈ scores o ∧ -1 ≤ ScoreVal sc) →
  ∃ w, fire em id key r = Some (fired em id o key w) ∧ w ∈ scores o
       ∧ ∀ sc, sc ∈ scores o → ScoreVal sc ≤ ScoreVal w.
Proof.
  intros Ho Hun Hex. unfold fire. rewrite Ho. cbn [mbind option_bind].
  rewrite Hun. cbn [Z.eqb negb].
  apply candidates_exist in Hex.
  destruct (Intn_Some (Z.of_nat (length (candidates_of (scores o)))) r)
    as (i & -> & Hi).
  { destruct (candidates_of (scores o)); [done|cbn [length]; lia]. }
  cbn [mbind option_bind].
  destruct (lookup_lt_is_Some_2 (candidates_of (scores o)) (Z.to_nat i))
    as [w Hw]; [lia|].
  rewrite Hw. cbn [mbind option_bind]. exists w. split; [done|].
  destruct (pick_spec (scores o)) as (_ & Hc & Hmax & _).
  destruct (Hc w) as [Hin Heq]; [apply list_elem_of_lookup; by exists (Z.to_nat i)|].
  split; [done|]. intros sc Hsc. rewrite Heq. by apply Hmax.
Qed.

Lemma quorum_completes (ns pod : string) (reports : list Report) :
  ∀ (e : t) (id : nat) (o : oneEvaluator),
    evaluators e !! podKey ns pod = Some id →
    heap e !! id = Some o →
    evKey o = podKey ns pod →
    ScoreVal (highestScore o) = -1 →
    waiters o = scores o →
    reports ≠ [] →
    Z.of_nat (length (scores o) + length reports) = limit o →
    Forall (λ rep, 0 ≤ rep.1.2) reports →
    ∃ e' w,
      run e (reportEvents ns pod reports) = Some e'
      ∧ evaluators e' = delete (podKey ns pod) (evaluators e)
      ∧ replies e'
        = replies e
          ++ ((λ sc, {| reqKey := podKey ns pod; evalId := id;
                        reported := sc; returned := w |})
                <$> (scores o ++ (scoreOf <$> reports)))
      ∧ w ∈ scores o ++ (scoreOf <$> reports)
      ∧ ∀ sc, sc ∈ scores o ++ (scoreOf <$> reports) → ScoreVal sc ≤ ScoreVal w.
Proof.
  induction reports as [|rep reports IH]; intros e id o Htab Ho Hkey Hun Hw Hne
    Hlen Hnn; [done|].
  apply Forall_cons in Hnn as [Hrep Hnn].
  pose proof (lookup_lt_Some _ _ _ Ho) as Hlt.
  unfold reportEvents. cbn [fmap list_fmap run step].
  unfold RecordAndWait, getOrCreate. rewrite Htab.
  unfold recordScore. rewrite Ho. cbn [mbind option_bind].
  fold (scoreOf rep).
  destruct reports as [|rep2 reports].
  - (* the last report reaches the limit *)
    cbn [length] in Hlen.
    replace (Z.of_nat (length (scores o ++ [scoreOf rep])) >=? limit o) with true
      by (rewrite length_app; cbn [length]; symmetry; apply Z.geb_le; lia).
    set (o1 := {| evKey := evKey o; limit := limit o;
                  scores := scores o ++ [scoreOf rep];
                  highestScore := highestScore o; waiters := waiters o;
                  ticked := ticked o |}).
    set (em := set_heap e (<[id := o1]> (heap e))).
    assert (Hom : heap em !! id = Some o1) by (by apply list_lookup_insert_eq).
    destruct (fire_unfired_max em id o1 (podKey ns pod) rep.2 Hom Hun)
      as (w & -> & Hwin & Hmax).
    { exists (scoreOf rep). split; [|cbn; lia]. cbn. apply elem_of_app. right.
      by apply list_elem_of_singleton. }
    cbn [mbind option_bind]. cbn [fired heap]. subst em. cbn [set_heap heap].
    rewrite list_lookup_insert_eq by (by rewrite length_insert).
    cbn [mbind option_bind run].
    eexists _, w. split; [done|]. cbn [add_reply evaluators replies].
    split; [done|]. cbn [fmap list_fmap]. split; [|done].
    subst o1. cbn [fired set_heap replies highestScore waiters evKey].
    rewrite fmap_app, <- app_assoc, Hw, Hkey. done.
  - (* more reports are due: this one waits *)
    cbn [length] in Hlen.
    replace (Z.of_nat (length (scores o ++ [scoreOf rep])) >=? limit o) with false
      by (rewrite length_app; cbn [length]; symmetry;
          destruct (Z.geb_spec (Z.of_nat (length (scores o) + 1)) (limit o));
          [lia|done]).
    cbn [mbind option_bind].
    set (o1 := {| evKey := evKey o; limit := limit o;
                  scores := scores o ++ [scoreOf rep];
                  highestScore := highestScore o;
                  waiters := waiters o ++ [scoreOf rep];
                  ticked := ticked o |}).
    destruct (IH (set_heap e (<[id := o1]> (heap e))) id o1)
      as (e' & w & Hrun & Hev & Hrep' & Hwin & Hmax); try done.
    + cbn. by apply list_lookup_insert_eq.
    + cbn. by rewrite Hw.
    + cbn [o1 scores limit]. rewrite length_app. cbn [length] in *. lia.
    + exists e', w. split; [exact Hrun|]. split; [done|].
      cbn [o1 scores] in Hrep', Hwin, Hmax.
      rewrite <- app_assoc in Hrep', Hwin, Hmax. done.
Qed.

(** X9.  When every scheduler of the set reports its score for a pod (a
    non-negative score, each as a whole call), the report that completes
    the count fires the evaluator at once, without the deadline: all
    reports are answered with one winner, which is one of the reported
    scores and the highest of them, and the table entry of the pod is
    gone. *)
Theorem quorum_fires_early (e : t) (ns pod : string) (reports : list Report) :
  evaluators e !! podKey ns pod = None →
  reports ≠ [] →
  Z.of_nat (length reports)
  = SchedulerSet.GetMemberCountNoRelays (schedulerSet e) →
  Forall (λ rep, 0 ≤ rep.1.2) reports →
  ∃ e' w,
    run e (reportEvents ns pod reports) = Some e'
    ∧ evaluators e' !! podKey ns pod = None
    ∧ replies e'
      = replies e
        ++ ((λ rep, {| reqKey := podKey ns pod; evalId := length (heap e);
                       reported := scoreOf rep; returned := w |})
              <$> reports)
    ∧ w ∈ scoreOf <$> reports
    ∧ ∀ rep, rep ∈ reports → rep.1.2 ≤ ScoreVal w.
Proof.
  intros Hnone Hne Hlen Hnn.
  set (e1 := (getOrCreate e (podKey ns pod)).2).
  assert (He1 : e1 = {| schedulerSet := schedulerSet e;
                        evaluators := <[podKey ns pod := length (heap e)]>
                                        (evaluators e);
                        heap := heap e ++ [startOneEvaluator (podKey ns pod) e];
                        pending := pending e;
                        replies := replies e |}).
  { unfold e1, getOrCreate. by rewrite Hnone. }
  assert (Hsame : run e (reportEvents ns pod reports)
                  = run e1 (reportEvents ns pod reports)).
  { destruct reports as [|rep reports]; [done|].
    unfold reportEvents. cbn [fmap list_fmap run step].
    unfold RecordAndWait. f_equal.
    unfold getOrCreate at 1. rewrite Hnone.
    unfold getOrCreate. rewrite He1. cbn [evaluators].
    by rewrite lookup_insert_eq. }
  destruct (quorum_completes ns pod reports e1 (length (heap e))
              (startOneEvaluator (podKey ns pod) e))
    as (e' & w & Hrun & Hev & Hrep & Hwin & Hmax); try done.
  - rewrite He1. cbn. by rewrite lookup_insert_eq.
  - rewrite He1. cbn [heap]. rewrite lookup_app_r by done.
    by rewrite Nat.sub_diag.
  - exists e', w. rewrite Hsame. split; [done|]. split.
    + rewrite Hev, He1. cbn. by rewrite lookup_delete_eq.
    + cbn [startOneEvaluator scores app] in Hrep, Hwin, Hmax.
      split.
      * rewrite Hrep, He1. cbn [replies]. f_equal.
        by rewrite <- list_fmap_compose.
      * split; [done|]. intros rep Hin.
        apply (Hmax (scoreOf rep)). apply list_elem_of_fmap. by exists rep.
Qed.

End ScoreEvaluatorMore.

Section PartitionerMore.
Import SchedulerSet Partitioner NodeTool.

Lemma firstPass_keeps (desired : Z) (nodes : list Node) : ∀ counts tm,
  (∀ n, n ∈ nodes → ∃ g, groupLabel n = Some g ∧ is_Some (counts !! g)) →
  (∀ g, countOf counts g + groupSize nodes g ≤ desired) →
  ∃ counts', fold_left (keep_step desired) nodes (counts, tm) = (counts', tm).
Proof.
  induction nodes as [|n nodes IH]; intros counts tm Hlab Hsize.
  - by exists counts.
  - cbn [fold_left].
    destruct (Hlab n) as (g & Hg & [c Hc]); [by left|].
    assert (Hlt : c < desired).
    { specialize (Hsize g). rewrite groupSize_cons in Hsize.
      rewrite decide_True in Hsize by done.
      unfold countOf in Hsize. rewrite Hc in Hsize. cbn in Hsize.
      assert (0 ≤ groupSize nodes g) by (unfold groupSize; lia). lia. }
    assert (Hk : keep_step desired (counts, tm) n = (<[g := c + 1]> counts, tm)).
    { unfold keep_step. rewrite Hg, Hc.
      by rewrite (proj2 (Z.ltb_lt _ _) Hlt). }
    rewrite Hk. apply IH.
    + intros n' Hn'. destruct (Hlab n') as (g' & Hg' & Hs); [by right|].
      exists g'. split; [done|].
      destruct (decide (g = g')) as [->|Hne].
      * rewrite lookup_insert_eq. by eexists.
      * by rewrite lookup_insert_ne.
    + intros g'. specialize (Hsize g'). rewrite groupSize_cons in Hsize.
      rewrite countOf_insert.
      destruct (decide (g = g')) as [->|Hne].
      * rewrite decide_True in Hsize by done.
        unfold countOf in Hsize. rewrite Hc in Hsize. cbn in Hsize. lia.
      * rewrite decide_False in Hsize by congruence. lia.
Qed.

Lemma groupSize_none (nodes : list Node) (g : string) :
  (∀ n, n ∈ nodes → groupLabel n ≠ Some g) → groupSize nodes g = 0.
Proof.
  induction nodes as [|n nodes IH]; intros H; [done|].
  rewrite groupSize_cons, decide_False by (apply H; by left).
  rewrite IH; [done|]. intros n' Hn'. apply H. by right.
Qed.

Lemma balanced_firstPass (members : list EndpointItem) (nodeList : list Node) :
  let names := PodName <$> schedulersOf members in
  let desired := desiredNodeCount (Z.of_nat (length nodeList))
                                  (Z.of_nat (length names)) in
  names ≠ [] →
  (∀ n, n ∈ nodeList → ∃ g, groupLabel n = Some g ∧ g ∈ names) →
  (∀ g, g ∈ names → groupSize nodeList g ≤ desired) →
  ∃ counts',
    firstPass desired (initCounts (schedulersOf members)) nodeList
    = (counts', [])
    ∧ ∀ g, g ∈ names → counts' !! g = Some (groupSize nodeList g).
Proof.
  intros names desired Hne Hlab Hsize.
  assert (Hg : 0 < Z.of_nat (length names)).
  { destruct names; [done|cbn [length]; lia]. }
  assert (Hd : 0 ≤ desired).
  { apply desiredNodeCount_covers; lia. }
  destruct (initCounts_ok (schedulersOf members) desired Hd) as [Hok Hz].
  fold names in Hok. destruct Hok as [Hdom _].
  destruct (firstPass_keeps desired nodeList (initCounts (schedulersOf members)) [])
    as (counts' & Hfp).
  { intros n Hn. destruct (Hlab n Hn) as (g & Hgl & Hin).
    exists g. split; [done|]. by apply Hdom. }
  { intros g. rewrite Hz.
    destruct (decide (g ∈ names)) as [Hin|Hnin]; [specialize (Hsize g Hin); lia|].
    assert (groupSize nodeList g = 0); [|lia].
    apply groupSize_none. intros n Hn Hgl.
    destruct (Hlab n Hn) as (g' & Hgl' & Hin'). congruence. }
  destruct (firstPass_keeps_all _ _ _ _ _ Hfp) as (_ & _ & Hdom' & Hcnt).
  exists counts'. split; [done|].
  intros g Hin.
  assert (is_Some (counts' !! g)) as [c Hc] by (by apply Hdom', Hdom).
  specialize (Hcnt g). rewrite Hz in Hcnt.
  unfold countOf in Hcnt. rewrite Hc in Hcnt. cbn in Hcnt.
  rewrite Hc. f_equal. lia.
Qed.

(** A run whose first loop keeps every node returns at "Moved 0 nodes". *)
Lemma updateNodeLabels_nothing_to_move (members : list EndpointItem)
      (rangeOrder : list string) (nodeList : list Node)
      (counts' : gmap string Z) :
  PodName <$> schedulersOf members ≠ [] →
  firstPass (desiredNodeCount (Z.of_nat (length nodeList))
               (Z.of_nat (length (PodName <$> schedulersOf members))))
            (initCounts (schedulersOf members)) nodeList
  = (counts', []) →
  updateNodeLabels members rangeOrder nodeList
  = Some {| nodeCountPerGroup := counts'; toMove := []; patches := [] |}.
Proof.
  intros Hne Hfp. unfold updateNodeLabels.
  rewrite length_fmap in Hfp.
  destruct (Nat.eqb_spec (length (schedulersOf members)) 0) as [Hz|_].
  { destruct (schedulersOf members); [done|discriminate Hz]. }
  by rewrite Hfp.
Qed.

(** X10.  The converse of the fixed-point claim: when every node carries
    the label of a scheduler of the set and no scheduler has more than the
    desired number of nodes, a run leaves every node where it is and
    issues no patch. *)
Theorem balanced_labels_are_kept (members : list EndpointItem)
        (rangeOrder : list string) (nodeList : list Node) :
  let names := PodName <$> schedulersOf members in
  let desired := desiredNodeCount (Z.of_nat (length nodeList))
                                  (Z.of_nat (length names)) in
  names ≠ [] →
  (∀ n, n ∈ nodeList → ∃ g, groupLabel n = Some g ∧ g ∈ names) →
  (∀ g, g ∈ names → groupSize nodeList g ≤ desired) →
  ∃ res,
    updateNodeLabels members rangeOrder nodeList = Some res
    ∧ toMove res = [] ∧ patches res = []
    ∧ ∀ g, g ∈ names →
           nodeCountPerGroup res !! g = Some (groupSize nodeList g).
Proof.
  intros names desired Hne Hlab Hsize.
  destruct (balanced_firstPass members nodeList Hne Hlab Hsize)
    as (counts' & Hfp & Hcnt).
  exists {| nodeCountPerGroup := counts'; toMove := []; patches := [] |}.
  split; [by apply updateNodeLabels_nothing_to_move|].
  split; [done|]. split; [done|]. exact Hcnt.
Qed.



Lemma groupSize_app (l1 l2 : list Node) (g : string) :
  groupSize (l1 ++ l2) g = groupSize l1 g + groupSize l2 g.
Proof. unfold groupSize. rewrite filter_app, length_app. lia. Qed.



Lemma applyPatches_cons (ps : list Patch) (n : Node) (l : list Node) :
  applyPatches ps (n :: l) = applyPatches ps [n] ++ applyPatches ps l.
Proof. done. Qed.

Lemma applyPatches_none (ps : list Patch) (n : Node) :
  (∀ p, p ∈ ps → p.1 ≠ nodeName n) → applyPatches ps [n] = [n].
Proof.
  intros H. unfold applyPatches. cbn [fmap list_fmap].
  rewrite (proj2 (list_find_None (λ p : Patch, p.1 = nodeName n) ps)); [done|].
  apply Forall_forall. intros p Hp. by apply H.
Qed.

Lemma applyPatches_hit (ps1 ps2 : list Patch) (n : Node) (dp : string) :
  (∀ p, p ∈ ps1 → p.1 ≠ nodeName n) →
  applyPatches (ps1 ++ (nodeName n, dp) :: ps2) [n]
  = [ {| nodeName := nodeName n; groupLabel := Some dp |} ].
Proof.
  intros H. unfold applyPatches. cbn [fmap list_fmap].
  rewrite list_find_app_r.
  - cbn [list_find]. rewrite decide_True by done. done.
  - apply list_find_None, Forall_forall. intros p Hp. by apply H.
Qed.

Lemma applyPatches_kept (ps : list Patch) (l : list Node) :
  (∀ p n, p ∈ ps → n ∈ l → p.1 ≠ nodeName n) → applyPatches ps l = l.
Proof.
  induction l as [|n l IH]; intros H; [done|].
  rewrite applyPatches_cons, applyPatches_none, IH; [done| |].
  - intros p n' Hp Hn'. apply H; [done|by right].
  - intros p Hp. apply H; [done|by left].
Qed.

Lemma firstPass_split (desired : Z) (nodes : list Node) :
  ∀ counts tm counts' tm',
    fold_left (keep_step desired) nodes (counts, tm) = (counts', tm') →
    ∃ kept moved,
      tm' = tm ++ moved
      ∧ nodes ≡ₚ kept ++ moved
      ∧ (∀ g, countOf counts' g = countOf counts g + groupSize kept g)
      ∧ (∀ n, n ∈ kept → ∃ g, groupLabel n = Some g ∧ is_Some (counts !! g)).
Proof.
  induction nodes as [|n nodes IH]; intros counts tm counts' tm' Hf.
  - cbn in Hf. injection Hf as <- <-. exists [], []. rewrite app_nil_r.
    split; [done|]. split; [done|]. split; [|by intros n H; inversion H].
    intros g. unfold groupSize. cbn. lia.
  - cbn [fold_left] in Hf.
    destruct (keep_step_cases desired counts tm n)
      as [(g & c & Hg & Hc & Hlt & Hk)|Hk]; rewrite Hk in Hf.
    + destruct (IH _ _ _ _ Hf) as (kept & moved & -> & Hp & Hcnt & Hlab).
      exists (n :: kept), moved. split; [done|]. split; [by rewrite Hp|].
      split.
      * intros g'. rewrite Hcnt, countOf_insert, groupSize_cons.
        destruct (decide (g = g')) as [<-|Hne].
        -- rewrite decide_True by done. unfold countOf. rewrite Hc. cbn. lia.
        -- rewrite decide_False by congruence. lia.
      * intros n' [->|Hn']%elem_of_cons.
        -- exists g. split; [done|by eexists].
        -- destruct (Hlab n' Hn') as (g' & Hg' & Hs). exists g'. split; [done|].
           destruct (decide (g = g')) as [<-|Hne]; [by eexists|].
           by rewrite lookup_insert_ne in Hs.
    + destruct (IH _ _ _ _ Hf) as (kept & moved & -> & Hp & Hcnt & Hlab).
      exists kept, (n :: moved). split; [by rewrite <- app_assoc|].
      split; [|done]. rewrite Hp. apply Permutation_middle.
Qed.

Lemma secondPass_assign (names : list string) (desired : Z) :
  "" ∉ names →
  ∀ tm i counts shortGroups ps counts' sg' ps',
    secondPass desired i tm counts shortGroups ps = Some (counts', sg', ps') →
    (∀ g, g ∈ shortGroups → g ∈ names) →
    NoDup (nodeName <$> tm) →
    (∀ p n, p ∈ ps → n ∈ tm → p.1 ≠ nodeName n) →
    ∃ extra,
      ps' = ps ++ extra
      ∧ (∀ p, p ∈ extra → ∃ n, n ∈ tm ∧ p.1 = nodeName n)
      ∧ (∀ n, n ∈ applyPatches ps' tm → ∃ g, groupLabel n = Some g ∧ g ∈ names)
      ∧ (∀ g, countOf counts' g
              = countOf counts g + groupSize (applyPatches ps' tm) g).
Proof.
  intros Hempty.
  induction tm as [|node rest IH];
    intros i counts sg ps counts' sg' ps' Hrun Hsg Hnd Hold.
  - cbn in Hrun. injection Hrun as <- <- <-. exists []. rewrite app_nil_r.
    split; [done|]. split; [by intros p H; inversion H|].
    split; [by intros n H; inversion H|].
    intros g. unfold groupSize. cbn. lia.
  - cbn [secondPass] in Hrun.
    destruct (Nat.eqb (length sg) 0); [done|].
    destruct (sg !! (i mod length sg)%nat) as [dp|] eqn:Hdp; [|done].
    cbn [mbind option_bind] in Hrun.
    assert (Hdpn : dp ∈ names).
    { apply Hsg. by eapply list_elem_of_lookup_2. }
    apply NoDup_cons in Hnd as [Hfresh Hnd]. cbn [fmap list_fmap] in Hfresh.
    set (ps1 := if String.eqb (default "" (groupLabel node)) dp then ps
                else ps ++ [(nodeName node, dp)]) in *.
    apply IH in Hrun as (extra & -> & Hext & Hlab & Hcnt); [| |done|].
    + (* the label of [node] once the patches are applied *)
      assert (Hnode : ∃ node', applyPatches (ps1 ++ extra) [node] = [node']
                               ∧ groupLabel node' = Some dp).
      { assert (Hextra : ∀ p, p ∈ extra → p.1 ≠ nodeName node).
        { intros p Hp Heq. destruct (Hext p Hp) as (n & Hn & Hpn).
          apply Hfresh. apply list_elem_of_fmap. exists n. split; [congruence|done]. }
        assert (Hps : ∀ p, p ∈ ps → p.1 ≠ nodeName node).
        { intros p Hp. apply Hold; [done|by left]. }
        unfold ps1. destruct (String.eqb_spec (default "" (groupLabel node)) dp)
          as [Heq|Hneq].
        - exists node. split.
          + apply applyPatches_none. intros p [Hp|Hp]%elem_of_app; auto.
          + destruct (groupLabel node) as [g|]; cbn in Heq; [by subst|].
            subst dp. done.
        - eexists. split.
          + rewrite <- app_assoc. cbn [app]. by apply applyPatches_hit.
          + done. }
      destruct Hnode as (node' & Hnode' & Hlab').
      exists ((if String.eqb (default "" (groupLabel node)) dp then []
               else [(nodeName node, dp)]) ++ extra).
      split.
      { unfold ps1. destruct (String.eqb _ dp); [done|by rewrite <- app_assoc]. }
      split.
      { intros p [Hp|Hp]%elem_of_app.
        - destruct (String.eqb _ dp); [by inversion Hp|].
          apply list_elem_of_singleton in Hp as ->. exists node. split; [by left|done].
        - destruct (Hext p Hp) as (n & Hn & Hpn). exists n. split; [by right|done]. }
      rewrite applyPatches_cons, Hnode'. split.
      * intros n [->|Hn]%elem_of_cons; [by exists dp|]. by apply Hlab.
      * intros g. cbn [app]. rewrite groupSize_cons, Hlab', Hcnt, countOf_insert.
        change (default 0 (counts !! dp)) with (countOf counts dp).
        destruct (decide (dp = g)) as [->|Hne].
        -- rewrite decide_True by done. lia.
        -- rewrite decide_False by congruence. lia.
    + intros g Hg. apply Hsg.
      destruct (_ >=? desired); [by eapply list_elem_of_delete_inv|done].
    + intros p n Hp Hn. unfold ps1 in Hp.
      destruct (String.eqb _ dp).
      * apply Hold; [done|by right].
      * apply elem_of_app in Hp as [Hp|Hp]; [apply Hold; [done|by right]|].
        apply list_elem_of_singleton in Hp as ->. cbn. intros Heq.
        apply Hfresh. apply list_elem_of_fmap. by exists n.
Qed.

(** X12.  One run settles the partition: with distinct scheduler names
    (none of them empty) and distinct node names, once the patches of a
    run are applied, every node carries the label of a scheduler of the
    set, the group sizes are the counts of the run, and a second run (in
    whatever map order) moves no node and issues no patch. *)
Theorem one_run_settles (members : list EndpointItem)
        (rangeOrder rangeOrder' : list string) (nodeList : list Node)
        (res : Result) :
  let names := PodName <$> schedulersOf members in
  let nodeList' := applyPatches (patches res) nodeList in
  NoDup names → names ≠ [] → "" ∉ names → rangeOrder ≡ₚ names →
  NoDup (nodeName <$> nodeList) →
  updateNodeLabels members rangeOrder nodeList = Some res →
  (∀ n, n ∈ nodeList' → ∃ g, groupLabel n = Some g ∧ g ∈ names)
  ∧ (∀ g, g ∈ names →
          nodeCountPerGroup res !! g = Some (groupSize nodeList' g))
  ∧ ∃ res', updateNodeLabels members rangeOrder' nodeList' = Some res'
            ∧ toMove res' = [] ∧ patches res' = []
            ∧ ∀ g, g ∈ names →
                   nodeCountPerGroup res' !! g = nodeCountPerGroup res !! g.
Proof.
  intros names nodeList' Hnd Hne Hempty Hperm Hnodes Hres.
  set (desired := desiredNodeCount (Z.of_nat (length nodeList))
                                   (Z.of_nat (length names))).
  assert (Hlen : length names = length (schedulersOf members))
    by apply length_fmap.
  assert (Hpos : 0 < Z.of_nat (length names))
    by (destruct names; [done | cbn [length]; lia]).
  destruct (desiredNodeCount_covers (Z.of_nat (length nodeList))
              (Z.of_nat (length names))) as [Hd0 Hcover]; [lia | done |].
  fold desired in Hd0, Hcover.
  destruct (initCounts_ok (schedulersOf members) desired Hd0) as [Hok0 Hzero].
  fold names in Hok0.
  assert (Htot0 : totalCount (initCounts (schedulersOf members)) names = 0).
  { apply totalCount_zero. intros g _. apply Hzero. }
  (* what the run computed *)
  assert (Hrun : ∃ kept moved,
             nodeList ≡ₚ kept ++ moved
             ∧ (∀ n, n ∈ kept → ∃ g, groupLabel n = Some g ∧ g ∈ names)
             ∧ (∀ p n, p ∈ patches res → n ∈ kept → p.1 ≠ nodeName n)
             ∧ (∀ n, n ∈ applyPatches (patches res) moved →
                     ∃ g, groupLabel n = Some g ∧ g ∈ names)
             ∧ (∀ g, countOf (nodeCountPerGroup res) g
                     = groupSize kept g
                       + groupSize (applyPatches (patches res) moved) g)
             ∧ counts_ok names desired (nodeCountPerGroup res)).
  { unfold updateNodeLabels in Hres. rewrite <- Hlen in Hres.
    destruct (Nat.eqb_spec (length names) 0) as [Hz|_]; [lia|].
    fold names desired in Hres.
    destruct (firstPass desired (initCounts (schedulersOf members)) nodeList)
      as [counts1 tm1] eqn:Hfirst. unfold firstPass in Hfirst.
    destruct (firstPass_ok names desired _ _ _ _ _ Hok0 Hfirst) as [Hok1 _].
    pose proof (firstPass_total names desired _ _ _ _ _ Hnd Hok0 Hfirst) as Htot1.
    rewrite Htot0 in Htot1. cbn [length] in Htot1.
    destruct (firstPass_split _ _ _ _ _ _ Hfirst)
      as (kept & moved & Htm & Hsplit & Hcnt1 & Hkept).
    cbn [app] in Htm. subst tm1.
    assert (Hkept' : ∀ n, n ∈ kept → ∃ g, groupLabel n = Some g ∧ g ∈ names).
    { intros n Hn. destruct (Hkept n Hn) as (g & Hg & Hs).
      exists g. split; [done|]. by apply Hok0. }
    assert (Hnd2 : NoDup ((nodeName <$> kept) ++ (nodeName <$> moved))).
    { rewrite <- fmap_app, <- Hsplit. done. }
    apply NoDup_app in Hnd2 as (_ & Hdisj & Hndm).
    exists kept, moved. split; [done|]. split; [done|].
    destruct (Nat.eqb_spec (length moved) 0) as [Hnone|Hsome].
    { injection Hres as <-. cbn [patches nodeCountPerGroup].
      destruct moved; [|done].
      split; [by intros p n H; inversion H|].
      split; [by intros n H; inversion H|]. split; [|done].
      intros g. rewrite Hcnt1, Hzero.
      assert (groupSize (applyPatches [] []) g = 0) as -> by done. lia. }
    assert (Hshort : ∀ g, g ∈ shortGroupsOf desired counts1 rangeOrder
                          ↔ g ∈ names ∧ countOf counts1 g < desired)
      by (intros g; by apply shortGroupsOf_elem).
    destruct (totalCount_short_exists counts1 names desired) as (g0 & Hg0 & Hs0);
      [lia|].
    destruct (Nat.eqb_spec (length (shortGroupsOf desired counts1 rangeOrder)) 0)
      as [Hnosg|_].
    { exfalso. assert (Hin : g0 ∈ shortGroupsOf desired counts1 rangeOrder)
        by (by apply Hshort).
      destruct (shortGroupsOf desired counts1 rangeOrder); [|done].
      by apply elem_of_nil in Hin. }
    destruct (secondPass_ok names desired Hnd moved 0%nat counts1
                (shortGroupsOf desired counts1 rangeOrder) [])
      as (counts2 & sg2 & ps2 & Hsp & Hok2 & _); try done.
    { apply NoDup_filter. by rewrite Hperm. }
    { lia. }
    rewrite Hsp in Hres. cbn [mbind option_bind] in Hres. injection Hres as <-.
    cbn [patches nodeCountPerGroup].
    destruct (secondPass_assign names desired Hempty _ _ _ _ _ _ _ _ Hsp)
      as (extra & Hps & Hext & Hlab & Hcnt2); try done.
    { intros g Hg. by apply Hshort in Hg as [? _]. }
    { by intros p n H; inversion H. }
    cbn [app] in Hps. subst ps2.
    split.
    { intros p n Hp Hn Heq. destruct (Hext p Hp) as (m & Hm & Hpm).
      apply (Hdisj (nodeName n)).
      - apply list_elem_of_fmap. by exists n.
      - apply list_elem_of_fmap. exists m. split; [congruence|done]. }
    split; [done|]. split; [|done].
    intros g. rewrite Hcnt2, Hcnt1, Hzero. lia. }
  destruct Hrun as (kept & moved & Hsplit & Hkept & Hnopatch & Hmoved & Hcnt & Hok).
  assert (Hlist' : nodeList' ≡ₚ kept ++ applyPatches (patches res) moved).
  { unfold nodeList', applyPatches at 1. rewrite Hsplit, fmap_app.
    fold (applyPatches (patches res) kept).
    fold (applyPatches (patches res) moved).
    by rewrite (applyPatches_kept _ kept Hnopatch). }
  assert (Hlab' : ∀ n, n ∈ nodeList' → ∃ g, groupLabel n = Some g ∧ g ∈ names).
  { intros n Hn. rewrite Hlist' in Hn.
    apply elem_of_app in Hn as [Hn|Hn]; auto. }
  assert (Hsize' : ∀ g, groupSize nodeList' g = countOf (nodeCountPerGroup res) g).
  { intros g. rewrite Hcnt. unfold groupSize at 1. rewrite Hlist'.
    fold (groupSize (kept ++ applyPatches (patches res) moved) g).
    apply groupSize_app. }
  assert (Hcount : ∀ g, g ∈ names →
            nodeCountPerGroup res !! g = Some (groupSize nodeList' g)).
  { intros g Hg. destruct Hok as [Hdom _].
    destruct (proj2 (Hdom g) Hg) as [c Hc]. rewrite Hc, Hsize'.
    unfold countOf. by rewrite Hc. }
  split; [done|]. split; [done|].
  assert (Hlen' : length nodeList' = length nodeList).
  { unfold nodeList', applyPatches. apply length_fmap. }
  destruct (balanced_firstPass members nodeList') as (counts' & Hfp & Hcnt');
    [done|done| |].
  - intros g Hg. fold names. rewrite Hlen', Hsize'. fold desired.
    destruct Hok as [_ Hle]. apply Hle.
  - eexists. split; [by apply updateNodeLabels_nothing_to_move|].
    split; [done|]. split; [done|]. cbn [nodeCountPerGroup].
    intros g Hg. rewrite (Hcnt' g Hg). symmetry. by apply Hcount.
Qed.

End PartitionerMore.

Section DistPermitMore.
Import SchedulerSet DistPermit.

Lemma append_cons (c : ascii) (s t : string) :
  String.append (String c s) t = String c (String.append s t).
Proof. reflexivity. Qed.

Lemma length_append (s1 s2 : string) :
  String.length (String.append s1 s2)
  = (String.length s1 + String.length s2)%nat.
Proof.
  induction s1 as [|c s1 IH]; [done|].
  rewrite append_cons. cbn [String.length]. by rewrite IH.
Qed.

Lemma append_inj_r (t : string) : ∀ s1 s2 : string,
  String.append s1 t = String.append s2 t → s1 = s2.
Proof.
  induction s1 as [|c s1 IH]; intros [|c2 s2] H;
    rewrite ?append_cons in H; change (String.append "" t) with t in H.
  - done.
  - apply (f_equal String.length) in H. cbn [String.length] in H.
    rewrite length_append in H. lia.
  - apply (f_equal String.length) in H. cbn [String.length] in H.
    rewrite length_append in H. lia.
  - injection H as -> H. f_equal. by apply IH.
Qed.

Lemma contains_colon_append (s1 s2 : string) :
  contains_colon (String.append s1 s2)
  = contains_colon s1 || contains_colon s2.
Proof.
  induction s1 as [|c s1 IH]; [done|].
  rewrite append_cons. cbn [contains_colon]. rewrite IH. by rewrite orb_assoc.
Qed.

(** X13.  Two different endpoint addresses never yield the same dial
    target, hence never the same key of the connection cache (an address
    with a colon is put in brackets, and no address without colon reads
    like a bracketed one). *)
Theorem GRPCAddress_distinct (a1 a2 port : string) :
  a1 ≠ a2 → GRPCAddress a1 port ≠ GRPCAddress a2 port.
Proof.
  unfold GRPCAddress. intros Hne H. apply append_inj_r in H.
  destruct (contains_colon a1) eqn:E1; destruct (contains_colon a2) eqn:E2.
  - apply (String.app_inj "[") in H. by apply append_inj_r in H.
  - subst a2. rewrite contains_colon_append in E2. cbn in E2.
    rewrite contains_colon_append, E1 in E2. done.
  - subst a1. rewrite contains_colon_append in E1. cbn in E1.
    rewrite contains_colon_append, E2 in E1. done.
  - done.
Qed.

(** X14.  A connection is dialled at most once per address: after a call
    of [SendScore] that returned with the mutex released, the connection
    it used is in the cache under the target's address and the other
    entries are untouched; a later call to the same target leaves the
    cache as it is and does not consult [grpc.NewClient] at all. *)
Theorem SendScore_reuses_connection (net : Net) (st st' : State)
        (target : EndpointItem) (podName namespace nodeName : string)
        (score : Z) (a : string) (permit : bool) (calls : list call) :
  Addresses target !! 0%nat = Some a →
  SendScore net st target podName namespace nodeName score
  = Some (Returned permit st' calls) →
  clientCacheLock st' = false →
  let addr := GRPCAddress a "50051" in
  (∃ conn, connection net st addr = Some conn
           ∧ clientCache st' !! addr = Some conn)
  ∧ (∀ k, k ≠ addr → clientCache st' !! k = clientCache st !! k)
  ∧ (∀ (net2 net3 : Net) (podName2 namespace2 nodeName2 : string) (score2 : Z),
       CollectScore net2 = CollectScore net3 →
       SendScore net2 st' target podName2 namespace2 nodeName2 score2
       = SendScore net3 st' target podName2 namespace2 nodeName2 score2
       ∧ ∃ permit2 calls2,
           SendScore net2 st' target podName2 namespace2 nodeName2 score2
           = Some (Returned permit2 st' calls2)).
Proof.
  intros Ha Hsend Hunl addr.
  unfold SendScore in Hsend. rewrite Ha in Hsend. cbn [mbind option_bind] in Hsend.
  fold addr in Hsend.
  destruct (clientCacheLock st) eqn:Hl; [done|].
  assert (Hconn : ∃ conn cache,
            connection net st addr = Some conn
            ∧ st' = {| clientCacheLock := false; clientCache := cache |}
            ∧ cache !! addr = Some conn
            ∧ ∀ k, k ≠ addr → cache !! k = clientCache st !! k).
  { unfold connection.
    destruct (clientCache st !! addr) as [conn|] eqn:Hc.
    - exists conn, (clientCache st). split; [done|]. split; [|done].
      destruct (score =? 0); [by injection Hsend as _ <- _|].
      destruct (CollectScore net conn _); by injection Hsend as _ <- _.
    - destruct (NewClient net addr) as [conn|] eqn:Hn.
      + exists conn, (<[addr := conn]> (clientCache st)). split; [done|].
        split; [|split; [by rewrite lookup_insert_eq|
                         by intros k Hk; rewrite lookup_insert_ne]].
        destruct (score =? 0); [by injection Hsend as _ <- _|].
        destruct (CollectScore net conn _); by injection Hsend as _ <- _.
      + injection Hsend as _ <- _. done. }
  destruct Hconn as (conn & cache & Hconn & -> & Hcache & Hother).
  split; [by exists conn|]. split; [done|].
  intros net2 net3 podName2 namespace2 nodeName2 score2 Hcs.
  unfold SendScore. rewrite Ha. cbn [mbind option_bind]. fold addr.
  cbn [clientCacheLock clientCache]. rewrite Hcache, Hcs.
  split; [done|].
  destruct (score2 =? 0); [by eexists _, _|].
  destruct (CollectScore net3 conn _); by eexists _, _.
Qed.

End DistPermitMore.

Section PermitFacts.
Import SchedulerSet DistPermit PermitPlugin.

(** X15.  What [Permit] never does: it issues at most one call per
    cycle and none when it always denies; it reports Success only when the
    aggregator chosen for the pod's key answered permit = true to the one
    awaited call, which carried the node's total score (as int32), and
    never for a total score of zero or a node without score entry; Error
    is reported exactly when the scores cannot be read. *)
Theorem Permit_grants_only_on_yes (net : Net) (st st' : State)
        (alwaysDeny : bool) (ss : SchedulerSet.t)
        (nodePluginScores : option (list NodePluginScore))
        (podName namespace nodeName : string)
        (status : Status) (calls : list call) (signalled : bool) :
  Permit net st alwaysDeny ss nodePluginScores podName namespace nodeName
  = Some (PermitPlugin.Returned status st' calls signalled) →
  (length calls ≤ 1)%nat
  ∧ (alwaysDeny = true → calls = [] ∧ st' = st ∧ signalled = false
                         ∧ code status = Unschedulable)
  ∧ (code status = Error ↔ alwaysDeny = false ∧ nodePluginScores = None)
  ∧ (code status = Success →
     ∃ scores s target a conn,
       nodePluginScores = Some scores
       ∧ s ∈ scores ∧ Name s = nodeName ∧ TotalScore s ≠ 0
       ∧ GetTargetForScoring ss (ScoreEvaluator.podKey namespace podName)
         = Some target
       ∧ Addresses target !! 0%nat = Some a
       ∧ connection net st (GRPCAddress a "50051") = Some conn
       ∧ let request := {| reqPodName := podName; reqNamespace := namespace;
                           reqNodeName := nodeName;
                           reqScore := int32 (TotalScore s) |} in
         calls = [Awaited conn request]
         ∧ CollectScore net conn request = Some true).
Proof.
  unfold Permit. destruct alwaysDeny.
  { intros [= <- <- <- <-]. cbn. split; [lia|]. split; [done|].
    split; [|done]. split; [done|]. by intros [? _]. }
  destruct nodePluginScores as [scores|].
  2:{ intros [= <- <- <- <-]. cbn. split; [lia|]. split; [done|].
      split; [done|done]. }
  destruct (GetTargetForScoring ss _) as [target|] eqn:Ht; [|done].
  cbn [mbind option_bind].
  destruct (list_find _ scores) as [[i s]|] eqn:Hf.
  2:{ intros [= <- <- <- <-]. cbn. split; [lia|]. split; [done|].
      split; [|done]. split; [done|]. by intros [_ ?]. }
  apply list_find_Some in Hf as (Hi & Hname & _).
  unfold SendScore.
  destruct (Addresses target !! 0%nat) as [a|] eqn:Ha; [|done].
  cbn [mbind option_bind].
  destruct (clientCacheLock st); [done|].
  assert (Hgeneric : ∀ (p : bool) (cache : State) (cs : list call),
            (length cs ≤ 1)%nat →
            (p = true →
             ∃ conn, connection net st (GRPCAddress a "50051") = Some conn
                     ∧ TotalScore s ≠ 0
                     ∧ cs = [Awaited conn
                               {| reqPodName := podName; reqNamespace := namespace;
                                  reqNodeName := nodeName;
                                  reqScore := int32 (TotalScore s) |}]
                     ∧ CollectScore net conn
                         {| reqPodName := podName; reqNamespace := namespace;
                            reqNodeName := nodeName;
                            reqScore := int32 (TotalScore s) |} = Some true) →
            (if p
             then Some (PermitPlugin.Returned
                          {| code := Success; reason := "DistPermit"; plugin := "" |}
                          cache cs true)
             else Some (rejected cache cs))
            = Some (PermitPlugin.Returned status st' calls signalled) →
            (length calls ≤ 1)%nat
            ∧ (false = true → calls = [] ∧ st' = st ∧ signalled = false
                              ∧ code status = Unschedulable)
            ∧ (code status = Error ↔ false = false ∧ Some scores = None)
            ∧ (code status = Success →
               ∃ scores0 s0 target0 a0 conn,
                 Some scores = Some scores0
                 ∧ s0 ∈ scores0 ∧ Name s0 = nodeName ∧ TotalScore s0 ≠ 0
                 ∧ Some target = Some target0
                 ∧ Addresses target0 !! 0%nat = Some a0
                 ∧ connection net st (GRPCAddress a0 "50051") = Some conn
                 ∧ let request := {| reqPodName := podName;
                                     reqNamespace := namespace;
                                     reqNodeName := nodeName;
                                     reqScore := int32 (TotalScore s0) |} in
                   calls = [Awaited conn request]
                   ∧ CollectScore net conn request = Some true)).
  { intros p cache cs Hlen Hyes. destruct p.
    - intros [= <- <- <- <-]. cbn [code]. split; [done|]. split; [done|].
      split; [split; [done|by intros [_ ?]]|]. intros _.
      destruct (Hyes eq_refl) as (conn & Hc & Hnz & Hcs & Hrpc).
      exists scores, s, target, a, conn. split; [done|].
      split; [by eapply list_elem_of_lookup_2|]. done.
    - intros [= <- <- <- <-]. cbn [code]. split; [done|]. split; [done|].
      split; [split; [done|by intros [_ ?]]|]. done. }
  unfold connection.
  destruct (clientCache st !! GRPCAddress a "50051") as [conn|] eqn:Hc.
  - destruct (Z.eqb_spec (TotalScore s) 0) as [Hz|Hnz].
    + cbn [mbind option_bind]. apply (Hgeneric false).
      * cbn [length]. lia.
      * done.
    + destruct (CollectScore net conn _) as [p|] eqn:Hrpc; cbn [mbind option_bind].
      * apply (Hgeneric p).
        -- cbn [length]. lia.
        -- intros ->. exists conn. unfold connection. by rewrite Hc.
      * apply (Hgeneric false).
        -- cbn [length]. lia.
        -- done.
  - destruct (NewClient net _) as [conn|] eqn:Hn.
    + destruct (Z.eqb_spec (TotalScore s) 0) as [Hz|Hnz].
      * cbn [mbind option_bind]. apply (Hgeneric false).
        -- cbn [length]. lia.
        -- done.
      * destruct (CollectScore net conn _) as [p|] eqn:Hrpc; cbn [mbind option_bind].
        -- apply (Hgeneric p).
           ++ cbn [length]. lia.
           ++ intros ->. exists conn. unfold connection. by rewrite Hc.
        -- apply (Hgeneric false).
           ++ cbn [length]. lia.
           ++ done.
    + cbn [mbind option_bind]. apply (Hgeneric false).
      * cbn [length]. lia.
      * done.
Qed.

End PermitFacts.

Section FailureHandlerFacts.
Import SchedulerSet DistPermit FailureHandler.

(** X16.  A failed cycle reports at most once, and never waits for an
    answer.  When the failure came from the binder or from a DistPermit
    rejection (the score went out in [Permit]) the handler returns and
    nothing is sent.  In every other case, for a pod whose aggregator has
    an address: with the cache mutex free the handler returns, and exactly
    one score 0 with an empty node name has gone to the aggregator of the
    pod's key, as a call nobody waits for, unless the connection cannot be
    made; with the mutex held (a failed dial leaves it locked) the handler
    waits for it and nothing is sent. *)
Theorem podScheduleFailure_reports_zero (net : Net) (st : State)
        (ss : SchedulerSet.t) (status : Status) (podName namespace : string) :
  let skipped := Plugin status = "DefaultBinder"
                 ∨ ∃ plugins, AsError status = FitError plugins
                              ∧ "DistPermit" ∈ plugins in
  let report := {| reqPodName := podName; reqNamespace := namespace;
                   reqNodeName := ""; reqScore := 0 |} in
  (skipped →
   podScheduleFailure net st ss status podName namespace
   = Some (FailureHandler.Returned st []))
  ∧ (¬ skipped →
     ∀ target a,
       GetTargetForScoring ss (ScoreEvaluator.podKey namespace podName)
       = Some target →
       Addresses target !! 0%nat = Some a →
       (clientCacheLock st = false →
        ∃ st' calls,
          podScheduleFailure net st ss status podName namespace
          = Some (FailureHandler.Returned st' calls)
          ∧ calls = match connection net st (GRPCAddress a "50051") with
                    | Some conn => [Spawned conn report]
                    | None => []
                    end
          ∧ Forall (λ c, is_awaited c = false) calls
          ∧ (clientCacheLock st' = true
             ↔ connection net st (GRPCAddress a "50051") = None))
       ∧ (clientCacheLock st = true →
          podScheduleFailure net st ss status podName namespace
          = Some FailureHandler.Blocked)).
Proof.
  intros skipped report. unfold podScheduleFailure.
  assert (Hskip : match AsError status with
                  | FitError plugins => bool_decide ("DistPermit" ∈ plugins)
                  | NoError | OtherError => false
                  end = true ↔ ∃ plugins, AsError status = FitError plugins
                                          ∧ "DistPermit" ∈ plugins).
  { destruct (AsError status) as [|plugins|].
    - split; [done|]. by intros (pl & ? & ?).
    - rewrite bool_decide_eq_true. split.
      + intros Hin. by exists plugins.
      + by intros (pl & [= <-] & ?).
    - split; [done|]. by intros (pl & ? & ?). }
  destruct (String.eqb_spec (Plugin status) "DefaultBinder") as [Hb|Hb].
  { split; [done|]. intros Hn. exfalso. apply Hn. by left. }
  destruct (match AsError status with
            | FitError plugins => bool_decide ("DistPermit" ∈ plugins)
            | NoError | OtherError => false
            end).
  { split; [done|]. intros Hn. exfalso. apply Hn. right. by apply Hskip. }
  split.
  { intros [Hs|Hs]; [done|]. apply Hskip in Hs. discriminate Hs. }
  intros _ target a Ht Ha. rewrite Ht. cbn [mbind option_bind].
  unfold SendScore. rewrite Ha. cbn [mbind option_bind].
  assert (Hz : int32 0 = 0) by reflexivity. rewrite Hz.
  split; intros Hlock; rewrite Hlock; [|reflexivity].
  unfold connection.
  destruct (clientCache st !! GRPCAddress a "50051") as [conn|] eqn:Hc.
  - cbn. eexists _, _. split; [reflexivity|]. split; [reflexivity|].
    split; [by repeat constructor|]. cbn. split; intros H; discriminate H.
  - destruct (NewClient net (GRPCAddress a "50051")) as [conn|] eqn:Hn.
    + cbn. eexists _, _. split; [reflexivity|]. split; [reflexivity|].
      split; [by repeat constructor|]. cbn. split; intros H; discriminate H.
    + cbn. eexists _, _. split; [reflexivity|]. split; [reflexivity|].
      split; [constructor|]. cbn. done.
Qed.

End FailureHandlerFacts.

Section RelayFacts.
Import SchedulerSet Relay.

Lemma uint8_range (z : Z) : 0 ≤ uint8 z < 256.
Proof. unfold uint8. apply Z.mod_pos_bound. lia. Qed.

Lemma Uint32_PutUint32 (v : Z) (rest : list Z) :
  0 ≤ v < 2 ^ 32 → Uint32 (PutUint32 v ++ rest) = Some v.
Proof.
  intros Hv. unfold PutUint32, Uint32, uint8. cbn [app]. f_equal.
  apply Z.bits_inj'. intros n Hn.
  rewrite !Z.lor_spec.
  change 256 with (2 ^ 8).
  destruct (Z.lt_ge_cases n 8) as [H8|H8].
  { rewrite Z.mod_pow2_bits_low by lia.
    rewrite !Z.shiftl_spec by lia.
    rewrite (Z.testbit_neg_r _ (n - 8)), (Z.testbit_neg_r _ (n - 16)),
      (Z.testbit_neg_r _ (n - 24)) by lia.
    by rewrite !orb_false_r. }
  rewrite Z.mod_pow2_bits_high by lia. cbn [orb].
  rewrite !Z.shiftl_spec by lia.
  destruct (Z.lt_ge_cases n 16) as [H16|H16].
  { rewrite Z.mod_pow2_bits_low by lia. rewrite Z.shiftr_spec by lia.
    rewrite (Z.testbit_neg_r _ (n - 16)), (Z.testbit_neg_r _ (n - 24)) by lia.
    rewrite !orb_false_r. f_equal. lia. }
  rewrite (Z.mod_pow2_bits_high _ 8 (n - 8)) by lia. cbn [orb].
  destruct (Z.lt_ge_cases n 24) as [H24|H24].
  { rewrite Z.mod_pow2_bits_low by lia. rewrite Z.shiftr_spec by lia.
    rewrite (Z.testbit_neg_r _ (n - 24)) by lia.
    rewrite !orb_false_r. f_equal. lia. }
  rewrite (Z.mod_pow2_bits_high _ 8 (n - 16)) by lia. cbn [orb].
  destruct (Z.lt_ge_cases n 32) as [H32|H32].
  { rewrite Z.mod_pow2_bits_low by lia. rewrite Z.shiftr_spec by lia.
    f_equal. lia. }
  rewrite (Z.mod_pow2_bits_high _ 8 (n - 24)) by lia.
  symmetry. apply (Z.bits_above_log2 v n); [lia|].
  destruct (decide (v = 0)) as [->|Hnz]; [cbn; lia|].
  apply Z.log2_lt_pow2; [lia|].
  apply Z.lt_le_trans with (2 ^ 32); [lia|]. apply Z.pow_le_mono_r; lia.
Qed.

(** X17.  The framing of a relayed pod round-trips: the message is five
    bytes longer than the pod, starts with 0x0d, carries the request id in
    little-endian order, and [bytes[5:]] at the receiver is the pod again;
    so a pod relayed over two hops (under whatever request ids) reaches
    the second receiver byte for byte. *)
Theorem frame_round_trip (requestId requestId' : Z) (pod : list Z) :
  0 ≤ requestId < 2 ^ 32 →
  length (frame requestId pod) = (5 + length pod)%nat
  ∧ frame requestId pod !! 0%nat = Some 0x0d
  ∧ Uint32 (drop 1 (frame requestId pod)) = Some requestId
  ∧ rawPodOf (frame requestId pod) = Some pod
  ∧ (rawPodOf (frame requestId pod) ≫= λ raw,
       rawPodOf (frame requestId' raw)) = Some pod.
Proof.
  intros Hid. unfold frame, rawPodOf.
  split; [done|]. split; [done|]. split.
  - cbn [drop]. by apply Uint32_PutUint32.
  - done.
Qed.

Lemma stream_inv_step (sent : list PendingRequest) (t : Trace) (o : op) :
  stream_inv sent t →
  Z.of_nat (length (sent ++ sendsOf [o])) < 2 ^ 32 →
  stream_inv (sent ++ sendsOf [o]) (stepStream t o).
Proof.
  intros (Hc & Has & Hpend & Hdone & Hnd) Hlt.
  destruct o as [pr pod|id].
  - change (sendsOf [Send pr pod]) with [pr] in *.
    rewrite length_app in *. cbn [length] in *.
    unfold stepStream, register. rewrite Hc.
    rewrite uint32_small by lia.
    unfold stream_inv. rewrite length_app.
    cbn [stream assigned completed requestIdCounter pendingRequests length].
    split; [lia|]. split.
    { rewrite Has. replace (Z.of_nat (length sent + 1))
        with (Z.of_nat (S (length sent))) by lia.
      rewrite seqZ_S. f_equal. f_equal. lia. }
    split; [|split; [|done]].
    + intros id pr'. cbn [pendingRequests].
      destruct (decide (id = Z.of_nat (length sent) + 1)) as [->|Hne].
      * rewrite lookup_insert_eq. intros [= <-]. split; [lia|]. split.
        -- rewrite lookup_app_r by lia.
           replace (Z.to_nat (Z.of_nat (length sent) + 1 - 1) - length sent)%nat
             with 0%nat by lia. done.
        -- intros [[id' pr'] [Heq Hin]]%list_elem_of_fmap. cbn in Heq. subst id'.
           destruct (Hdone _ _ Hin) as [_ Hl%lookup_lt_Some]. lia.
      * rewrite lookup_insert_ne by done. intros Hl.
        destruct (Hpend _ _ Hl) as (H1 & Hs & Hn). split; [done|].
        split; [|done]. by apply lookup_app_l_Some.
    + intros id pr' Hin. destruct (Hdone _ _ Hin) as [H1 Hs].
      split; [done|]. by apply lookup_app_l_Some.
  - change (sendsOf [Recv id]) with (@nil PendingRequest) in *.
    rewrite app_nil_r in *. unfold stepStream, receive.
    destruct (pendingRequests (stream t) !! id) as [pr|] eqn:Hl.
    + destruct (Hpend _ _ Hl) as (H1 & Hs & Hn). unfold stream_inv.
      cbn [stream assigned completed pendingRequests requestIdCounter].
      split; [done|]. split; [done|]. split; [|split].
      * intros id' pr'. intros [Hne Hl']%lookup_delete_Some.
        destruct (Hpend _ _ Hl') as (H1' & Hs' & Hn'). split; [done|].
        split; [done|]. rewrite fmap_app. cbn [fmap list_fmap fst].
        intros [?|Hi%list_elem_of_singleton]%elem_of_app; [done|]. congruence.
      * intros id' pr' [Hin|Hin%list_elem_of_singleton]%elem_of_app.
        -- by apply Hdone.
        -- by injection Hin as -> ->.
      * rewrite fmap_app. cbn [fmap list_fmap fst].
        apply NoDup_app. split; [done|]. split; [|apply NoDup_singleton].
        intros x Hx ->%list_elem_of_singleton. done.
    + done.
Qed.

Lemma sendsOf_app (ops1 ops2 : list op) :
  sendsOf (ops1 ++ ops2) = sendsOf ops1 ++ sendsOf ops2.
Proof. unfold sendsOf. apply omap_app. Qed.

Lemma stream_inv_run (ops : list op) : ∀ (sent : list PendingRequest) (t : Trace),
  stream_inv sent t →
  Z.of_nat (length (sent ++ sendsOf ops)) < 2 ^ 32 →
  stream_inv (sent ++ sendsOf ops) (fold_left stepStream ops t).
Proof.
  induction ops as [|o ops IH]; intros sent t Hinv Hlt.
  - cbn. by rewrite app_nil_r.
  - cbn [fold_left].
    change (o :: ops) with ([o] ++ ops) in *.
    rewrite sendsOf_app, app_assoc in *.
    apply IH; [|done]. apply stream_inv_step; [done|].
    rewrite length_app in Hlt. lia.
Qed.

(** X18.  Request ids on one stream: as long as fewer than 2^32 pods have
    been sent on it, the ids handed out are 1, 2, 3, ... (so a new id is
    never one that is still pending), every response completes the
    request that was sent under its id, and no request is completed
    twice; a response with an unknown id completes nothing. *)
Theorem request_ids_match (ops : list op) :
  Z.of_nat (length (sendsOf ops)) < 2 ^ 32 →
  assigned (runStream ops) = seqZ 1 (Z.of_nat (length (sendsOf ops)))
  ∧ NoDup (assigned (runStream ops))
  ∧ NoDup (completed (runStream ops)).*1
  ∧ (∀ id pr, (id, pr) ∈ completed (runStream ops) →
              ∃ k, sendsOf ops !! k = Some pr
                   ∧ assigned (runStream ops) !! k = Some id)
  ∧ (∀ id, pendingRequests (stream (runStream ops)) !! id = None →
           receive (stream (runStream ops)) id = (stream (runStream ops), None)).
Proof.
  intros Hlt.
  destruct (stream_inv_run ops [] {| stream := newStream; assigned := [];
                                     completed := [] |})
    as (Hc & Has & Hpend & Hdone & Hnd).
  { unfold stream_inv. cbn. split; [done|]. split; [done|].
    split; [by intros id pr H; rewrite lookup_empty in H|].
    split; [by intros id pr H; inversion H|constructor]. }
  { done. }
  cbn [app] in *. fold (runStream ops) in *.
  split; [done|]. split; [rewrite Has; apply NoDup_seqZ|]. split; [done|].
  split.
  - intros id pr Hin. destruct (Hdone _ _ Hin) as [H1 Hs].
    exists (Z.to_nat (id - 1)). split; [done|].
    rewrite Has. apply lookup_seqZ. split; [lia|].
    apply lookup_lt_Some in Hs. lia.
  - intros id Hn. unfold receive. by rewrite Hn.
Qed.

End RelayFacts.

Section InformerFacts.
Import SchedulerSet Informer.

Lemma cache_GetMembers_perm (l1 l2 : list (string * list EndpointItem)) :
  l1 ≡ₚ l2 →
  foldr (λ kv members, kv.2 ++ members) [] l1
  ≡ₚ foldr (λ kv members, kv.2 ++ members) [] l2.
Proof.
  induction 1 as [|x l1 l2 _ IH|x y l|l1 l2 l3 _ IH1 _ IH2]; cbn [foldr].
  - done.
  - by rewrite IH.
  - rewrite !app_assoc. apply Permutation_app_tail, Permutation_app_comm.
  - by rewrite IH1.
Qed.

(** X19.  An update of the endpoint-slice cache replaces the endpoints of
    the slice of that name and nothing else: the members afterwards are
    the endpoints of the new slice together with the members of all other
    slices, and the member count follows. *)
Theorem cache_Update_members (esc : gmap string (list EndpointItem))
        (ess : EndpointSlice) :
  cache_GetMembers (Update esc ess)
  ≡ₚ Endpoints ess ++ cache_GetMembers (Delete esc ess)
  ∧ cache_GetMemberCount (Update esc ess)
    = Z.of_nat (length (Endpoints ess)) + cache_GetMemberCount (Delete esc ess)
  ∧ (∀ old, esc !! Name ess = Some old →
            cache_GetMembers esc ≡ₚ old ++ cache_GetMembers (Delete esc ess))
  ∧ (esc !! Name ess = None → Delete esc ess = esc)
  ∧ Delete (Update esc ess) ess = Delete esc ess.
Proof.
  assert (Hup : cache_GetMembers (Update esc ess)
                ≡ₚ Endpoints ess ++ cache_GetMembers (Delete esc ess)).
  { unfold cache_GetMembers, Update, Delete.
    rewrite <- insert_delete_eq.
    rewrite (cache_GetMembers_perm _ _
               (map_to_list_insert (delete (Name ess) esc) (Name ess)
                  (Endpoints ess) (lookup_delete_eq _ _))).
    done. }
  split; [done|]. split.
  { rewrite !cache_count_length, (Permutation_length Hup), length_app. lia. }
  split; [|split].
  - intros old Hold. unfold cache_GetMembers, Delete.
    rewrite <- (cache_GetMembers_perm _ _
                  (map_to_list_delete esc (Name ess) old Hold)).
    done.
  - intros Hn. unfold Delete. by apply delete_id.
  - unfold Delete, Update. apply delete_insert_eq.
Qed.

Lemma freshSubMembers_set_cache (s : t) (sub : list EndpointItem) :
  freshSubMembers (set_cache s sub) = freshSubMembers s.
Proof. done. Qed.

Lemma GetSubMembers_dirty (s : t) :
  dirty s = true →
  (GetSubMembers s).1 = freshSubMembers s
  ∧ subMembersCache (GetSubMembers s).2 = freshSubMembers s
  ∧ dirty (GetSubMembers s).2 = false
  ∧ freshSubMembers (GetSubMembers s).2 = freshSubMembers s.
Proof.
  intros Hd. destruct s as [esc nm fan sub ldr d solo]. cbn [dirty] in Hd.
  subst d. unfold freshSubMembers, GetSubMembers, markDirty.
  cbn [dirty endpointSliceCache leader podName fanOut negb].
  destruct (length (cache_GetMembers esc) <=? 1)%nat eqn:E; cbn;
    rewrite ?E; cbn; unfold sortMembers, selfIndex; cbn; done.
Qed.

(** Invariant of a scheduler set with the notifications [q] still owed to
    its update handler: the set is dirty, or its cached sub-members are
    what a fresh computation yields, or a notification that will mark it
    dirty is still owed. *)
Lemma coherent_step (s : t) (q q' : list notification) (st : step) :
  (∀ obj, st ≠ RunCacheHandler (OnAdd obj true)) →
  owed_step (Some q) st = Some q' →
  dirty s = true ∨ subMembersCache s = freshSubMembers s
  ∨ (∃ n, n ∈ q ∧ notifies n = true) →
  dirty (exec s st) = true
  ∨ subMembersCache (exec s st) = freshSubMembers (exec s st)
  ∨ (∃ n, n ∈ q' ∧ notifies n = true).
Proof.
  intros Hinit Hq Hinv. unfold owed_step in Hq. cbn [mbind option_bind] in Hq.
  destruct st as [n|n|ldr|]; cbn [exec].
  - injection Hq as <-.
    destruct (notifies n) eqn:Hn.
    + right; right. exists n. split; [|done]. apply elem_of_app. right.
      by apply list_elem_of_singleton.
    + assert (Hsame : cacheHandler (endpointSliceCache s) n
                      = endpointSliceCache s).
      { destruct n as [obj init|o n'|obj]; cbn in Hn |- *.
        - destruct init; [|done]. by destruct (Hinit obj).
        - by rewrite Hn.
        - done. }
      rewrite Hsame.
      assert (set_endpointSliceCache s (endpointSliceCache s) = s) as ->
        by (by destruct s).
      destruct Hinv as [?|[?|(n' & Hin & Hn')]]; [by left|by right; left|].
      right; right. exists n'. split; [|done]. apply elem_of_app. by left.
  - destruct q as [|n' q0]; [done|].
    case_decide as Hd; [|done]. subst n'. injection Hq as <-.
    destruct (notifies n) eqn:Hn; [by left|].
    destruct Hinv as [?|[?|(n' & Hin & Hn')]]; [by left|by right; left|].
    right; right. exists n'. split; [|done].
    apply elem_of_cons in Hin as [->|]; [congruence|done].
  - by left.
  - injection Hq as <-.
    destruct (dirty s) eqn:Hd.
    + destruct (GetSubMembers_dirty s Hd) as (_ & Hc & _ & Hf).
      right; left. by rewrite Hc, Hf.
    + assert ((GetSubMembers s).2 = s) as ->.
      { unfold GetSubMembers. by rewrite Hd. }
      rewrite Hd. destruct Hinv as [?|[?|?]]; [done|by right; left|by right; right].
Qed.

Lemma coherent_run (steps : list step) : ∀ (s : t) (q q' : list notification),
  Forall (λ st, ∀ obj, st ≠ RunCacheHandler (OnAdd obj true)) steps →
  fold_left owed_step steps (Some q) = Some q' →
  dirty s = true ∨ subMembersCache s = freshSubMembers s
  ∨ (∃ n, n ∈ q ∧ notifies n = true) →
  let s' := fold_left exec steps s in
  dirty s' = true ∨ subMembersCache s' = freshSubMembers s'
  ∨ (∃ n, n ∈ q' ∧ notifies n = true).
Proof.
  induction steps as [|st steps IH]; intros s q q' Hin Hq Hinv.
  - cbn in *. by injection Hq as <-.
  - apply Forall_cons in Hin as [Hin1 Hin]. cbn [fold_left] in *.
    destruct (owed_step (Some q) st) as [q1|] eqn:Hq1.
    + apply (IH _ q1 q'); [done|done|].
      by apply (coherent_step s q q1 st).
    + exfalso. clear -Hq. induction steps as [|st' steps IH']; [done|].
      cbn [fold_left] in Hq. by apply IH'.
Qed.

(** Nothing but [GetSubMembers] clears the dirty flag. *)
Lemma dirty_kept (steps : list step) : ∀ s : t,
  Forall (λ st, st ≠ CallGetSubMembers) steps →
  dirty s = true →
  dirty (fold_left exec steps s) = true.
Proof.
  induction steps as [|st steps IH]; intros s Hno Hd; [done|].
  apply Forall_cons in Hno as [Hst Hno]. cbn [fold_left].
  apply IH; [done|].
  destruct st as [n|n|ldr|]; cbn [exec]; [done| |done|done].
  by destruct (notifies n).
Qed.

Lemma owed_None (steps : list step) : fold_left owed_step steps None = None.
Proof. induction steps as [|st steps IH]; [done|]. exact IH. Qed.

(** X20.  The cached relay sub-members are not stale once the initial
    listing is in the cache.  Take any interleaving of the two informer
    listeners, leader changes and calls of [GetSubMembers] in which the
    listener that marks the set dirty gets each notification after the
    listener that updates the cache, and in which the cache listener
    handles no add of the initial list after the first call of
    [GetSubMembers] (the update listener ignores those adds).  Once both
    listeners have handled everything, [GetSubMembers] returns what a
    fresh computation from the current cache and leader yields. *)
Theorem sub_members_cache_coherent (esc : gmap string (list EndpointItem))
        (name : string) (fan : Z) (solo : bool) (startup steps : list step) :
  Forall (λ st, st ≠ CallGetSubMembers) startup →
  Forall (λ st, ∀ obj, st ≠ RunCacheHandler (OnAdd obj true)) steps →
  owed (startup ++ steps) = Some [] →
  let s := fold_left exec (startup ++ steps)
             (NewSchedulerSet esc name fan solo) in
  (GetSubMembers s).1 = freshSubMembers s.
Proof.
  intros Hstart Hin Hq s. subst s.
  unfold owed in Hq. rewrite fold_left_app in Hq. rewrite fold_left_app.
  destruct (fold_left owed_step startup (Some [])) as [q|] eqn:Hq0;
    [|by rewrite owed_None in Hq].
  pose proof (dirty_kept startup (NewSchedulerSet esc name fan solo)
                Hstart eq_refl) as Hd0.
  set (s0 := fold_left exec startup (NewSchedulerSet esc name fan solo)) in *.
  destruct (coherent_run steps s0 q [] Hin Hq (or_introl Hd0))
    as [Hd|[Hc|(n & Hn & _)]].
  - by apply GetSubMembers_dirty.
  - destruct (dirty (fold_left exec steps s0)) eqn:Hd.
    + by apply GetSubMembers_dirty.
    + unfold GetSubMembers at 1. by rewrite Hd.
  - by inversion Hn.
Qed.

(** Why the adds of the initial list have to be in the cache before the
    first call of [GetSubMembers]: at [late_initial_add] the cache
    listener handles such an add after that call, the update listener
    ignores it, and [GetSubMembers] keeps returning the list it cached,
    which is empty, while the cache holds three members. *)
Example initial_add_goes_unnoticed :
  let s := fold_left exec late_initial_add
             (NewSchedulerSet ∅ "dist-scheduler-0" 10 false) in
  owed late_initial_add = Some []
  ∧ (GetSubMembers s).1 = []
  ∧ PodName <$> freshSubMembers s = ["dist-scheduler-1"; "dist-scheduler-2"].
Proof. vm_compute. done. Qed.

End InformerFacts.

(* ===================================================================== *)
(** ** Relaying a pod: RelayPod, sendPodToEndpoint and the answers        *)
(* ===================================================================== *)

Section RelayPodFacts.
Import SchedulerSet Relay.

Lemma cacheKeyOf_inj (m1 m2 : EndpointItem) (idx : string) :
  cacheKeyOf m1 idx = cacheKeyOf m2 idx → PodName m1 = PodName m2.
Proof. unfold cacheKeyOf. apply append_inj_r. Qed.

Lemma Done_times_prefix (k : nat) : ∀ c,
  is_Some (Latch.Done_times (S k) c) → is_Some (Latch.Done_times k c).
Proof.
  induction k as [|k IH]; intros c H; [by eexists|].
  change (Latch.Done_times (S (S k)) c)
    with (Latch.Done c ≫= Latch.Done_times (S k)) in H.
  change (Latch.Done_times (S k) c) with (Latch.Done c ≫= Latch.Done_times k).
  destruct (Latch.Done c) as [c'|]; cbn [mbind option_bind] in *; [|done].
  by apply IH.
Qed.

Lemma Done_times_add (a b : nat) : ∀ c,
  Latch.Done_times (a + b) c = Latch.Done_times a c ≫= Latch.Done_times b.
Proof.
  induction a as [|a IH]; intros c; [done|].
  change (Latch.Done_times (S a + b) c)
    with (Latch.Done c ≫= Latch.Done_times (a + b)).
  change (Latch.Done_times (S a) c) with (Latch.Done c ≫= Latch.Done_times a).
  destruct (Latch.Done c) as [c'|]; cbn [mbind option_bind]; [|done].
  apply IH.
Qed.

Lemma Done_times_WaitGroup (n : nat) : ∀ k,
  Z.of_nat n ≤ k →
  Latch.Done_times n (Latch.AsWaitGroup k)
  = Some (Latch.AsWaitGroup (k - Z.of_nat n)).
Proof.
  induction n as [|n IH]; intros k Hk.
  - cbn. do 2 f_equal. lia.
  - cbn [Latch.Done_times Latch.Done].
    destruct (Z.ltb_spec (k - 1) 0); [lia|].
    cbn [mbind option_bind]. rewrite IH by lia. do 2 f_equal. lia.
Qed.

Lemma Done_times_Mutex (n : nat) : ∀ k,
  Latch.Done_times n (Latch.AsMutex k) = Some (Latch.AsMutex (k - Z.of_nat n)).
Proof.
  induction n as [|n IH]; intros k.
  - cbn. do 2 f_equal. lia.
  - cbn [Latch.Done_times Latch.Done mbind option_bind].
    rewrite IH. do 2 f_equal. lia.
Qed.

Lemma NewCountDownLatch_allows (n : nat) (ratio : spec_float) :
  ∃ c, Latch.NewCountDownLatch (Z.of_nat n) ratio = Some c
       ∧ is_Some (Latch.Done_times n c)
       ∧ (SFltb Latch.c0_999999 ratio = true →
          Latch.Done_times n c = Some (Latch.AsWaitGroup 0)).
Proof.
  unfold Latch.NewCountDownLatch.
  destruct (SFltb Latch.c0_999999 ratio).
  - destruct (Z.ltb_spec (Z.of_nat n) 0); [lia|].
    eexists. split; [done|]. rewrite Done_times_WaitGroup by lia.
    split; [by eexists|]. intros _. do 2 f_equal. lia.
  - eexists. split; [done|]. rewrite Done_times_Mutex.
    split; [by eexists|done].
Qed.

Lemma uint32_range (z : Z) : 0 ≤ uint32 z < 2 ^ 32.
Proof. unfold uint32. apply Z.mod_pos_bound. lia. Qed.

(** One send: the boolean is [sendFails]; only the cache entry of the
    member and the stream it points to are touched. *)
Lemma sendPodToEndpoint_spec (wires : EndpointItem → Wire) (st : State)
      (m : EndpointItem) (pod : list Z) (w : nat) (name idx : string)
      (b : bool) :
  ready st → Addresses m ≠ [] → Sampling.sampled name = Some b →
  ∃ st1,
    sendPodToEndpoint (wires m) st m pod w name idx
    = Some (st1, sendFails wires st idx m)
    ∧ ready st1 ∧ latches st1 = latches st
    ∧ (∀ k, k ≠ cacheKeyOf m idx → clientCache st1 !! k = clientCache st !! k)
    ∧ (∀ cs stream, streams st !! cs = Some stream →
         clientCache st !! cacheKeyOf m idx ≠ Some cs →
         streams st1 !! cs = Some stream)
    ∧ (if sendFails wires st idx m then sent st1 = sent st
       else ∃ cs id,
           sent st1 = sent st ++ [(cs, frame id pod)]
           ∧ clientCache st1 !! cacheKeyOf m idx = Some cs
           ∧ awaited st1 w pod (cs, frame id pod)).
Proof.
  intros [Hvalid Hinj] Haddr Hname.
  unfold sendPodToEndpoint, sendFails.
  destruct (clientCache st !! cacheKeyOf m idx) as [cs0|] eqn:Hc.
  - (* the stream is cached *)
    cbn [mbind option_bind]. rewrite Hname. cbn [mbind option_bind].
    destruct (lookup_lt_is_Some_2 (streams st) cs0 (Hvalid _ _ Hc))
      as [stream Hs].
    rewrite Hs. cbn [mbind option_bind register].
    destruct (sendOk (wires m)); cbn [negb].
    + eexists. split; [done|]. split_and!.
      * split; cbn.
        -- intros k cs Hk. rewrite length_insert. by eapply Hvalid.
        -- done.
      * done.
      * done.
      * cbn. intros cs stream0 Hcs Hne.
        rewrite list_lookup_insert_ne; [done|]. congruence.
      * eexists cs0, _. split; [done|]. split; [done|].
        eexists _, _, _. cbn.
        split; [apply list_lookup_insert_eq; by eapply lookup_lt_Some|].
        split; [done|]. split; [apply uint32_range|].
        cbn. by rewrite lookup_insert_eq.
    + eexists. split; [done|]. split_and!.
      * split; cbn.
        -- intros k cs Hk. rewrite length_insert.
           apply lookup_delete_Some in Hk as [_ Hk]. by eapply Hvalid.
        -- intros k1 k2 cs [_ H1]%lookup_delete_Some
                  [_ H2]%lookup_delete_Some.
           by eapply Hinj.
      * done.
      * cbn. intros k Hk. by rewrite lookup_delete_ne.
      * cbn. intros cs stream0 Hcs Hne.
        rewrite list_lookup_insert_ne; [done|]. congruence.
      * done.
  - (* a new stream is needed *)
    destruct (Addresses m) as [|a rest] eqn:Ha; [done|].
    cbn [lookup list_lookup mbind option_bind].
    destruct (dialOk (wires m)); cbn [negb andb].
    2:{ eexists. split; [done|]. by split_and!. }
    destruct (streamOk (wires m)); cbn [negb andb].
    2:{ eexists. split; [done|]. by split_and!. }
    cbn [mbind option_bind]. rewrite Hname. cbn [mbind option_bind streams].
    rewrite lookup_app_r by done. rewrite Nat.sub_diag.
    cbn [lookup list_lookup mbind option_bind register].
    destruct (sendOk (wires m)); cbn [negb].
    + eexists. split; [done|]. split_and!.
      * split; cbn.
        -- intros k cs Hk. rewrite length_insert, length_app. cbn [length].
           apply lookup_insert_Some in Hk as [[_ <-]|[_ Hk]]; [lia|].
           apply Hvalid in Hk. lia.
        -- intros k1 k2 cs H1 H2.
           apply lookup_insert_Some in H1 as [[<- <-]|[Hn1 H1]];
             apply lookup_insert_Some in H2 as [[<- H2]|[Hn2 H2]]; try done.
           ++ apply Hvalid in H2. lia.
           ++ apply Hvalid in H1. lia.
           ++ by eapply Hinj.
      * done.
      * cbn. intros k Hk. by rewrite lookup_insert_ne.
      * cbn. intros cs stream0 Hcs _.
        pose proof (lookup_lt_Some _ _ _ Hcs).
        rewrite list_lookup_insert_ne by lia.
        by rewrite lookup_app_l.
      * eexists (length (streams st)), _. split; [done|].
        split; [cbn; by rewrite lookup_insert_eq|].
        eexists _, _, _. cbn.
        split; [apply list_lookup_insert_eq; rewrite length_app; cbn; lia|].
        split; [done|]. split; [apply uint32_range|].
        cbn. by rewrite lookup_insert_eq.
    + eexists. split; [done|]. split_and!.
      * split; cbn.
        -- intros k cs Hk. rewrite length_insert, length_app. cbn [length].
           apply lookup_delete_Some in Hk as [Hn Hk].
           rewrite lookup_insert_ne in Hk by done.
           apply Hvalid in Hk. lia.
        -- intros k1 k2 cs [Hn1 H1]%lookup_delete_Some
                  [Hn2 H2]%lookup_delete_Some.
           rewrite lookup_insert_ne in H1, H2 by done. by eapply Hinj.
      * done.
      * cbn. intros k Hk. rewrite lookup_delete_ne, lookup_insert_ne; done.
      * cbn. intros cs stream0 Hcs _.
        pose proof (lookup_lt_Some _ _ _ Hcs).
        rewrite list_lookup_insert_ne by lia.
        by rewrite lookup_app_l.
      * done.
Qed.

Lemma ready_ext (st st' : State) :
  clientCache st' = clientCache st → streams st' = streams st →
  ready st → ready st'.
Proof. unfold ready. by intros -> ->. Qed.

Lemma failures_cons (wires : EndpointItem → Wire) (st : State) (idx : string)
      (m : EndpointItem) (rest : list EndpointItem) :
  failures wires st idx (m :: rest)
  = ((if sendFails wires st idx m then 1 else 0)
     + failures wires st idx rest)%nat.
Proof.
  unfold failures. rewrite filter_cons.
  destruct (sendFails wires st idx m); case_decide; done.
Qed.

Lemma failures_le (wires : EndpointItem → Wire) (st : State) (idx : string)
      (members : list EndpointItem) :
  (failures wires st idx members ≤ length members)%nat.
Proof. unfold failures. apply length_filter. Qed.

Lemma failures_ext (wires : EndpointItem → Wire) (st st' : State)
      (idx : string) (members : list EndpointItem) :
  (∀ m, m ∈ members →
        clientCache st' !! cacheKeyOf m idx = clientCache st !! cacheKeyOf m idx) →
  failures wires st' idx members = failures wires st idx members.
Proof.
  induction members as [|m rest IH]; intros H; [done|].
  rewrite !failures_cons. rewrite IH.
  - unfold sendFails. rewrite H; [done|]. apply elem_of_cons. by left.
  - intros m' Hm'. apply H. apply elem_of_cons. by right.
Qed.

(** After a send, the failed one with its [Done()]: the latch has taken
    as many [Done()] as sends failed, and nothing but the latch moved. *)
Lemma send_then_Done (st1 : State) (w : nat) (c : Latch.CountDownLatch)
      (n : nat) (err : bool) :
  latches st1 !! w = Some c →
  is_Some (Latch.Done_times (S n) c) →
  ∃ st2 c2,
    (if err then latchDone st1 w else Some st1) = Some st2
    ∧ clientCache st2 = clientCache st1 ∧ streams st2 = streams st1
    ∧ sent st2 = sent st1
    ∧ latches st2 !! w = Some c2
    ∧ is_Some (Latch.Done_times n c2)
    ∧ ∀ j, Latch.Done_times ((if err then 1 else 0) + j) c
           = Latch.Done_times j c2.
Proof.
  intros Hw Hsome. destruct err.
  - unfold latchDone. rewrite Hw. cbn [mbind option_bind].
    change (Latch.Done_times (S n) c)
      with (Latch.Done c ≫= Latch.Done_times n) in Hsome.
    destruct (Latch.Done c) as [c'|] eqn:Hd; cbn [mbind option_bind] in *;
      [|by destruct Hsome].
    eexists _, c'. split; [done|]. cbn. split_and!; try done.
    + apply list_lookup_insert_eq. by eapply lookup_lt_Some.
    + intros j. by rewrite Hd.
  - eexists st1, c. split_and!; try done. by apply Done_times_prefix.
Qed.

(** The loop of [RelayPod] over members with distinct names. *)
Lemma relayLoop_spec (wires : EndpointItem → Wire) (pod : list Z) (w : nat)
      (name idx : string) (b : bool) :
  Sampling.sampled name = Some b →
  ∀ (members : list EndpointItem) (st : State) (c : Latch.CountDownLatch),
    NoDup (PodName <$> members) →
    (∀ m, m ∈ members → Addresses m ≠ []) →
    ready st →
    latches st !! w = Some c →
    is_Some (Latch.Done_times (length members) c) →
    ∃ st' new,
      relayLoop wires st members pod w name idx = Some st'
      ∧ ready st'
      ∧ latches st' !! w
        = Latch.Done_times (failures wires st idx members) c
      ∧ sent st' = sent st ++ new
      ∧ length new
        = (length members - failures wires st idx members)%nat
      ∧ NoDup new.*1
      ∧ (∀ e, e ∈ new →
           awaited st' w pod e
           ∧ ∃ m, m ∈ members
                  ∧ clientCache st' !! cacheKeyOf m idx = Some e.1)
      ∧ (∀ k, (∀ m, m ∈ members → k ≠ cacheKeyOf m idx) →
              clientCache st' !! k = clientCache st !! k)
      ∧ (∀ cs stream, streams st !! cs = Some stream →
           (∀ m, m ∈ members →
                 clientCache st !! cacheKeyOf m idx ≠ Some cs) →
           streams st' !! cs = Some stream).
Proof.
  intros Hname.
  induction members as [|m rest IH]; intros st c Hnd Haddr Hready Hw Hsome.
  { exists st, []. cbn. rewrite app_nil_r. split_and!; try done.
    - constructor.
    - intros e He. by apply elem_of_nil in He. }
  rewrite fmap_cons in Hnd. apply NoDup_cons in Hnd as [Hfresh Hnd].
  assert (Hkeys : ∀ m', m' ∈ rest → cacheKeyOf m' idx ≠ cacheKeyOf m idx).
  { intros m' Hm' Heq. apply Hfresh. apply cacheKeyOf_inj in Heq.
    rewrite <- Heq. apply list_elem_of_fmap. by exists m'. }
  destruct (sendPodToEndpoint_spec wires st m pod w name idx b Hready)
    as (st1 & Hsend & Hready1 & Hlat1 & Hcache1 & Hstreams1 & Hsent1);
    [apply Haddr, elem_of_cons; by left|done|].
  destruct (send_then_Done st1 w c (length rest) (sendFails wires st idx m))
    as (st2 & c2 & Hdone & Hcache2 & Hstreams2 & Hsent2 & Hw2 & Hsome2 & Hc2);
    [by rewrite Hlat1|done|].
  assert (Hready2 : ready st2) by by eapply ready_ext.
  destruct (IH st2 c2 Hnd) as
    (st' & new & Hloop & Hready' & Hlat' & Hsent' & Hlen' & Hnd' & Haw'
     & Hcache' & Hstreams'); try done.
  { intros m' Hm'. apply Haddr, elem_of_cons. by right. }
  assert (Hsame : ∀ m', m' ∈ rest →
            clientCache st2 !! cacheKeyOf m' idx
            = clientCache st !! cacheKeyOf m' idx).
  { intros m' Hm'. rewrite Hcache2. apply Hcache1. by apply Hkeys. }
  assert (Hkept : clientCache st' !! cacheKeyOf m idx
                  = clientCache st1 !! cacheKeyOf m idx).
  { rewrite <- Hcache2. apply Hcache'. intros m' Hm' Heq.
    by eapply Hkeys. }
  rewrite (failures_ext wires st st2) in Hlat', Hlen' by done.
  exists st', ((if sendFails wires st idx m then []
                else drop (length (sent st)) (sent st1)) ++ new).
  split.
  { cbn [relayLoop]. rewrite Hsend, Hdone. cbn [mbind option_bind]. done. }
  split; [done|].
  split.
  { rewrite failures_cons, Hc2. done. }
  rewrite failures_cons.
  pose proof (failures_le wires st idx rest) as Hle.
  destruct (sendFails wires st idx m) eqn:Hf.
  - (* the send failed *)
    cbn [app]. split_and!.
    + by rewrite Hsent', Hsent2, Hsent1.
    + cbn [length]. lia.
    + done.
    + intros e He. destruct (Haw' e He) as [Ha (m' & Hm' & Hk)].
      split; [done|]. exists m'. split; [|done]. apply elem_of_cons. by right.
    + intros k Hk. rewrite Hcache', Hcache2.
      * apply Hcache1. apply Hk, elem_of_cons. by left.
      * intros m' Hm'. apply Hk, elem_of_cons. by right.
    + intros cs stream Hcs Hno. apply Hstreams'.
      * rewrite Hstreams2. apply Hstreams1; [done|].
        apply Hno, elem_of_cons. by left.
      * intros m' Hm'. rewrite Hsame by done.
        apply Hno, elem_of_cons. by right.
  - (* the send went out *)
    destruct Hsent1 as (cs & id & Hsent1 & Hkey1 & Haw1).
    rewrite Hsent1, drop_app_length.
    assert (Hother : ∀ m', m' ∈ rest →
              clientCache st2 !! cacheKeyOf m' idx ≠ Some cs).
    { intros m' Hm' Hcs. rewrite Hcache2 in Hcs.
      destruct Hready1 as [_ Hinj].
      by apply (Hkeys m' Hm'), (Hinj _ _ cs). }
    split_and!.
    + rewrite Hsent', Hsent2, Hsent1. by rewrite <- app_assoc.
    + cbn [length app]. lia.
    + cbn [app fmap list_fmap]. apply NoDup_cons. split; [|done].
      intros Hin. apply list_elem_of_fmap in Hin as (e & He1 & He).
      destruct (Haw' e He) as [_ (m' & Hm' & Hk)].
      cbn [fst] in He1. rewrite <- He1 in Hk.
      destruct Hready' as [_ Hinj].
      apply (Hkeys m' Hm'), (Hinj _ _ cs); [done|].
      by rewrite Hkept.
    + intros e He. cbn [app] in He. apply elem_of_cons in He as [->|He].
      * split.
        -- destruct Haw1 as (stream & id' & pr & Hs & Hmsg & Hid & Hp & Hwg).
           exists stream, id', pr.
           split; [apply Hstreams'; [by rewrite Hstreams2|done]|done].
        -- exists m. split; [apply elem_of_cons; by left|].
           by rewrite Hkept.
      * destruct (Haw' e He) as [Ha (m' & Hm' & Hk)].
        split; [done|]. exists m'. split; [|done].
        apply elem_of_cons. by right.
    + intros k Hk. rewrite Hcache', Hcache2.
      * apply Hcache1. apply Hk, elem_of_cons. by left.
      * intros m' Hm'. apply Hk, elem_of_cons. by right.
    + intros cs' stream Hcs Hno. apply Hstreams'.
      * rewrite Hstreams2. apply Hstreams1; [done|].
        apply Hno, elem_of_cons. by left.
      * intros m' Hm'. rewrite Hsame by done.
        apply Hno, elem_of_cons. by right.
Qed.

Lemma NoDup_submseteq_inv {A : Type} (l k : list A) :
  l ⊆+ k → NoDup k → NoDup l.
Proof.
  intros [k' Hk]%submseteq_Permutation Hnd. rewrite Hk in Hnd.
  by apply NoDup_app in Hnd as [? _].
Qed.

(** Answers to messages that are waited for on distinct streams: each
    gives the latch one [Done()]. *)
Lemma answerAll_spec (w : nat) (pod : list Z) :
  ∀ (es : list (nat * list Z)) (st : State) (c : Latch.CountDownLatch),
    NoDup es.*1 →
    (∀ e, e ∈ es → awaited st w pod e) →
    latches st !! w = Some c →
    is_Some (Latch.Done_times (length es) c) →
    ∃ st', answerAll st es = Some st'
           ∧ latches st' !! w = Latch.Done_times (length es) c.
Proof.
  induction es as [|[cs msg] es IH]; intros st c Hnd Haw Hw Hsome.
  { by exists st. }
  rewrite fmap_cons in Hnd. apply NoDup_cons in Hnd as [Hfresh Hnd].
  cbn [fst] in Hfresh.
  destruct (Haw (cs, msg)) as (stream & id & pr & Hs & Hmsg & Hid & Hp & Hwg);
    [apply elem_of_cons; by left|].
  cbn [fst snd] in Hs, Hmsg. subst msg.
  cbn [answerAll]. unfold answer. cbn [fst snd].
  assert (Uint32 (drop 1 (frame id pod)) = Some id) as ->.
  { unfold frame. cbn [drop]. by apply Uint32_PutUint32. }
  cbn [mbind option_bind]. unfold respond. rewrite Hs.
  cbn [mbind option_bind]. unfold receive. rewrite Hp, Hwg.
  set (st1 := set_streams st _).
  destruct (send_then_Done st1 w c (length es) true)
    as (st2 & c2 & Hdone & _ & Hstreams2 & _ & Hw2 & Hsome2 & Hc2);
    [done|done|].
  rewrite Hdone. cbn [mbind option_bind].
  destruct (IH st2 c2 Hnd) as (st' & Hall & Hlat'); try done.
  { intros e He.
    destruct (Haw e) as (stream' & id' & pr' & Hs' & Hrest);
      [apply elem_of_cons; by right|].
    exists stream', id', pr'. split; [|done].
    rewrite Hstreams2. subst st1. cbn [streams set_streams].
    rewrite list_lookup_insert_ne; [done|].
    intros ->. apply Hfresh. apply list_elem_of_fmap. by exists e. }
  exists st'. split; [done|]. rewrite Hlat'. symmetry. apply (Hc2 (length es)).
Qed.

Lemma rawPodOf_frame (id : Z) (pod : list Z) :
  rawPodOf (frame id pod) = Some pod.
Proof. reflexivity. Qed.

(** [RelayPod] on a cache in order, towards members with distinct names
    that all have an address, for a pod whose name can be cut out. *)
Lemma RelayPod_spec (wires : EndpointItem → Wire) (st : State)
      (ss ss' : SchedulerSet.t) (members : list EndpointItem)
      (rawPod spare : list Z) (ratio : spec_float)
      (clientIndex : Z) (name : string) (b : bool) :
  GetSubMembers ss = (members, ss') →
  members ≠ [] →
  NoDup (PodName <$> members) →
  (∀ m, m ∈ members → Addresses m ≠ []) →
  ready st →
  podNameOf rawPod spare = Some name →
  Sampling.sampled name = Some b →
  ∃ st' latch new,
    Latch.NewCountDownLatch (Z.of_nat (length members)) ratio = Some latch
    ∧ is_Some (Latch.Done_times (length members) latch)
    ∧ (SFltb Latch.c0_999999 ratio = true →
       Latch.Done_times (length members) latch = Some (Latch.AsWaitGroup 0))
    ∧ RelayPod wires st ss (Some (rawPod, spare)) ratio clientIndex
      = Some (st', ss', Some (length (latches st)), false)
    ∧ ready st'
    ∧ latches st' !! length (latches st)
      = Latch.Done_times (failures wires st (pretty clientIndex) members) latch
    ∧ sent st' = sent st ++ new
    ∧ length new
      = (length members
         - failures wires st (pretty clientIndex) members)%nat
    ∧ NoDup new.*1
    ∧ (∀ e, e ∈ new → awaited st' (length (latches st)) rawPod e).
Proof.
  intros Hsub Hne Hnd Haddr Hready Hname Hsampled.
  destruct (NewCountDownLatch_allows (length members) ratio)
    as (latch & Hlatch & Hsome & Hzero).
  set (st0 := {| clientCache := clientCache st; streams := streams st;
                 latches := latches st ++ [latch]; sent := sent st |}).
  assert (Hw0 : latches st0 !! length (latches st) = Some latch).
  { subst st0. cbn [latches]. rewrite lookup_app_r by reflexivity.
    by rewrite Nat.sub_diag. }
  destruct (relayLoop_spec wires rawPod (length (latches st)) name
              (pretty clientIndex) b Hsampled members st0 latch
              Hnd Haddr Hready Hw0 Hsome)
    as (st' & new & Hloop & Hready' & Hlat' & Hsent' & Hlen' & Hnd' & Haw'
        & _).
  exists st', latch, new.
  split; [exact Hlatch|]. split; [exact Hsome|]. split; [exact Hzero|].
  split.
  { unfold RelayPod. rewrite Hsub.
    destruct (Nat.eqb_spec (length members) 0) as [H0|_];
      [by apply length_zero_iff_nil in H0|].
    rewrite Hlatch. cbn [mbind option_bind]. rewrite Hname.
    cbn [mbind option_bind]. fold st0. by rewrite Hloop. }
  split; [exact Hready'|]. split; [exact Hlat'|]. split; [exact Hsent'|].
  split; [exact Hlen'|]. split; [exact Hnd'|].
  intros e He. by apply Haw'.
Qed.

(** X21. [RelayPod] creates the latch for all sub-members and gives it one
    [Done()] for every send that fails: it returns the latch after as many
    [Done()] as there are failures, and every other member got one
    message, the raw pod behind a request id for which its stream holds a
    pending request of this latch. *)
Theorem RelayPod_counts_failures (wires : EndpointItem → Wire) (st : State)
        (ss ss' : SchedulerSet.t) (members : list EndpointItem)
        (rawPod spare : list Z) (ratio : spec_float)
        (clientIndex : Z) (name : string) (b : bool) :
  GetSubMembers ss = (members, ss') →
  members ≠ [] →
  NoDup (PodName <$> members) →
  (∀ m, m ∈ members → Addresses m ≠ []) →
  ready st →
  podNameOf rawPod spare = Some name →
  Sampling.sampled name = Some b →
  ∃ st' latch,
    Latch.NewCountDownLatch (Z.of_nat (length members)) ratio = Some latch
    ∧ RelayPod wires st ss (Some (rawPod, spare)) ratio clientIndex
      = Some (st', ss', Some (length (latches st)), false)
    ∧ ready st'
    ∧ latches st' !! length (latches st)
      = Latch.Done_times (failures wires st (pretty clientIndex) members) latch
    ∧ length (sent st')
      = (length (sent st) + length members
         - failures wires st (pretty clientIndex) members)%nat
    ∧ take (length (sent st)) (sent st') = sent st
    ∧ (∀ e, e ∈ drop (length (sent st)) (sent st') →
         rawPodOf e.2 = Some rawPod
         ∧ awaited st' (length (latches st)) rawPod e).
Proof.
  intros Hsub Hne Hnd Haddr Hready Hname Hsampled.
  destruct (RelayPod_spec wires st ss ss' members rawPod spare ratio
              clientIndex name b Hsub Hne Hnd Haddr Hready Hname Hsampled)
    as (st' & latch & new & Hlatch & _ & _ & Hrelay & Hready' & Hlat'
        & Hsent' & Hlen' & _ & Haw').
  exists st', latch.
  split; [exact Hlatch|]. split; [exact Hrelay|]. split; [exact Hready'|].
  split; [exact Hlat'|].
  split.
  { rewrite Hsent', length_app, Hlen'.
    pose proof (failures_le wires st (pretty clientIndex) members). lia. }
  split.
  { rewrite Hsent'. by rewrite take_app_length. }
  rewrite Hsent', drop_app_length. intros e He.
  split; [|by apply Haw'].
  destruct (Haw' e He) as (stream & id & pr & _ & -> & _).
  apply rawPodOf_frame.
Qed.

(** X22. When the members that were sent the pod by [RelayPod] answer, in
    any order and any number of them, each answer is matched to its
    pending request and gives the latch one [Done()]; with the wait-group
    latch [Wait()] returns exactly when all of them have answered. *)
Theorem relay_latch_released (wires : EndpointItem → Wire) (st : State)
        (ss ss' : SchedulerSet.t) (members : list EndpointItem)
        (rawPod spare : list Z) (ratio : spec_float)
        (clientIndex : Z) (name : string) (b : bool)
        (st' : State) (w : nat) (answers : list (nat * list Z)) :
  GetSubMembers ss = (members, ss') →
  members ≠ [] →
  NoDup (PodName <$> members) →
  (∀ m, m ∈ members → Addresses m ≠ []) →
  ready st →
  podNameOf rawPod spare = Some name →
  Sampling.sampled name = Some b →
  RelayPod wires st ss (Some (rawPod, spare)) ratio clientIndex
  = Some (st', ss', Some w, false) →
  answers ⊆+ drop (length (sent st)) (sent st') →
  ∃ st'' latch c,
    Latch.NewCountDownLatch (Z.of_nat (length members)) ratio = Some latch
    ∧ answerAll st' answers = Some st''
    ∧ latches st'' !! w = Some c
    ∧ Latch.Done_times
        (failures wires st (pretty clientIndex) members + length answers)
        latch = Some c
    ∧ (SFltb Latch.c0_999999 ratio = true →
       (Latch.Wait_returns c = true
        ↔ length answers = length (drop (length (sent st)) (sent st')))).
Proof.
  intros Hsub Hne Hnd Haddr Hready Hname Hsampled Hrelay Hanswers.
  destruct (RelayPod_spec wires st ss ss' members rawPod spare ratio
              clientIndex name b Hsub Hne Hnd Haddr Hready Hname Hsampled)
    as (st0 & latch & new & Hlatch & Hsome & Hzero & Hrelay0 & Hready'
        & Hlat' & Hsent' & Hlen' & Hnd' & Haw').
  rewrite Hrelay0 in Hrelay. injection Hrelay as Hst Hw. subst st0 w.
  rewrite Hsent', drop_app_length in Hanswers.
  rewrite Hsent', drop_app_length.
  pose proof (failures_le wires st (pretty clientIndex) members) as Hf.
  pose proof (submseteq_length _ _ Hanswers) as Hk.
  revert Hf Hlen' Hlat'.
  generalize (failures wires st (pretty clientIndex) members) as f.
  intros f Hf Hlen' Hlat'.
  (* splitting the calls of [Done()] the latch allows *)
  assert (Hsplit : ∃ c1 c, Latch.Done_times f latch = Some c1
                           ∧ Latch.Done_times (length answers) c1 = Some c
                           ∧ Latch.Done_times (f + length answers) latch
                             = Some c).
  { clear Hlat'.
    replace (length members)
      with (f + (length answers + (length members - f - length answers)))%nat
      in Hsome by lia.
    rewrite Done_times_add in Hsome.
    destruct (Latch.Done_times f latch) as [c1|] eqn:H1;
      cbn [mbind option_bind] in Hsome; [|by destruct Hsome].
    rewrite Done_times_add in Hsome.
    destruct (Latch.Done_times (length answers) c1) as [c|] eqn:H2;
      cbn [mbind option_bind] in Hsome; [|by destruct Hsome].
    exists c1, c.
    split_and!; rewrite ?Done_times_add, ?H1; cbn [mbind option_bind];
      rewrite ?H2; reflexivity. }
  destruct Hsplit as (c1 & c & H1 & H2 & H12).
  rewrite H1 in Hlat'.
  destruct (answerAll_spec (length (latches st)) rawPod answers st' c1)
    as (st'' & Hall & Hlat'').
  { eapply NoDup_submseteq_inv; [|exact Hnd']. by apply fmap_submseteq. }
  { intros e He. apply Haw'. by eapply elem_of_submseteq. }
  { exact Hlat'. }
  { rewrite H2. by eexists. }
  rewrite H2 in Hlat''.
  exists st'', latch, c.
  split; [exact Hlatch|]. split; [exact Hall|]. split; [exact Hlat''|].
  split; [exact H12|].
  intros Hratio. rewrite Hlen'.
  unfold Latch.NewCountDownLatch in Hlatch. rewrite Hratio in Hlatch.
  destruct (Z.of_nat (length members) <? 0); [discriminate|].
  injection Hlatch as <-.
  rewrite Done_times_WaitGroup in H12 by lia. injection H12 as <-.
  cbn [Latch.Wait_returns]. rewrite Z.eqb_eq. lia.
Qed.

(** X23. The length of the pod name is read from byte 7 of the raw pod
    and [8+podNameLen] is computed in [byte]: with a length byte of 248
    or more the sum wraps below 8 and the slice expression panics,
    whatever the sub-members and the network do. *)
Theorem RelayPod_long_name_panics (wires : EndpointItem → Wire) (st : State)
        (ss ss' : SchedulerSet.t) (members : list EndpointItem)
        (rawPod spare : list Z) (ratio : spec_float)
        (clientIndex : Z) (podNameLen : Z) :
  GetSubMembers ss = (members, ss') →
  members ≠ [] →
  rawPod !! 7%nat = Some podNameLen →
  248 ≤ podNameLen < 256 →
  podNameOf rawPod spare = None
  ∧ RelayPod wires st ss (Some (rawPod, spare)) ratio clientIndex = None.
Proof.
  intros Hsub Hne H7 Hlen.
  assert (Hname : podNameOf rawPod spare = None).
  { unfold podNameOf. rewrite H7. cbn [mbind option_bind].
    unfold sliceBytes, uint8.
    replace ((8 + podNameLen) mod 256) with (podNameLen - 248).
    - destruct (Z.ltb_spec (podNameLen - 248) 8); [reflexivity|lia].
    - apply Z.mod_unique with 1; lia. }
  split; [exact Hname|].
  unfold RelayPod. rewrite Hsub.
  destruct (Nat.eqb_spec (length members) 0) as [H0|_];
    [by apply length_zero_iff_nil in H0|].
  rewrite Hname. by destruct (Latch.NewCountDownLatch _ _).
Qed.

End RelayPodFacts.


(** X1 at [three_peers] and [three_peers_reordered]. *)
Lemma GetTargetForScoring_agree_witness :
  SchedulerSet.GetTargetForScoring three_peers "default/pod-1"
  = SchedulerSet.GetTargetForScoring three_peers_reordered "default/pod-1".
Proof.
  apply GetTargetForScoring_agree.
  - reflexivity.
  - assert (H1 : SchedulerSet.GetMembers three_peers
                 = [ SchedulerSet.mkEndpointItem "dist-scheduler-2" ["10.0.0.2"];
                     SchedulerSet.mkEndpointItem "dist-scheduler-0" ["10.0.0.0"];
                     SchedulerSet.mkEndpointItem "dist-scheduler-1" ["10.0.0.1"] ])
      by (vm_compute; reflexivity).
    assert (H2 : SchedulerSet.GetMembers three_peers_reordered
                 = [ SchedulerSet.mkEndpointItem "dist-scheduler-0" ["10.0.0.0"];
                     SchedulerSet.mkEndpointItem "dist-scheduler-1" ["10.0.0.1"];
                     SchedulerSet.mkEndpointItem "dist-scheduler-2" ["10.0.0.2"] ])
      by (vm_compute; reflexivity).
    rewrite H1, H2. apply (Permutation_cons_append [_; _]).
  - apply (bool_decide_unpack (NoDup _)). vm_compute. exact I.
Defined.

(** X3 at [three_peers]. *)
Lemma member_counts_agree_witness :
  SchedulerSet.GetMemberCountNoRelays three_peers
  ≤ SchedulerSet.GetMemberCount three_peers.
Proof.
  destruct (member_counts_agree three_peers) as (_ & _ & _ & H).
  - vm_compute. reflexivity.
  - exact H.
Defined.

(** X4 after two calls of [Get] and the return of index 0. *)
Lemma counter_hands_out_least_free_witness :
  (ConcurrentCounter.Get (ConcurrentCounter.mkCounter 2 [0])).1 ∉ [1].
Proof.
  assert (Hr : ConcurrentCounter.reach (ConcurrentCounter.mkCounter 2 [0]) [1]).
  { apply (ConcurrentCounter.reach_Free
             (ConcurrentCounter.mkCounter 2 []) [1; 0] 0).
    - apply (ConcurrentCounter.reach_Get (ConcurrentCounter.mkCounter 1 []) [0]).
      apply (ConcurrentCounter.reach_Get ConcurrentCounter.zero []).
      apply ConcurrentCounter.reach_zero.
    - apply (bool_decide_unpack (_ ∈ _)). vm_compute. exact I.
    - vm_compute. reflexivity. }
  destruct (counter_hands_out_least_free _ _ Hr) as (H & _).
  exact H.
Defined.

(** X5 for three schedulers, all of them in use. *)
Lemma stack_is_a_pool_witness :
  Stack.Pop (@nil Z) = None ↔ length [1; 2; 3] = length [1; 2; 3].
Proof.
  assert (Hr : Stack.reach [1; 2; 3] [] [1; 2; 3]).
  { apply (Stack.reach_Pop _ [1] [2; 3] 1 []); [|reflexivity].
    apply (Stack.reach_Pop _ [1; 2] [3] 2 [1]); [|reflexivity].
    apply (Stack.reach_Pop _ [1; 2; 3] [] 3 [1; 2]); [|reflexivity].
    apply Stack.reach_new. }
  destruct (stack_is_a_pool _ _ _ Hr) as (_ & H & _).
  exact H.
Defined.

(** X6 at [quorum_run]. *)
Lemma every_decision_has_a_permitted_call_witness :
  ∃ e rp',
    ScoreEvaluator.run (ScoreEvaluator.New three_peers) quorum_run = Some e
    ∧ rp' ∈ ScoreEvaluator.replies e
    ∧ ScoreEvaluator.permit rp' = true.
Proof.
  destruct (ScoreEvaluator.run (ScoreEvaluator.New three_peers) quorum_run)
    as [e|] eqn:Hrun; [|vm_compute in Hrun; discriminate Hrun].
  destruct (ScoreEvaluator.replies e !! 0%nat) as [rp|] eqn:H0;
    [|vm_compute in Hrun; injection Hrun as <-; discriminate H0].
  destruct (every_decision_has_a_permitted_call three_peers quorum_run e rp)
    as (rp' & Hin & _ & _ & _ & Hp).
  - repeat constructor; simpl; lia.
  - exact Hrun.
  - apply list_elem_of_lookup. by exists 0%nat.
  - exists e, rp'. split; [reflexivity|]. split; [exact Hin|exact Hp].
Defined.

(** X7 at [minus_one_run]. *)
Lemma calls_are_accounted_for_witness :
  ∃ e',
    ScoreEvaluator.run (ScoreEvaluator.New three_peers) minus_one_run = Some e'
    ∧ (length (ScoreEvaluator.replies e') + ScoreEvaluatorInv.waiting e'
       + length (ScoreEvaluator.pending e') = 3)%nat.
Proof.
  destruct (ScoreEvaluator.run (ScoreEvaluator.New three_peers) minus_one_run)
    as [e'|] eqn:Hrun; [|vm_compute in Hrun; discriminate Hrun].
  exists e'. split; [reflexivity|].
  apply (calls_are_accounted_for minus_one_run _ e' Hrun).
Defined.

(** X8 at [late_score_run]: both deadlines have passed, both calls are
    answered. *)
Lemma whole_calls_are_all_answered_witness :
  ∃ e,
    ScoreEvaluator.run (ScoreEvaluator.New three_peers) late_score_run = Some e
    ∧ ∀ id o, ScoreEvaluator.heap e !! id = Some o →
              ScoreEvaluator.ticked o = true → ScoreEvaluator.waiters o = [].
Proof.
  destruct (whole_calls_are_all_answered three_peers late_score_run)
    as (e & Hrun & Hw & _).
  - repeat constructor.
  - repeat constructor; simpl; lia.
  - exists e. split; [exact Hrun|exact Hw].
Defined.

(** X9 at [three_peers] and [three_reports]. *)
Lemma quorum_fires_early_witness :
  ∃ e' w,
    ScoreEvaluator.run (ScoreEvaluator.New three_peers)
      (ScoreEvaluatorInv.reportEvents "default" "p" three_reports) = Some e'
    ∧ w ∈ ScoreEvaluatorInv.scoreOf <$> three_reports
    ∧ ScoreEvaluator.evaluators e' !! ScoreEvaluator.podKey "default" "p" = None.
Proof.
  destruct (quorum_fires_early (ScoreEvaluator.New three_peers) "default" "p"
              three_reports) as (e' & w & Hrun & Hnone & _ & Hw & _).
  - reflexivity.
  - discriminate.
  - vm_compute. reflexivity.
  - repeat constructor; simpl; lia.
  - exists e', w. split; [exact Hrun|]. split; [exact Hw|exact Hnone].
Defined.

(** X10 at [abc_members] and [two_two_nodes]. *)
Lemma balanced_labels_are_kept_witness :
  ∃ res,
    Partitioner.updateNodeLabels abc_members abc_names two_two_nodes = Some res
    ∧ Partitioner.toMove res = [] ∧ Partitioner.patches res = [].
Proof.
  destruct (balanced_labels_are_kept abc_members abc_names two_two_nodes)
    as (res & Hrun & Htm & Hp & _).
  - vm_compute. discriminate.
  - intros n Hn.
    repeat (apply elem_of_cons in Hn as [->|Hn];
            [eexists; split; [reflexivity|];
             apply (bool_decide_unpack (_ ∈ _)); vm_compute; exact I|]).
    inversion Hn.
  - intros g Hg.
    change (SchedulerSet.PodName <$> Partitioner.schedulersOf abc_members)
      with abc_names in Hg.
    repeat (apply elem_of_cons in Hg as [->|Hg];
            [vm_compute; discriminate|]).
    inversion Hg.
  - exists res. split; [exact Hrun|]. split; [exact Htm|exact Hp].
Defined.


(** X12 at [abc_members] and [five_nodes]. *)
Lemma one_run_settles_witness :
  ∃ res res',
    Partitioner.updateNodeLabels abc_members abc_names five_nodes = Some res
    ∧ Partitioner.updateNodeLabels abc_members abc_names
        (Partitioner.applyPatches (Partitioner.patches res) five_nodes)
      = Some res'
    ∧ Partitioner.toMove res' = [].
Proof.
  destruct (Partitioner.updateNodeLabels abc_members abc_names five_nodes)
    as [res|] eqn:Hrun; [|vm_compute in Hrun; discriminate Hrun].
  destruct (one_run_settles abc_members abc_names abc_names five_nodes res)
    as (_ & _ & res' & Hrun' & Htm & _).
  - apply (bool_decide_unpack (NoDup _)). vm_compute. exact I.
  - vm_compute. discriminate.
  - apply (bool_decide_unpack (_ ∉ _)). vm_compute. exact I.
  - reflexivity.
  - apply (bool_decide_unpack (NoDup _)). vm_compute. exact I.
  - exact Hrun.
  - exists res, res'. split; [reflexivity|]. split; [exact Hrun'|exact Htm].
Defined.

(** X13 for an IPv4 and an IPv6 address. *)
Lemma GRPCAddress_distinct_witness :
  DistPermit.GRPCAddress "10.0.0.1" "50051"
  ≠ DistPermit.GRPCAddress "::1" "50051".
Proof. apply GRPCAddress_distinct. discriminate. Defined.

(** X14 at [friendly_net], starting with an empty cache. *)
Lemma SendScore_reuses_connection_witness :
  ∃ st' conn,
    DistPermit.SendScore friendly_net (DistPermit.mkState false ∅)
      (SchedulerSet.mkEndpointItem "dist-scheduler-2" ["10.0.0.2"])
      "p" "default" "node-a" 7
    = Some (DistPermit.Returned true st'
              [DistPermit.Awaited conn
                 (DistPermit.mkSchedulingScore "p" "default" "node-a" 7)])
    ∧ DistPermit.clientCache st' !! DistPermit.GRPCAddress "10.0.0.2" "50051"
      = Some conn.
Proof.
  set (conn := DistPermit.mkConn (DistPermit.GRPCAddress "10.0.0.2" "50051")).
  set (st' := DistPermit.mkState false
                {[ DistPermit.GRPCAddress "10.0.0.2" "50051" := conn ]}).
  assert (Hsend : DistPermit.SendScore friendly_net (DistPermit.mkState false ∅)
                    (SchedulerSet.mkEndpointItem "dist-scheduler-2" ["10.0.0.2"])
                    "p" "default" "node-a" 7
                  = Some (DistPermit.Returned true st'
                            [DistPermit.Awaited conn
                               (DistPermit.mkSchedulingScore "p" "default"
                                  "node-a" 7)]))
    by (vm_compute; reflexivity).
  destruct (SendScore_reuses_connection friendly_net (DistPermit.mkState false ∅)
              st' (SchedulerSet.mkEndpointItem "dist-scheduler-2" ["10.0.0.2"])
              "p" "default" "node-a" 7 "10.0.0.2" true _ eq_refl Hsend eq_refl)
    as ((conn' & _ & Hc) & _).
  exists st', conn. split; [exact Hsend|]. vm_compute. reflexivity.
Defined.

(** X15 at [friendly_net] and [three_peers]. *)
Lemma Permit_grants_only_on_yes_witness :
  ∃ status st' calls signalled,
    PermitPlugin.Permit friendly_net (DistPermit.mkState false ∅) false
      three_peers (Some [PermitPlugin.mkNodePluginScore "node-a" 7])
      "pod-1" "default" "node-a"
    = Some (PermitPlugin.Returned status st' calls signalled)
    ∧ (length calls ≤ 1)%nat.
Proof.
  destruct (PermitPlugin.Permit friendly_net (DistPermit.mkState false ∅) false
              three_peers (Some [PermitPlugin.mkNodePluginScore "node-a" 7])
              "pod-1" "default" "node-a")
    as [[|status st' calls signalled]|] eqn:Hp;
    [vm_compute in Hp; discriminate Hp| |vm_compute in Hp; discriminate Hp].
  exists status, st', calls, signalled. split; [reflexivity|].
  apply (Permit_grants_only_on_yes _ _ _ _ _ _ _ _ _ _ _ _ Hp).
Defined.

(** X16 at [friendly_net], [three_peers] and [fit_failure], with the
    mutex free. *)
Lemma podScheduleFailure_reports_zero_witness :
  ∃ st' conn,
    FailureHandler.podScheduleFailure friendly_net (DistPermit.mkState false ∅)
      three_peers fit_failure "pod-1" "default"
    = Some (FailureHandler.Returned st'
              [DistPermit.Spawned conn
                 (DistPermit.mkSchedulingScore "pod-1" "default" "" 0)]).
Proof.
  destruct (SchedulerSet.GetTargetForScoring three_peers
              (ScoreEvaluator.podKey "default" "pod-1"))
    as [target|] eqn:Ht; [|vm_compute in Ht; discriminate Ht].
  destruct (SchedulerSet.Addresses target !! 0%nat) as [a|] eqn:Ha;
    [|vm_compute in Ht; injection Ht as <-; discriminate Ha].
  destruct (podScheduleFailure_reports_zero friendly_net
              (DistPermit.mkState false ∅) three_peers fit_failure
              "pod-1" "default") as [_ H].
  destruct H with (target := target) (a := a) as [Hfree _].
  - intros [Hb|(plugins & Hp & Hin)]; [discriminate Hb|].
    injection Hp as <-.
    apply elem_of_cons in Hin as [Hin|Hin]; [discriminate Hin|].
    apply elem_of_nil in Hin. contradiction.
  - exact Ht.
  - exact Ha.
  - destruct (Hfree eq_refl) as (st' & calls & Hrun & Hcalls & _).
    destruct (DistPermit.connection friendly_net (DistPermit.mkState false ∅)
                (DistPermit.GRPCAddress a "50051")) as [conn|] eqn:Hconn.
    + exists st', conn. rewrite Hrun, Hcalls. reflexivity.
    + vm_compute in Ht. injection Ht as <-.
      vm_compute in Ha. injection Ha as <-.
      vm_compute in Hconn. discriminate Hconn.
Defined.

(** X17 for the request id 258 and a pod of three bytes. *)
Lemma frame_round_trip_witness :
  Relay.Uint32 (drop 1 (Relay.frame 258 [1; 2; 3])) = Some 258
  ∧ Relay.rawPodOf (Relay.frame 258 [1; 2; 3]) = Some [1; 2; 3].
Proof.
  destruct (frame_round_trip 258 7 [1; 2; 3]) as (_ & _ & Hid & Hpod & _).
  - lia.
  - split; [exact Hid|exact Hpod].
Defined.

(** X18 at [two_sends]. *)
Lemma request_ids_match_witness :
  Relay.assigned (Relay.runStream two_sends) = [1; 2]
  ∧ NoDup (Relay.completed (Relay.runStream two_sends)).*1.
Proof.
  destruct (request_ids_match two_sends) as (Has & _ & Hnd & _).
  - vm_compute. reflexivity.
  - split; [exact Has|exact Hnd].
Defined.

(** X20 at [startup_listing] followed by [slice_deleted]. *)
Lemma sub_members_cache_coherent_witness :
  let s := fold_left Informer.exec (startup_listing ++ slice_deleted)
             (SchedulerSet.NewSchedulerSet ∅ "dist-scheduler-0" 10 false) in
  (SchedulerSet.GetSubMembers s).1 = Informer.freshSubMembers s.
Proof.
  apply sub_members_cache_coherent.
  - repeat constructor; discriminate.
  - repeat constructor; discriminate.
  - vm_compute. reflexivity.
Defined.

(** X21 at [leader_of_three] on the network [one_unreachable]. *)
Lemma RelayPod_counts_failures_witness :
  ∃ st',
    Relay.RelayPod one_unreachable relay_start leader_of_three
      (Some (raw_pod_7, [])) (Latch.of_int 1) 0
    = Some (st', (SchedulerSet.GetSubMembers leader_of_three).2,
            Some 0%nat, false)
    ∧ Relay.latches st' !! 0%nat = Some (Latch.AsWaitGroup 1)
    ∧ length (Relay.sent st') = 1%nat.
Proof.
  assert (Hm : (SchedulerSet.GetSubMembers leader_of_three).1
               = [ SchedulerSet.mkEndpointItem "dist-scheduler-1" ["10.0.0.1"];
                   SchedulerSet.mkEndpointItem "dist-scheduler-2" ["10.0.0.2"] ])
    by (vm_compute; reflexivity).
  destruct (RelayPod_counts_failures one_unreachable relay_start
              leader_of_three (SchedulerSet.GetSubMembers leader_of_three).2
              (SchedulerSet.GetSubMembers leader_of_three).1
              raw_pod_7 [] (Latch.of_int 1) 0 "pod-7" false)
    as (st' & latch & Hl & Hr & _ & Hlat & Hlen & _).
  - destruct (SchedulerSet.GetSubMembers leader_of_three); reflexivity.
  - rewrite Hm. discriminate.
  - rewrite Hm. apply (bool_decide_unpack (NoDup _)). vm_compute. exact I.
  - rewrite Hm. intros m Hin.
    apply elem_of_cons in Hin as [->|Hin]; [discriminate|].
    apply elem_of_cons in Hin as [->|Hin]; [discriminate|].
    apply elem_of_nil in Hin. contradiction.
  - split; intros *; cbn; rewrite lookup_empty; discriminate.
  - vm_compute. reflexivity.
  - vm_compute. reflexivity.
  - exists st'. rewrite Hm in Hl, Hlat, Hlen.
    vm_compute in Hl. injection Hl as <-.
    split; [exact Hr|]. split; [exact Hlat|exact Hlen].
Defined.

(** X22 at [leader_of_three] on the network [one_unreachable], once the
    member that was reached has answered. *)
Lemma relay_latch_released_witness :
  ∃ st' st'' c,
    Relay.RelayPod one_unreachable relay_start leader_of_three
      (Some (raw_pod_7, [])) (Latch.of_int 1) 0
    = Some (st', (SchedulerSet.GetSubMembers leader_of_three).2,
            Some 0%nat, false)
    ∧ Relay.answerAll st' (Relay.sent st') = Some st''
    ∧ Relay.latches st'' !! 0%nat = Some c
    ∧ Latch.Wait_returns c = true.
Proof.
  assert (Hm : (SchedulerSet.GetSubMembers leader_of_three).1
               = [ SchedulerSet.mkEndpointItem "dist-scheduler-1" ["10.0.0.1"];
                   SchedulerSet.mkEndpointItem "dist-scheduler-2" ["10.0.0.2"] ])
    by (vm_compute; reflexivity).
  assert (Hsub : SchedulerSet.GetSubMembers leader_of_three
                 = ((SchedulerSet.GetSubMembers leader_of_three).1,
                    (SchedulerSet.GetSubMembers leader_of_three).2))
    by (destruct (SchedulerSet.GetSubMembers leader_of_three); reflexivity).
  assert (Hne : (SchedulerSet.GetSubMembers leader_of_three).1 ≠ [])
    by (rewrite Hm; discriminate).
  assert (Hnd : NoDup (SchedulerSet.PodName
                         <$> (SchedulerSet.GetSubMembers leader_of_three).1)).
  { rewrite Hm. apply (bool_decide_unpack (NoDup _)). vm_compute. exact I. }
  assert (Haddr : ∀ m, m ∈ (SchedulerSet.GetSubMembers leader_of_three).1 →
                       SchedulerSet.Addresses m ≠ []).
  { rewrite Hm. intros m Hin.
    apply elem_of_cons in Hin as [->|Hin]; [discriminate|].
    apply elem_of_cons in Hin as [->|Hin]; [discriminate|].
    apply elem_of_nil in Hin. contradiction. }
  assert (Hready : Relay.ready relay_start).
  { split; intros *; cbn; rewrite lookup_empty; discriminate. }
  assert (Hname : Relay.podNameOf raw_pod_7 [] = Some "pod-7")
    by (vm_compute; reflexivity).
  assert (Hsampled : Sampling.sampled "pod-7" = Some false)
    by (vm_compute; reflexivity).
  destruct (RelayPod_spec one_unreachable relay_start leader_of_three
              (SchedulerSet.GetSubMembers leader_of_three).2
              (SchedulerSet.GetSubMembers leader_of_three).1
              raw_pod_7 [] (Latch.of_int 1) 0 "pod-7" false
              Hsub Hne Hnd Haddr Hready Hname Hsampled)
    as (st' & _ & _ & _ & _ & _ & Hrelay & _).
  destruct (relay_latch_released one_unreachable relay_start
              leader_of_three (SchedulerSet.GetSubMembers leader_of_three).2
              (SchedulerSet.GetSubMembers leader_of_three).1
              raw_pod_7 [] (Latch.of_int 1) 0 "pod-7" false st' 0%nat
              (Relay.sent st')
              Hsub Hne Hnd Haddr Hready Hname Hsampled Hrelay)
    as (st'' & latch & c & _ & Hall & Hlat & _ & Hwait).
  - reflexivity.
  - exists st', st'', c.
    split; [exact Hrelay|]. split; [exact Hall|]. split; [exact Hlat|].
    apply Hwait; [vm_compute|]; reflexivity.
Defined.

(** X23 at [leader_of_three] for a pod whose name has 250 bytes. *)
Lemma RelayPod_long_name_panics_witness :
  Relay.podNameOf raw_pod_long_name [] = None
  ∧ Relay.RelayPod one_unreachable relay_start leader_of_three
      (Some (raw_pod_long_name, [])) (Latch.of_int 1) 0 = None.
Proof.
  apply (RelayPod_long_name_panics one_unreachable relay_start
           leader_of_three (SchedulerSet.GetSubMembers leader_of_three).2
           (SchedulerSet.GetSubMembers leader_of_three).1
           raw_pod_long_name [] (Latch.of_int 1) 0 250).
  - destruct (SchedulerSet.GetSubMembers leader_of_three); reflexivity.
  - vm_compute. discriminate.
  - reflexivity.
  - lia.
Defined.
